(** * Seam carving: a shallow embedding of [seamcarving.c] and
      [seamcarving_wasm.c], and the properties of their four stages.

    Data model.
    - A pixel buffer ([uint8_t *raster]) is a [list Z] of channel values,
      row-major, 3 channels per pixel in [seamcarving.c] and 4 (RGBA) in
      [seamcarving_wasm.c].  A value stored through a [uint8_t] lvalue is
      narrowed with [u8] (reduction modulo 256).
    - [int] arithmetic is arithmetic in [Z]; [/] on [int] is [Z.quot].
      Rasters are taken small enough for the index arithmetic to stay
      inside [int] (signed overflow is undefined in C).
    - The cost table ([double *best_arr]) is a [list Z]: every value the
      program puts in it is a sum of at most [height] energies below 256, an
      integer far below 2^53, on which [double] addition and comparison are
      exact.  The constant [10000000000000000] is [10^16], also exact.
    - The comparators [min_2] and [min_3] are embedded a second time on
      [double] itself (module [Double]: NaN, the two infinities and the
      finite values as rationals), to state what they do on any argument;
      on integers the two embeddings agree.
    - [sqrt] is applied to an [int] no larger than 6 * 255^2 and its result
      is truncated to [int]: on that range the correctly rounded square root
      truncates to [Z.sqrt].
    - Every array access is bounds-checked by [load] / [store]; an access
      outside the allocated buffer (undefined behaviour in C) makes the
      whole computation [None].
    - [malloc] does not initialise: each function that allocates takes the
      initial contents of the fresh block as an extra argument. *)

From Stdlib Require Import ZArith Lia List QArith.
From stdpp Require Import base option list.

Open Scope Z_scope.

(** ** Memory and control *)

Definition load (buf : list Z) (i : Z) : option Z :=
  if i <? 0 then None else buf !! Z.to_nat i.

Definition store (buf : list Z) (i v : Z) : option (list Z) :=
  if (0 <=? i) && (i <? Z.of_nat (length buf))
  then Some (<[Z.to_nat i := v]> buf)
  else None.

(** Conversion to [uint8_t]. *)
Definition u8 (v : Z) : Z := v mod 256.

(** [iter_up n i body s]: [n] iterations of [body], the index going
    [i, i+1, ...]. *)
Fixpoint iter_up {St : Type} (n : nat) (i : Z)
    (body : Z → St → option St) (s : St) : option St :=
  match n with
  | O => Some s
  | S n' => s' ← body i s; iter_up n' (i + 1) body s'
  end.

(** [for (int i = lo; i < hi; i++) body] *)
Definition for_up {St : Type} (lo hi : Z)
    (body : Z → St → option St) (s : St) : option St :=
  iter_up (Z.to_nat (hi - lo)) lo body s.

Fixpoint iter_down {St : Type} (n : nat) (i : Z)
    (body : Z → St → option St) (s : St) : option St :=
  match n with
  | O => Some s
  | S n' => s' ← body i s; iter_down n' (i - 1) body s'
  end.

(** [for (int j = hi; j >= lo; j--) body] *)
Definition for_down {St : Type} (hi lo : Z)
    (body : Z → St → option St) (s : St) : option St :=
  iter_down (Z.to_nat (hi - lo + 1)) hi body s.

(** [struct rgb_img] of [c_img.h]. *)
Record rgb_img := mk_img { raster : list Z; height : Z; width : Z }.

(** The comparators are the same in both files. *)
Definition min_2 (e1 e2 : Z) : Z := if e1 >? e2 then e2 else e1.

Definition min_3 (e1 e2 e3 : Z) : Z :=
  let sub_min := min_2 e1 e2 in
  if sub_min >? e3 then e3 else sub_min.

(** ** seamcarving.c *)

Module Seamcarving.

(** Modelled from the spec: [create_img] of [c_img.c], which is not among
    the sources ("allocation of a new raster of given dimensions"; "packed
    RGB ..., row-major, one byte per channel").  [fresh] is the content of
    the block that [malloc] returns. *)
Definition create_img (h w : Z) (fresh : list Z) : rgb_img :=
  {| raster := fresh; height := h; width := w |}.

(** Modelled from the spec: [get_pixel] of [c_img.c] ("get ... of a channel
    value at (row, column)", packed RGB, row-major); the 4-channel twin is
    in [seamcarving_wasm.c]. *)
Definition get_pixel (im : rgb_img) (y x col : Z) : option Z :=
  load (raster im) (3 * (y * width im + x) + col).

(** Modelled from the spec: [set_pixel] of [c_img.c]. *)
Definition set_pixel (im : rgb_img) (y x r g b : Z) : option rgb_img :=
  r0 ← store (raster im) (3 * (y * width im + x) + 0) (u8 r);
  r1 ← store r0 (3 * (y * width im + x) + 1) (u8 g);
  r2 ← store r1 (3 * (y * width im + x) + 2) (u8 b);
  Some {| raster := r2; height := height im; width := width im |}.

(** Lines 42-81: the neighbours with wrap-around, the six differences and
    the two squared gradients [(grad_x_2, grad_y_2)] at pixel [(j, i)]. *)
Definition grad_sq_at (im : rgb_img) (j i : Z) : option (Z * Z) :=
  let w := width im in
  let h := height im in
  let k_left := if i =? 0 then w - 1 else i - 1 in
  let k_right := if i =? w - 1 then 0 else i + 1 in
  let k_up := if j =? 0 then h - 1 else j - 1 in
  let k_down := if j =? h - 1 then 0 else j + 1 in
  rr ← get_pixel im j k_right 0; rl ← get_pixel im j k_left 0;
  let R_x := rr - rl in
  gr ← get_pixel im j k_right 1; gl ← get_pixel im j k_left 1;
  let G_x := gr - gl in
  br ← get_pixel im j k_right 2; bl ← get_pixel im j k_left 2;
  let B_x := br - bl in
  ru ← get_pixel im k_up i 0; rd ← get_pixel im k_down i 0;
  let R_y := ru - rd in
  gu ← get_pixel im k_up i 1; gd ← get_pixel im k_down i 1;
  let G_y := gu - gd in
  bu ← get_pixel im k_up i 2; bd ← get_pixel im k_down i 2;
  let B_y := bu - bd in
  let grad_x_2 := R_x * R_x + B_x * B_x + G_x * G_x in
  let grad_y_2 := R_y * R_y + B_y * B_y + G_y * G_y in
  Some (grad_x_2, grad_y_2).

(** Line 84: [energy = sqrt(grad_x_2 + grad_y_2)], an [int]. *)
Definition energy_of (g : Z * Z) : Z := Z.sqrt (g.1 + g.2).

(** Line 85: [energy_norm = (uint8_t)(energy / 10)]. *)
Definition energy_norm_of (energy : Z) : Z := u8 (energy ÷ 10).

Definition calc_energy (im : rgb_img) (fresh : list Z) : option rgb_img :=
  let grad := create_img (height im) (width im) fresh in
  for_up 0 (height im) (fun j grad =>
    for_up 0 (width im) (fun i grad =>
      g ← grad_sq_at im j i;
      let energy := energy_of g in
      let energy_norm := energy_norm_of energy in
      set_pixel grad j i energy_norm energy_norm energy_norm) grad) grad.

Definition dynamic_seam (grad : rgb_img) (fresh : list Z) : option (list Z) :=
  let best_arr := fresh in
  best_arr ← for_up 0 (width grad) (fun i best_arr =>
    p ← get_pixel grad 0 i 0;
    store best_arr i p) best_arr;
  for_up 1 (height grad) (fun j best_arr =>
    for_up 0 (width grad) (fun i best_arr =>
      cur ← get_pixel grad j i 0;
      min ← (if i =? 0 then
               e1 ← load best_arr ((j - 1) * width grad + (i + 1));
               e2 ← load best_arr ((j - 1) * width grad + i);
               Some (min_2 e1 e2)
             else if i =? width grad - 1 then
               e1 ← load best_arr ((j - 1) * width grad + i);
               e2 ← load best_arr ((j - 1) * width grad + (i - 1));
               Some (min_2 e1 e2)
             else
               e1 ← load best_arr ((j - 1) * width grad + (i - 1));
               e2 ← load best_arr ((j - 1) * width grad + i);
               e3 ← load best_arr ((j - 1) * width grad + (i + 1));
               Some (min_3 e1 e2 e3));
      store best_arr (j * width grad + i) (cur + min)) best_arr) best_arr.

(** The locals that [recover_path] declares afresh in every row. *)
Record rp_locals := mk_rp {
  rp_min : Z;
  e1_sum : Z; e2_sum : Z; e3_sum : Z;
  e1_i : Z; e2_i : Z; e3_i : Z }.

Definition set_min (l : rp_locals) (m : Z) : rp_locals :=
  mk_rp m (e1_sum l) (e2_sum l) (e3_sum l) (e1_i l) (e2_i l) (e3_i l).
Definition set_e1 (l : rp_locals) (s i : Z) : rp_locals :=
  mk_rp (rp_min l) s (e2_sum l) (e3_sum l) i (e2_i l) (e3_i l).
Definition set_e2 (l : rp_locals) (s i : Z) : rp_locals :=
  mk_rp (rp_min l) (e1_sum l) s (e3_sum l) (e1_i l) i (e3_i l).
Definition set_e3 (l : rp_locals) (s i : Z) : rp_locals :=
  mk_rp (rp_min l) (e1_sum l) (e2_sum l) s (e1_i l) (e2_i l) i.

(** Lines 209-249: the candidate is recorded when it is adjacent to
    [x_cont]. *)
Definition rp_record (l : rp_locals) (width x_cont i b : Z) : rp_locals :=
  if x_cont =? 0 then
    if i =? x_cont then set_e1 l b i
    else if i =? x_cont + 1 then set_e2 l b i
    else l
  else if x_cont =? width - 1 then
    if i =? x_cont then set_e1 l b i
    else if i =? x_cont - 1 then set_e2 l b i
    else l
  else
    if i =? x_cont then set_e1 l b i
    else if i =? x_cont - 1 then set_e2 l b i
    else if i =? x_cont + 1 then set_e3 l b i
    else l.

(** Lines 253-280: the choice made at the last column; the new [min] and
    the chosen index. *)
Definition rp_choose (l : rp_locals) : Z * Z :=
  if e3_sum l =? 0 then
    let m := min_2 (e1_sum l) (e2_sum l) in
    if m =? e1_sum l then (m, e1_i l) else (m, e2_i l)
  else
    let m := min_3 (e1_sum l) (e2_sum l) (e3_sum l) in
    if m =? e1_sum l then (m, e1_i l)
    else if m =? e2_sum l then (m, e2_i l)
    else (m, e3_i l).

(** The state of the inner loop: the row's locals, [*path] and [x_cont]
    ([None] while [x_cont] is uninitialised). *)
Definition rp_state : Type := rp_locals * list Z * option Z.

Definition rp_body (best : list Z) (height width j i : Z)
    (st : rp_state) : option rp_state :=
  let '(l, path, x_cont) := st in
  b ← load best (j * width + i);
  if j =? height - 1 then
    if rp_min l >? b then
      path' ← store path j i;
      Some (set_min l b, path', Some i)
    else Some st
  else
    l1 ← (if rp_min l >? b then
            xc ← x_cont; Some (rp_record l width xc i b)
          else Some l);
    if i =? width - 1 then
      let '(m, k) := rp_choose l1 in
      path' ← store path j k;
      Some (set_min l1 m, path', Some k)
    else Some (l1, path, x_cont).

Definition recover_path (best : list Z) (height width : Z)
    (fresh : list Z) : option (list Z) :=
  r ← for_down (height - 1) 0 (fun j (st : list Z * option Z) =>
         let l := mk_rp (10 ^ 16) 0 0 0 0 0 0 in
         r ← for_up 0 width (rp_body best height width j)
               (l, st.1, st.2);
         Some (r.1.2, r.2)) (fresh, None);
  Some r.1.

Definition remove_seam (src : rgb_img) (fresh : list Z) (path : list Z)
    : option rgb_img :=
  let dest := create_img (height src) (width src - 1) fresh in
  for_up 0 (height src) (fun j dest =>
    for_up 0 (width src) (fun i dest =>
      pj ← load path j;
      if negb (i =? pj) then
        R ← get_pixel src j i 0;
        G ← get_pixel src j i 1;
        B ← get_pixel src j i 2;
        pj' ← load path j;
        if i <? pj' then set_pixel dest j i R G B
        else set_pixel dest j (i - 1) R G B
      else Some dest) dest) dest.

End Seamcarving.

(** ** seamcarving_wasm.c *)

Module Wasm.

Definition get_pixel (raster : list Z) (width y x col : Z) : option Z :=
  load raster (4 * (y * width + x) + col).

Definition set_pixel (raster : list Z) (width y x r g b a : Z)
    : option (list Z) :=
  r0 ← store raster (4 * (y * width + x) + 0) (u8 r);
  r1 ← store r0 (4 * (y * width + x) + 1) (u8 g);
  r2 ← store r1 (4 * (y * width + x) + 2) (u8 b);
  store r2 (4 * (y * width + x) + 3) (u8 a).

(** Lines 56-73: the neighbours with wrap-around, the six differences and
    the two squared gradients [(grad_x_2, grad_y_2)] at pixel [(j, i)]. *)
Definition grad_sq_at (src : list Z) (h w j i : Z) : option (Z * Z) :=
  let k_left := if i =? 0 then w - 1 else i - 1 in
  let k_right := if i =? w - 1 then 0 else i + 1 in
  let k_up := if j =? 0 then h - 1 else j - 1 in
  let k_down := if j =? h - 1 then 0 else j + 1 in
  rr ← get_pixel src w j k_right 0; rl ← get_pixel src w j k_left 0;
  let r_x := rr - rl in
  gr ← get_pixel src w j k_right 1; gl ← get_pixel src w j k_left 1;
  let g_x := gr - gl in
  br ← get_pixel src w j k_right 2; bl ← get_pixel src w j k_left 2;
  let b_x := br - bl in
  ru ← get_pixel src w k_up i 0; rd ← get_pixel src w k_down i 0;
  let r_y := ru - rd in
  gu ← get_pixel src w k_up i 1; gd ← get_pixel src w k_down i 1;
  let g_y := gu - gd in
  bu ← get_pixel src w k_up i 2; bd ← get_pixel src w k_down i 2;
  let b_y := bu - bd in
  let grad_x_2 := r_x * r_x + g_x * g_x + b_x * b_x in
  let grad_y_2 := r_y * r_y + g_y * g_y + b_y * b_y in
  Some (grad_x_2, grad_y_2).

(** Line 75: [energy = sqrt(grad_x_2 + grad_y_2)], an [int]. *)
Definition energy_of (g : Z * Z) : Z := Z.sqrt (g.1 + g.2).

(** Line 76: [energy_norm = energy / 10], still an [int]. *)
Definition energy_norm_of (energy : Z) : Z := energy ÷ 10.

Definition calc_energy (src dest : list Z) (height width : Z)
    : option (list Z) :=
  let w := width in
  let h := height in
  for_up 0 h (fun j dest =>
    for_up 0 w (fun i dest =>
      g ← grad_sq_at src h w j i;
      let energy := energy_of g in
      let energy_norm := energy_norm_of energy in
      set_pixel dest w j i energy_norm energy_norm energy_norm 255)
      dest) dest.

(** Lines 92-127 of [seam_carve]: the cumulative-cost table. *)
Definition seam_carve_cost (energy_map : list Z) (height width : Z)
    (fresh : list Z) : option (list Z) :=
  let best_arr := fresh in
  best_arr ← for_up 0 width (fun i best_arr =>
    p ← get_pixel energy_map width 0 i 0;
    store best_arr i p) best_arr;
  for_up 1 height (fun j best_arr =>
    for_up 0 width (fun i best_arr =>
      cur ← get_pixel energy_map width j i 0;
      min ← (if i =? 0 then
               e1 ← load best_arr ((j - 1) * width + i + 1);
               e2 ← load best_arr ((j - 1) * width + i);
               Some (min_2 e1 e2)
             else if i =? width - 1 then
               e1 ← load best_arr ((j - 1) * width + i);
               e2 ← load best_arr ((j - 1) * width + i - 1);
               Some (min_2 e1 e2)
             else
               e1 ← load best_arr ((j - 1) * width + i - 1);
               e2 ← load best_arr ((j - 1) * width + i);
               e3 ← load best_arr ((j - 1) * width + i + 1);
               Some (min_3 e1 e2 e3));
      store best_arr (j * width + i) (cur + min)) best_arr) best_arr.

(** Lines 145-165: one step of the backtracking, the column chosen in row
    [j] from [prev_idx = path[j + 1]]. *)
Definition backtrack_step (best_arr : list Z) (width j prev_idx : Z)
    : option Z :=
  let min_idx := prev_idx in
  min_energy ← load best_arr (j * width + prev_idx);
  '(min_energy, min_idx) ←
    (if prev_idx >? 0 then
       l ← load best_arr (j * width + prev_idx - 1);
       if l <? min_energy then Some (l, prev_idx - 1)
       else Some (min_energy, min_idx)
     else Some (min_energy, min_idx));
  '(min_energy, min_idx) ←
    (if prev_idx <? width - 1 then
       r ← load best_arr (j * width + prev_idx + 1);
       if r <? min_energy then Some (r, prev_idx + 1)
       else Some (min_energy, min_idx)
     else Some (min_energy, min_idx));
  Some min_idx.

(** Lines 130-165 of [seam_carve]: the seam. *)
Definition seam_carve_path (best_arr : list Z) (height width : Z)
    (fresh : list Z) : option (list Z) :=
  let path := fresh in
  min_energy ← load best_arr ((height - 1) * width);
  let min_idx := 0 in
  '(min_energy, min_idx) ← for_up 1 width (fun i '(min_energy, min_idx) =>
    b ← load best_arr ((height - 1) * width + i);
    if b <? min_energy then Some (b, i)
    else Some (min_energy, min_idx)) (min_energy, min_idx);
  path ← store path (height - 1) min_idx;
  for_down (height - 2) 0 (fun j path =>
    prev_idx ← load path (j + 1);
    min_idx ← backtrack_step best_arr width j prev_idx;
    store path j min_idx) path.

(** Lines 168-183 of [seam_carve]: the copy that skips the seam. *)
Definition seam_carve_copy (src : list Z) (height width : Z)
    (path : list Z) (fresh : list Z) : option (list Z) :=
  let output := fresh in
  for_up 0 height (fun j output =>
    let new_col := 0 in
    r ← for_up 0 width (fun i '(output, new_col) =>
      pj ← load path j;
      if negb (i =? pj) then
        p0 ← get_pixel src width j i 0;
        p1 ← get_pixel src width j i 1;
        p2 ← get_pixel src width j i 2;
        p3 ← get_pixel src width j i 3;
        output ← set_pixel output (width - 1) j new_col p0 p1 p2 p3;
        Some (output, new_col + 1)
      else Some (output, new_col)) (output, new_col);
    Some r.1) output.

(** The buffers that [seam_carve] allocates, as [malloc] hands them out. *)
Record fresh_blocks := mk_fresh {
  fresh_energy : list Z;
  fresh_best : list Z;
  fresh_path : list Z;
  fresh_output : list Z }.

(** [seam_carve] up to the seam (lines 88-165). *)
Definition seam_carve_seam (src : list Z) (height width : Z)
    (f : fresh_blocks) : option (list Z) :=
  energy_map ← calc_energy src (fresh_energy f) height width;
  best_arr ← seam_carve_cost energy_map height width (fresh_best f);
  seam_carve_path best_arr height width (fresh_path f).

Definition seam_carve (src : list Z) (height width : Z)
    (f : fresh_blocks) : option (list Z) :=
  path ← seam_carve_seam src height width f;
  seam_carve_copy src height width path (fresh_output f).

End Wasm.

(** ** Well-formed inputs *)

Definition is_byte (v : Z) : bool := (0 <=? v) && (v <? 256).

Definition has_size (buf : list Z) (n : Z) : bool :=
  Z.of_nat (length buf) =? n.

(** A 3-channel raster of at least one row and one column whose buffer
    holds exactly [3 * height * width] bytes. *)
Definition wf_rgb (im : rgb_img) : bool :=
  (1 <=? height im) && (1 <=? width im)
  && has_size (raster im) (3 * height im * width im)
  && forallb is_byte (raster im).

(** The same for the RGBA buffers of [seamcarving_wasm.c]. *)
Definition wf_rgba (src : list Z) (h w : Z) : bool :=
  (1 <=? h) && (1 <=? w) && has_size src (4 * h * w) && forallb is_byte src.

Definition in_range (w c : Z) : bool := (0 <=? c) && (c <? w).

(** The contract of the seam remover on its path: one column per row, each
    inside the raster. *)
Definition valid_seam (path : list Z) (h w : Z) : bool :=
  has_size path h && forallb (in_range w) path.

(** The entry of a cost table at row [j], column [i] (0 outside it). *)
Definition cost_at (best : list Z) (width j i : Z) : Z :=
  default 0 (load best (j * width + i)).

(** The source column that lands in output column [i] of a row whose seam
    is at column [pj]: [i] left of the seam, [i + 1] from the seam on. *)
Definition seam_shift (pj i : Z) : Z := if i <? pj then i else i + 1.

(** [dest] is a raster of the reduced shape in which every output pixel of
    the rows before [j], and every output pixel of row [j] whose source
    column is before [i], holds the source pixel that [path] assigns to
    it. *)
Definition removed_upto (src : rgb_img) (path : list Z) (j i : Z)
    (dest : rgb_img) : Prop :=
  height dest = height src ∧ width dest = width src - 1
  ∧ Z.of_nat (length (raster dest)) = 3 * height src * (width src - 1)
  ∧ ∀ j' i' c pj,
      0 ≤ j' < height src → 0 ≤ i' < width src - 1 → 0 ≤ c < 3 →
      load path j' = Some pj →
      j' < j ∨ (j' = j ∧ seam_shift pj i' < i) →
      Seamcarving.get_pixel dest j' i' c
      = Seamcarving.get_pixel src j' (seam_shift pj i') c.

(** The invariant of the two loops of [calc_energy]: the pixels before
    [(j, i)] in row-major order hold their normalised energy. *)
Definition energy_upto (im : rgb_img) (j i : Z) (grad : rgb_img) : Prop :=
  height grad = height im ∧ width grad = width im
  ∧ Z.of_nat (length (raster grad)) = 3 * height im * width im
  ∧ ∀ j' i' c g,
      0 ≤ j' < height im → 0 ≤ i' < width im → 0 ≤ c < 3 →
      Seamcarving.grad_sq_at im j' i' = Some g →
      j' < j ∨ (j' = j ∧ i' < i) →
      Seamcarving.get_pixel grad j' i' c
      = Some (Seamcarving.energy_norm_of (Seamcarving.energy_of g)).

(** The dynamic program of both files, over an arbitrary reader
    [energy j i] of the energy map. *)
Definition dp_fill (energy : Z → Z → option Z) (h w : Z) (fresh : list Z)
    : option (list Z) :=
  best_arr ← for_up 0 w (fun i best_arr =>
    p ← energy 0 i;
    store best_arr i p) fresh;
  for_up 1 h (fun j best_arr =>
    for_up 0 w (fun i best_arr =>
      cur ← energy j i;
      min ← (if i =? 0 then
               e1 ← load best_arr ((j - 1) * w + (i + 1));
               e2 ← load best_arr ((j - 1) * w + i);
               Some (min_2 e1 e2)
             else if i =? w - 1 then
               e1 ← load best_arr ((j - 1) * w + i);
               e2 ← load best_arr ((j - 1) * w + (i - 1));
               Some (min_2 e1 e2)
             else
               e1 ← load best_arr ((j - 1) * w + (i - 1));
               e2 ← load best_arr ((j - 1) * w + i);
               e3 ← load best_arr ((j - 1) * w + (i + 1));
               Some (min_3 e1 e2 e3));
      store best_arr (j * w + i) (cur + min)) best_arr) best_arr.

(** Column [i'] is a predecessor of column [i]: adjacent and inside the
    row. *)
Definition adjacent (w i i' : Z) : Prop := i - 1 ≤ i' ≤ i + 1 ∧ 0 ≤ i' < w.

(** [m] is the least entry of row [j] of [best] over the columns adjacent
    to [i]. *)
Definition min_over_adjacent (best : list Z) (w j i m : Z) : Prop :=
  (∃ i', adjacent w i i' ∧ cost_at best w j i' = m)
  ∧ ∀ i', adjacent w i i' → m ≤ cost_at best w j i'.

(** Cell [(j, i)] of the table obeys the recurrence. *)
Definition dp_cell (energy : Z → Z → option Z) (best : list Z) (w j i : Z)
    : Prop :=
  ∃ e m, energy j i = Some e
    ∧ load best (j * w + i) = Some (e + m)
    ∧ min_over_adjacent best w (j - 1) i m.

Definition dp_upto (energy : Z → Z → option Z) (h w j i : Z)
    (best : list Z) : Prop :=
  Z.of_nat (length best) = h * w
  ∧ (∀ i', 0 ≤ i' < w → load best i' = energy 0 i')
  ∧ ∀ j' i', 1 ≤ j' < h → 0 ≤ i' < w →
      j' < j ∨ (j' = j ∧ i' < i) → dp_cell energy best w j' i'.

(** Column [p] holds the least entry of row [j], and is the first column
    that does. *)
Definition first_min (best : list Z) (w j p : Z) : Prop :=
  0 ≤ p < w
  ∧ (∀ i, 0 ≤ i < w → cost_at best w j p ≤ cost_at best w j i)
  ∧ ∀ i, 0 ≤ i < p → cost_at best w j p < cost_at best w j i.

(** Column [p] is adjacent to [c] and holds the least entry of row [j]
    among the columns adjacent to [c]. *)
Definition adjacent_min (best : list Z) (w j c p : Z) : Prop :=
  adjacent w c p
  ∧ ∀ k, adjacent w c k → cost_at best w j p ≤ cost_at best w j k.

(** The documented order among equal candidates: [c] before [c - 1]
    before [c + 1]. *)
Definition tie_break (best : list Z) (w j c p : Z) : Prop :=
  (adjacent_min best w j c c → p = c)
  ∧ (adjacent_min best w j c (c - 1) → ¬ adjacent_min best w j c c →
     p = c - 1).

(** The seam invariant of the data model, for a path held in [path]. *)
Definition seam_minimal (best : list Z) (h w : Z) (path : list Z) : Prop :=
  (∃ p, load path (h - 1) = Some p ∧ first_min best w (h - 1) p)
  ∧ ∀ j, 0 ≤ j < h - 1 →
      ∃ c p, load path (j + 1) = Some c ∧ load path j = Some p
        ∧ adjacent_min best w j c p.

(** The tie-breaking order, for a path held in [path]. *)
Definition seam_tie_break (best : list Z) (h w : Z) (path : list Z)
    : Prop :=
  (∃ p, load path (h - 1) = Some p ∧ first_min best w (h - 1) p)
  ∧ ∀ j, 0 ≤ j < h - 1 →
      ∃ c p, load path (j + 1) = Some c ∧ load path j = Some p
        ∧ adjacent w c p ∧ tie_break best w j c p.

(** Rows [k + 1 .. h - 1] of [path] are in place: the bottom entry is the
    first minimum of the bottom row and each entry above it is related by
    [step] to the entry below. *)
Definition path_from (step : Z → Z → Z → Prop) (best : list Z)
    (h w k : Z) (path : list Z) : Prop :=
  Z.of_nat (length path) = h
  ∧ (∃ p, load path (h - 1) = Some p ∧ first_min best w (h - 1) p)
  ∧ ∀ j, k < j < h - 1 →
      ∃ c p, load path (j + 1) = Some c ∧ load path j = Some p
        ∧ step j c p.

(** The step of the wasm backtracking. *)
Definition wasm_step (best : list Z) (w j c p : Z) : Prop :=
  adjacent_min best w j c p ∧ tie_break best w j c p.

Definition seam_from (best : list Z) (h w k : Z) (path : list Z) : Prop :=
  path_from (wasm_step best w) best h w k path.

(** The invariant of the two loops of the wasm [calc_energy]. *)
Definition energy4_upto (src : list Z) (h w j i : Z) (dest : list Z)
    : Prop :=
  Z.of_nat (length dest) = 4 * h * w
  ∧ ∀ j' i' g,
      0 ≤ j' < h → 0 ≤ i' < w →
      Wasm.grad_sq_at src h w j' i' = Some g →
      j' < j ∨ (j' = j ∧ i' < i) →
      let e := u8 (Wasm.energy_norm_of (Wasm.energy_of g)) in
      Wasm.get_pixel dest w j' i' 0 = Some e
      ∧ Wasm.get_pixel dest w j' i' 1 = Some e
      ∧ Wasm.get_pixel dest w j' i' 2 = Some e
      ∧ Wasm.get_pixel dest w j' i' 3 = Some 255.

(** The output column of the surviving source column [i] of a row whose
    seam is at [pj]. *)
Definition survivor_col (pj i : Z) : Z := if i <? pj then i else i - 1.

(** Every surviving pixel before [(j, i)] in row-major order is in place in
    [output], with its four channels. *)
Definition copied_upto (src path : list Z) (h w j i : Z) (output : list Z)
    : Prop :=
  Z.of_nat (length output) = 4 * h * (w - 1)
  ∧ ∀ j' i' c pj,
      0 ≤ j' < h → 0 ≤ i' < w → 0 ≤ c < 4 →
      load path j' = Some pj → i' ≠ pj →
      j' < j ∨ (j' = j ∧ i' < i) →
      Wasm.get_pixel output (w - 1) j' (survivor_col pj i') c
      = Wasm.get_pixel src w j' i' c.

(** Every entry of the table is below the sentinel [10^16] with which
    [recover_path] starts its running minimum. *)
Definition below_sentinel (best : list Z) : bool :=
  forallb (fun v => v <? 10 ^ 16) best.

(** The column that [recover_path] records in [e2_sum]/[e2_i] when
    [x_cont = c]. *)
Definition rp_col2 (c : Z) : Z := if c =? 0 then 1 else c - 1.

(** The column that it records in [e3_sum]/[e3_i]: [c + 1] away from the
    borders, and none ([w]) at a border. *)
Definition rp_col3 (w c : Z) : Z :=
  if (c =? 0) || (c =? w - 1) then w else c + 1.

(** The row's locals after columns [0 .. i - 1] of row [j] have been
    visited with [x_cont = c]. *)
Definition rp_seen (best : list Z) (w j c i : Z) : Seamcarving.rp_locals :=
  let sum x := if x <? i then cost_at best w j x else 0 in
  let idx x := if x <? i then x else 0 in
  Seamcarving.mk_rp (10 ^ 16)
    (sum c) (sum (rp_col2 c)) (sum (rp_col3 w c))
    (idx c) (idx (rp_col2 c)) (idx (rp_col3 w c)).

(** The column that [recover_path] stores in [path[j]] when
    [path[j + 1] = c]. *)
Definition rp_pick (best : list Z) (w j c : Z) : Z :=
  (Seamcarving.rp_choose (rp_seen best w j c w)).2.

Definition rp_step (best : list Z) (w j c p : Z) : Prop :=
  0 ≤ c < w ∧ p = rp_pick best w j c.

(** ** The four stages, composed *)

(** The blocks that the four stages of [seamcarving.c] allocate. *)
Record stage_blocks := mk_stage_blocks {
  fresh_grad : list Z;
  fresh_cost : list Z;
  fresh_seam : list Z;
  fresh_dest : list Z }.

(** The composition of the four stage operations on one raster: the seam
    and the reduced raster. *)
Definition four_stages (im : rgb_img) (f : stage_blocks)
    : option (list Z * rgb_img) :=
  grad ← Seamcarving.calc_energy im (fresh_grad f);
  best ← Seamcarving.dynamic_seam grad (fresh_cost f);
  path ← Seamcarving.recover_path best (height im) (width im) (fresh_seam f);
  dest ← Seamcarving.remove_seam im (fresh_dest f) path;
  Some (path, dest).

(** The blocks of [seam_carve] have the sizes that it asks of [malloc]. *)
Definition wf_fresh (f : Wasm.fresh_blocks) (h w : Z) : bool :=
  has_size (Wasm.fresh_energy f) (4 * h * w)
  && has_size (Wasm.fresh_best f) (h * w)
  && has_size (Wasm.fresh_path f) h
  && has_size (Wasm.fresh_output f) (4 * h * (w - 1)).

(** A fresh block of [n] cells with arbitrary contents [g]. *)
Definition uninit (g : nat → Z) (n : nat) : list Z := map g (seq 0 n).

(** The RGB bytes of an RGBA buffer. *)
Fixpoint rgb_of_rgba (buf : list Z) : list Z :=
  match buf with
  | r :: g :: b :: _ :: rest => r :: g :: b :: rgb_of_rgba rest
  | _ => []
  end.

(** ** Concrete rasters *)

(** Two rows of three pixels, all black but the top right one. *)
Definition raster_2x3 : rgb_img :=
  mk_img [0; 0; 0;  0; 0; 0;  255; 255; 255;
          0; 0; 0;  0; 0; 0;  0; 0; 0] 2 3.

(** The same pixels with an opaque alpha channel. *)
Definition rgba_2x3 : list Z :=
  [0; 0; 0; 255;  0; 0; 0; 255;  255; 255; 255; 255;
   0; 0; 0; 255;  0; 0; 0; 255;  0; 0; 0; 255].

(** One column of three pixels: black, black, white. *)
Definition raster_3x1 : rgb_img :=
  mk_img [0; 0; 0;  0; 0; 0;  255; 255; 255] 3 1.

(** Its energy map. *)
Definition energy_3x1 : rgb_img :=
  mk_img [44; 44; 44;  44; 44; 44;  0; 0; 0] 3 1.

(** The same column with an opaque alpha channel. *)
Definition rgba_3x1 : list Z :=
  [0; 0; 0; 255;  0; 0; 0; 255;  255; 255; 255; 255].

(** The 3 x 3 raster whose every pixel is (0, 0, 0). *)
Definition black_3x3 : rgb_img := mk_img (repeat 0 27%nat) 3 3.

(** A 2 x 2 raster with twelve distinct bytes. *)
Definition raster_2x2 : rgb_img :=
  mk_img [1; 2; 3;  4; 5; 6;  7; 8; 9;  10; 11; 12] 2 2.

(** Zeroed blocks of the sizes [seam_carve] asks for on a 2 x 3 buffer. *)
Definition zero_blocks_2x3 : Wasm.fresh_blocks :=
  Wasm.mk_fresh (repeat 0 24%nat) (repeat 0 6%nat) (repeat 0 2%nat)
    (repeat 0 16%nat).

(** * Further definitions *)

(** ** Seams as lists of columns *)

(** [cols] holds one column per row, top row first: every column is inside
    the row and consecutive columns differ by at most one. *)
Fixpoint connected (w : Z) (cols : list Z) : bool :=
  match cols with
  | [] => true
  | c :: rest =>
      in_range w c
      && match rest with
         | [] => true
         | c' :: _ => (Z.abs (c' - c) <=? 1) && connected w rest
         end
  end.

(** The total energy of the seam [cols] whose first column is in row [j],
    for a total reader [energy] of the energy map. *)
Fixpoint seam_energy (energy : Z → Z → Z) (j : Z) (cols : list Z) : Z :=
  match cols with
  | [] => 0
  | c :: rest => energy j c + seam_energy energy (j + 1) rest
  end.

(** The total reader of an energy reader that may fail (0 where it
    fails). *)
Definition energy_or_0 (energy : Z → Z → option Z) (j i : Z) : Z :=
  default 0 (energy j i).

(** The energy of pixel [(j, i)] as [dynamic_seam] reads it from an energy
    map: channel 0. *)
Definition map_energy (grad : rgb_img) : Z → Z → Z :=
  energy_or_0 (fun j i => Seamcarving.get_pixel grad j i 0).

(** The same for the RGBA energy map of [seam_carve]. *)
Definition map4_energy (energy_map : list Z) (w : Z) : Z → Z → Z :=
  energy_or_0 (fun j i => Wasm.get_pixel energy_map w j i 0).

(** An energy map of two rows and three columns. *)
Definition energy_2x3 : rgb_img :=
  mk_img [44; 44; 44;  44; 44; 44;  0; 0; 0;
          0; 0; 0;  0; 0; 0;  0; 0; 0] 2 3.

(** Channel [c] of pixel [(y, x)] of a raster, 0 outside it. *)
Definition pixel_or_0 (im : rgb_img) (y x c : Z) : Z :=
  default 0 (Seamcarving.get_pixel im y x c).

(** The sum of the squares of a difference taken on the three colour
    channels. *)
Definition sq_sum (d : Z → Z) : Z := d 0 * d 0 + d 1 * d 1 + d 2 * d 2.

(** The squared gradients of pixel [(j, i)] as the specification words
    them: the three squared differences between the right and the left
    neighbour, and between the upper and the lower one, the neighbours
    taken modulo the width and the height. *)
Definition gradX2 (im : rgb_img) (j i : Z) : Z :=
  sq_sum (fun c => pixel_or_0 im j ((i + 1) mod width im) c
                   - pixel_or_0 im j ((i - 1) mod width im) c).

Definition gradY2 (im : rgb_img) (j i : Z) : Z :=
  sq_sum (fun c => pixel_or_0 im ((j - 1) mod height im) i c
                   - pixel_or_0 im ((j + 1) mod height im) i c).

(** ** The two implementations side by side *)

(** The raster [im] holds the colour channels of the RGBA buffer [src] of
    [h] rows and [w] columns. *)
Definition same_pixels (im : rgb_img) (src : list Z) (h w : Z) : Prop :=
  height im = h ∧ width im = w ∧ raster im = rgb_of_rgba src.

(** The 3-channel raster of the colour channels of an RGBA buffer. *)
Definition rgb_image (src : list Z) (h w : Z) : rgb_img :=
  mk_img (rgb_of_rgba src) h w.

(** The blocks of the four stages have the sizes that they ask of
    [malloc] on a raster of [h] rows and [w] columns. *)
Definition wf_stage_blocks (f : stage_blocks) (h w : Z) : bool :=
  has_size (fresh_grad f) (3 * h * w)
  && has_size (fresh_cost f) (h * w)
  && has_size (fresh_seam f) h
  && has_size (fresh_dest f) (3 * h * (w - 1)).

(** ** Further concrete inputs *)

(** Zeroed blocks of the sizes the four stages ask for on a 2 x 3
    raster. *)
Definition zero_stage_blocks_2x3 : stage_blocks :=
  mk_stage_blocks (repeat 0 18%nat) (repeat 0 6%nat) (repeat 0 2%nat)
    (repeat 0 12%nat).

(** Two rows of three pixels with an alpha channel, all black but the top
    middle one. *)
Definition rgba_2x3_mid : list Z :=
  [0; 0; 0; 255;  255; 255; 255; 255;  0; 0; 0; 255;
   0; 0; 0; 255;  0; 0; 0; 255;  0; 0; 0; 255].

(** A 2 x 2 raster of one colour. *)
Definition uniform_2x2 : rgb_img :=
  mk_img [7; 8; 9;  7; 8; 9;  7; 8; 9;  7; 8; 9] 2 2.

(** Zeroed blocks of the sizes [seam_carve] asks for on a 3 x 1 buffer. *)
Definition zero_blocks_3x1 : Wasm.fresh_blocks :=
  Wasm.mk_fresh (repeat 0 12%nat) (repeat 0 3%nat) (repeat 0 3%nat) [].

(** ** The comparators on [double] *)

(** What the comparators can tell of a [double]: it is not a number, an
    infinity, or a finite number, which is a rational. *)
Inductive double :=
  | NaN
  | NegInf
  | Num (q : Q)
  | PosInf.

Module Double.

(** [a > b] of C: false as soon as one side is not a number. *)
Definition gt (a b : double) : bool :=
  match a, b with
  | NaN, _ | _, NaN => false
  | NegInf, _ => false
  | _, PosInf => false
  | Num x, Num y => negb (Qle_bool x y)
  | Num _, NegInf => true
  | PosInf, _ => true
  end.

(** [a <= b] and [a == b] of C. *)
Definition le (a b : double) : bool :=
  match a, b with
  | NaN, _ | _, NaN => false
  | NegInf, _ => true
  | _, PosInf => true
  | Num x, Num y => Qle_bool x y
  | Num _, NegInf => false
  | PosInf, _ => false
  end.

Definition eq (a b : double) : bool := le a b && le b a.

Definition is_nan (a : double) : bool :=
  match a with NaN => true | _ => false end.

Definition min_2 (e1 e2 : double) : double := if gt e1 e2 then e2 else e1.

Definition min_3 (e1 e2 e3 : double) : double :=
  let sub_min := min_2 e1 e2 in
  if gt sub_min e3 then e3 else sub_min.

(** The [double] of an integer. *)
Definition of_Z (z : Z) : double := Num (inject_Z z).

End Double.

(** * Proofs *)

(** ** Memory *)

Ltac zbool :=
  repeat match goal with
  | H : (_ && _)%bool = true |- _ => apply andb_prop in H; destruct H
  | H : (_ <=? _) = true |- _ => apply Z.leb_le in H
  | H : (_ <? _) = true |- _ => apply Z.ltb_lt in H
  | H : (_ =? _) = true |- _ => apply Z.eqb_eq in H
  | H : (_ >? _) = true |- _ => rewrite Z.gtb_ltb in H; apply Z.ltb_lt in H
  | H : (_ <=? _) = false |- _ => apply Z.leb_gt in H
  | H : (_ <? _) = false |- _ => apply Z.ltb_ge in H
  | H : (_ =? _) = false |- _ => apply Z.eqb_neq in H
  | H : (_ >? _) = false |- _ => rewrite Z.gtb_ltb in H; apply Z.ltb_ge in H
  | H : has_size _ _ = true |- _ => unfold has_size in H
  end.

Lemma load_lookup buf i :
  0 ≤ i → load buf i = buf !! Z.to_nat i.
Proof.
  intros Hi. unfold load. destruct (i <? 0) eqn:E; [zbool; lia | done].
Qed.

Lemma load_is_Some buf i :
  0 ≤ i < Z.of_nat (length buf) → ∃ v, load buf i = Some v.
Proof.
  intros Hi. rewrite load_lookup by lia.
  destruct (lookup_lt_is_Some_2 buf (Z.to_nat i)) as [v Hv]; [lia | eauto].
Qed.

Lemma load_Some_lt buf i v :
  load buf i = Some v → 0 ≤ i < Z.of_nat (length buf).
Proof.
  unfold load. destruct (i <? 0) eqn:E; [done |]. zbool.
  intros H%lookup_lt_Some. lia.
Qed.

Lemma store_is_Some buf i v :
  0 ≤ i < Z.of_nat (length buf) →
  store buf i v = Some (<[Z.to_nat i := v]> buf).
Proof.
  intros Hi. unfold store.
  destruct (0 <=? i) eqn:E1; destruct (i <? Z.of_nat (length buf)) eqn:E2;
    zbool; simpl; try lia; done.
Qed.

Lemma store_Some_inv buf i v buf' :
  store buf i v = Some buf' →
  0 ≤ i < Z.of_nat (length buf) ∧ buf' = <[Z.to_nat i := v]> buf.
Proof.
  unfold store.
  destruct (0 <=? i) eqn:E1; destruct (i <? Z.of_nat (length buf)) eqn:E2;
    simpl; try done.
  zbool. intros [= <-]. split; [lia | done].
Qed.

Lemma store_length buf i v buf' :
  store buf i v = Some buf' → length buf' = length buf.
Proof.
  intros [_ ->]%store_Some_inv. apply length_insert.
Qed.

Lemma load_store_eq buf i v buf' :
  store buf i v = Some buf' → load buf' i = Some v.
Proof.
  intros [Hi ->]%store_Some_inv. rewrite load_lookup by lia.
  apply list_lookup_insert_eq. lia.
Qed.

Lemma load_store_ne buf i v buf' k :
  store buf i v = Some buf' → k ≠ i → load buf' k = load buf k.
Proof.
  intros [Hi ->]%store_Some_inv Hne. unfold load.
  destruct (k <? 0) eqn:E; [done |]. zbool.
  apply list_lookup_insert_ne. lia.
Qed.

Lemma store_bytes buf i v buf' :
  store buf i v = Some buf' →
  forallb is_byte buf = true → is_byte v = true →
  forallb is_byte buf' = true.
Proof.
  intros [Hi ->]%store_Some_inv Hb Hv.
  apply forallb_forall. intros x Hx%list_elem_of_In.
  apply list_elem_of_lookup in Hx as [n Hn].
  destruct (decide (n = Z.to_nat i)) as [-> | Hne].
  - rewrite list_lookup_insert_eq in Hn by lia. by injection Hn as <-.
  - rewrite list_lookup_insert_ne in Hn by done.
    rewrite forallb_forall in Hb. apply Hb, list_elem_of_In.
    apply list_elem_of_lookup. eauto.
Qed.

Lemma load_byte buf i v :
  forallb is_byte buf = true → load buf i = Some v → 0 ≤ v < 256.
Proof.
  intros Hb Hl. pose proof (load_Some_lt _ _ _ Hl) as Hi.
  rewrite load_lookup in Hl by lia.
  rewrite forallb_forall in Hb.
  assert (is_byte v = true) as Hv.
  { apply Hb, list_elem_of_In, list_elem_of_lookup. eauto. }
  unfold is_byte in Hv. zbool. lia.
Qed.

Lemma u8_is_byte v : is_byte (u8 v) = true.
Proof.
  unfold is_byte, u8. pose proof (Z.mod_pos_bound v 256 ltac:(lia)).
  apply andb_true_intro; split; [apply Z.leb_le | apply Z.ltb_lt]; lia.
Qed.

Lemma u8_small v : 0 ≤ v < 256 → u8 v = v.
Proof. intros Hv. unfold u8. by apply Z.mod_small. Qed.

(** ** Loops: the invariant rules, with termination *)

Lemma iter_up_inv {St : Type} (P : Z → St → Prop) body n i (s : St) :
  P i s →
  (∀ k t, i ≤ k < i + Z.of_nat n → P k t →
     ∃ t', body k t = Some t' ∧ P (k + 1) t') →
  ∃ t, iter_up n i body s = Some t ∧ P (i + Z.of_nat n) t.
Proof.
  revert i s. induction n as [| n IH]; intros i s Hs Hstep; simpl.
  - exists s. split; [done |]. by replace (i + Z.of_nat 0) with i by lia.
  - destruct (Hstep i s) as (s1 & -> & Hs1); [lia | done |]. simpl.
    destruct (IH (i + 1) s1 Hs1) as (t & Ht & HP).
    + intros k t Hk. apply Hstep. lia.
    + exists t. split; [done |].
      by replace (i + Z.of_nat (S n)) with (i + 1 + Z.of_nat n) by lia.
Qed.

Lemma for_up_inv {St : Type} (P : Z → St → Prop) body lo hi (s : St) :
  lo ≤ hi →
  P lo s →
  (∀ k t, lo ≤ k < hi → P k t → ∃ t', body k t = Some t' ∧ P (k + 1) t') →
  ∃ t, for_up lo hi body s = Some t ∧ P hi t.
Proof.
  intros Hle Hs Hstep. unfold for_up.
  destruct (iter_up_inv P body (Z.to_nat (hi - lo)) lo s Hs)
    as (t & Ht & HP).
  - intros k t Hk. apply Hstep. lia.
  - exists t. split; [done |].
    by replace (lo + Z.of_nat (Z.to_nat (hi - lo))) with hi in HP by lia.
Qed.

Lemma iter_down_inv {St : Type} (P : Z → St → Prop) body n i (s : St) :
  P i s →
  (∀ k t, i - Z.of_nat n < k ≤ i → P k t →
     ∃ t', body k t = Some t' ∧ P (k - 1) t') →
  ∃ t, iter_down n i body s = Some t ∧ P (i - Z.of_nat n) t.
Proof.
  revert i s. induction n as [| n IH]; intros i s Hs Hstep; simpl.
  - exists s. split; [done |]. by replace (i - Z.of_nat 0) with i by lia.
  - destruct (Hstep i s) as (s1 & -> & Hs1); [lia | done |]. simpl.
    destruct (IH (i - 1) s1 Hs1) as (t & Ht & HP).
    + intros k t Hk. apply Hstep. lia.
    + exists t. split; [done |].
      by replace (i - Z.of_nat (S n)) with (i - 1 - Z.of_nat n) by lia.
Qed.

Lemma for_down_inv {St : Type} (P : Z → St → Prop) body hi lo (s : St) :
  lo - 1 ≤ hi →
  P hi s →
  (∀ k t, lo ≤ k ≤ hi → P k t → ∃ t', body k t = Some t' ∧ P (k - 1) t') →
  ∃ t, for_down hi lo body s = Some t ∧ P (lo - 1) t.
Proof.
  intros Hle Hs Hstep. unfold for_down.
  destruct (iter_down_inv P body (Z.to_nat (hi - lo + 1)) hi s Hs)
    as (t & Ht & HP).
  - intros k t Hk. apply Hstep. lia.
  - exists t. split; [done |].
    by replace (hi - Z.of_nat (Z.to_nat (hi - lo + 1))) with (lo - 1) in HP
      by lia.
Qed.

(** ** Row-major indexing *)

Lemma cell_inj w y x y' x' :
  0 ≤ x < w → 0 ≤ x' < w → y * w + x = y' * w + x' → y = y' ∧ x = x'.
Proof.
  intros Hx Hx' He.
  assert (y = y') as -> by nia.
  split; [done | lia].
Qed.

Lemma cell_bound h w y x :
  0 ≤ y < h → 0 ≤ x < w → 0 ≤ y * w + x < h * w.
Proof. intros Hy Hx. nia. Qed.

Lemma cell_ne w y x y' x' :
  0 ≤ x < w → 0 ≤ x' < w → (y, x) ≠ (y', x') → y * w + x ≠ y' * w + x'.
Proof.
  intros Hx Hx' Hne He. destruct (cell_inj w y x y' x') as [-> ->]; done.
Qed.

(** ** Pixels of a 3-channel raster *)

Section rgb_pixels.
Import Seamcarving.

Lemma get_pixel_is_Some im h y x c :
  Z.of_nat (length (raster im)) = 3 * h * width im →
  0 ≤ y < h → 0 ≤ x < width im → 0 ≤ c < 3 →
  ∃ v, get_pixel im y x c = Some v.
Proof.
  intros Hlen Hy Hx Hc. apply load_is_Some.
  pose proof (cell_bound h (width im) y x Hy Hx). nia.
Qed.

Lemma get_pixel_byte im y x c v :
  forallb is_byte (raster im) = true →
  get_pixel im y x c = Some v → 0 ≤ v < 256.
Proof. intros Hb. apply load_byte. done. Qed.

Lemma set_pixel_spec im h y x r g b :
  Z.of_nat (length (raster im)) = 3 * h * width im →
  0 ≤ y < h → 0 ≤ x < width im →
  ∃ im', set_pixel im y x r g b = Some im'
    ∧ height im' = height im ∧ width im' = width im
    ∧ length (raster im') = length (raster im)
    ∧ get_pixel im' y x 0 = Some (u8 r)
    ∧ get_pixel im' y x 1 = Some (u8 g)
    ∧ get_pixel im' y x 2 = Some (u8 b)
    ∧ (∀ k, k < 3 * (y * width im + x) ∨ 3 * (y * width im + x) + 3 ≤ k →
         load (raster im') k = load (raster im) k)
    ∧ (forallb is_byte (raster im) = true →
       forallb is_byte (raster im') = true).
Proof.
  intros Hlen Hy Hx.
  pose proof (cell_bound h (width im) y x Hy Hx) as Hcell.
  unfold set_pixel, get_pixel.
  set (p := y * width im + x) in *.
  destruct (store (raster im) (3 * p + 0) (u8 r)) as [r0 |] eqn:E0.
  2: { rewrite store_is_Some in E0 by lia. done. }
  pose proof (store_length _ _ _ _ E0) as L0. simpl.
  destruct (store r0 (3 * p + 1) (u8 g)) as [r1 |] eqn:E1.
  2: { rewrite store_is_Some in E1 by lia. done. }
  pose proof (store_length _ _ _ _ E1) as L1. simpl.
  destruct (store r1 (3 * p + 2) (u8 b)) as [r2 |] eqn:E2.
  2: { rewrite store_is_Some in E2 by lia. done. }
  pose proof (store_length _ _ _ _ E2) as L2. simpl.
  eexists. split; [done |]. simpl.
  repeat split; try done.
  - congruence.
  - rewrite (load_store_ne _ _ _ _ _ E2) by lia.
    rewrite (load_store_ne _ _ _ _ _ E1) by lia.
    by apply (load_store_eq _ _ _ _ E0).
  - rewrite (load_store_ne _ _ _ _ _ E2) by lia.
    by apply (load_store_eq _ _ _ _ E1).
  - by apply (load_store_eq _ _ _ _ E2).
  - intros k Hk.
    rewrite (load_store_ne _ _ _ _ _ E2) by lia.
    rewrite (load_store_ne _ _ _ _ _ E1) by lia.
    by rewrite (load_store_ne _ _ _ _ _ E0) by lia.
  - intros Hb.
    eapply store_bytes; [exact E2 | | apply u8_is_byte].
    eapply store_bytes; [exact E1 | | apply u8_is_byte].
    eapply store_bytes; [exact E0 | done | apply u8_is_byte].
Qed.

(** A pixel other than the one written keeps its channels. *)
Lemma get_pixel_frame im im' y x y' x' c :
  (∀ k, k < 3 * (y * width im + x) ∨ 3 * (y * width im + x) + 3 ≤ k →
     load (raster im') k = load (raster im) k) →
  width im' = width im →
  0 ≤ x < width im → 0 ≤ x' < width im → 0 ≤ c < 3 →
  (y', x') ≠ (y, x) →
  get_pixel im' y' x' c = get_pixel im y' x' c.
Proof.
  intros Hfr Hw Hx Hx' Hc Hne. unfold get_pixel. rewrite Hw.
  apply Hfr.
  pose proof (cell_ne (width im) y' x' y x Hx' Hx Hne). lia.
Qed.

End rgb_pixels.

(** ** The seam remover of [seamcarving.c] *)

Section remove_seam_proofs.
Import Seamcarving.

Lemma wf_rgb_inv im :
  wf_rgb im = true →
  1 ≤ height im ∧ 1 ≤ width im
  ∧ Z.of_nat (length (raster im)) = 3 * height im * width im
  ∧ forallb is_byte (raster im) = true.
Proof. unfold wf_rgb. intros H. zbool. auto. Qed.

Lemma remove_seam_correct src fresh path :
  wf_rgb src = true → 2 ≤ width src →
  Z.of_nat (length fresh) = 3 * height src * (width src - 1) →
  (∀ j, 0 ≤ j < height src →
     ∃ pj, load path j = Some pj ∧ 0 ≤ pj < width src) →
  ∃ dest, remove_seam src fresh path = Some dest
    ∧ removed_upto src path (height src) 0 dest.
Proof.
  intros (Hh & Hw & Hlen & Hb)%wf_rgb_inv Hw2 Hfresh Hpath.
  unfold remove_seam.
  apply (for_up_inv (λ j, removed_upto src path j 0)); [lia | |].
  { unfold removed_upto, create_img; simpl. repeat split; try done.
    intros j' i' c pj Hj' Hi' Hc Hl [? | [_ Hs]]; [lia |].
    unfold seam_shift in Hs. destruct (i' <? pj); lia. }
  intros j dest Hj Hinv.
  destruct (Hpath j Hj) as (pj & Hpj & Hpjr).
  destruct (for_up_inv (λ i, removed_upto src path j i)
    (λ i dest,
      pj ← load path j;
      if negb (i =? pj) then
        R ← get_pixel src j i 0;
        G ← get_pixel src j i 1;
        B ← get_pixel src j i 2;
        pj' ← load path j;
        if i <? pj' then set_pixel dest j i R G B
        else set_pixel dest j (i - 1) R G B
      else Some dest) 0 (width src) dest) as (dest' & Hrun & Hinv');
    [lia | done | |].
  2: { exists dest'. split; [done |].
       destruct Hinv' as (? & ? & ? & Hpix). repeat split; try done.
       intros j' i' c pj' Hj' Hi' Hc Hl Hcase. apply Hpix; try done.
       destruct Hcase as [Hlt | [_ Hs]].
       - destruct (decide (j' < j)); [by left | right].
         split; [lia |]. unfold seam_shift. destruct (i' <? pj'); lia.
       - unfold seam_shift in Hs. destruct (i' <? pj'); lia. }
  clear dest Hinv. intros i dest Hi (Hdh & Hdw & Hdl & Hpix).
  rewrite Hpj. simpl.
  destruct (i =? pj) eqn:Eip; zbool; simpl.
  { exists dest. split; [done |]. repeat split; try done.
    intros j' i' c pj' Hj' Hi' Hc Hl Hcase. apply Hpix; try done.
    destruct Hcase as [? | [-> Hs]]; [by left | right]. split; [done |].
    assert (pj' = pj) as -> by congruence.
    unfold seam_shift in *. destruct (i' <? pj) eqn:E; zbool; lia. }
  destruct (get_pixel_is_Some src (height src) j i 0) as [R HR]; try lia.
  destruct (get_pixel_is_Some src (height src) j i 1) as [G HG]; try lia.
  destruct (get_pixel_is_Some src (height src) j i 2) as [B HB]; try lia.
  rewrite HR, HG, HB. simpl.
  pose proof (get_pixel_byte _ _ _ _ _ Hb HR) as HRb.
  pose proof (get_pixel_byte _ _ _ _ _ Hb HG) as HGb.
  pose proof (get_pixel_byte _ _ _ _ _ Hb HB) as HBb.
  set (o := if i <? pj then i else i - 1).
  assert (0 ≤ o < width dest ∧ seam_shift pj o = i) as (Ho & Hso).
  { unfold o, seam_shift. destruct (i <? pj) eqn:E; zbool.
    - rewrite (proj2 (Z.ltb_lt _ _)) by lia. lia.
    - rewrite (proj2 (Z.ltb_ge _ _)) by lia. lia. }
  destruct (set_pixel_spec dest (height src) j o R G B)
    as (dest' & Hset & Hh' & Hw' & Hl' & H0 & H1 & H2 & Hfr & _);
    [rewrite Hdw; lia | lia | done |].
  exists dest'. split.
  { unfold o in Hset. destruct (i <? pj); done. }
  repeat split; try congruence; try lia.
  intros j' i' c pj' Hj' Hi' Hc Hl Hcase.
  destruct (decide ((j', i') = (j, o))) as [[= -> ->] | Hne].
  - assert (pj' = pj) as -> by congruence. rewrite Hso.
    rewrite u8_small in H0, H1, H2 by done.
    assert (c = 0 ∨ c = 1 ∨ c = 2) as [-> | [-> | ->]] by lia; congruence.
  - rewrite (get_pixel_frame dest dest' j o j' i' c); try done; try lia.
    apply Hpix; try done.
    destruct Hcase as [? | [-> Hs]]; [by left | right]. split; [done |].
    assert (pj' = pj) as -> by congruence.
    assert (i' ≠ o) by congruence.
    unfold seam_shift, o in *.
    destruct (i' <? pj) eqn:E1; destruct (i <? pj) eqn:E2; zbool; lia.
Qed.

Lemma forallb_load (f : Z → bool) (l : list Z) k v :
  forallb f l = true → load l k = Some v → f v = true.
Proof.
  intros Hf Hl. pose proof (load_Some_lt _ _ _ Hl).
  rewrite load_lookup in Hl by lia.
  rewrite forallb_forall in Hf.
  apply Hf, list_elem_of_In, list_elem_of_lookup. eauto.
Qed.

Lemma valid_seam_inv path h w j :
  valid_seam path h w = true → 0 ≤ j < h →
  ∃ pj, load path j = Some pj ∧ 0 ≤ pj < w.
Proof.
  unfold valid_seam. intros Hv Hj. zbool.
  destruct (load_is_Some path j) as [pj Hpj]; [lia |].
  exists pj. split; [done |].
  pose proof (forallb_load _ _ _ _ H0 Hpj) as Hr.
  unfold in_range in Hr. zbool. lia.
Qed.

Lemma load_take (l : list Z) n k :
  0 ≤ k < Z.of_nat n → load (take n l) k = load l k.
Proof.
  intros Hk. rewrite !load_lookup by lia. apply lookup_take_lt. lia.
Qed.

(** C3.  For a raster of at least two columns and a seam with one column
    per row, each inside the raster, [remove_seam] returns a raster of the
    same height, one column less and three channels per pixel, and output
    pixel [(j, i)] is the input pixel [(j, i)] when [i < path[j]] and the
    input pixel [(j, i + 1)] when [i >= path[j]]. *)
Theorem remove_seam_shifts_left src fresh path :
  wf_rgb src = true → 2 ≤ width src →
  valid_seam path (height src) (width src) = true →
  has_size fresh (3 * height src * (width src - 1)) = true →
  ∃ dest, remove_seam src fresh path = Some dest
    ∧ height dest = height src
    ∧ width dest = width src - 1
    ∧ Z.of_nat (length (raster dest)) = 3 * height dest * width dest
    ∧ ∀ j i c, 0 ≤ j < height src → 0 ≤ i < width src - 1 → 0 ≤ c < 3 →
        ∃ pj v, load path j = Some pj
          ∧ get_pixel src j (if i <? pj then i else i + 1) c = Some v
          ∧ get_pixel dest j i c = Some v.
Proof.
  intros Hwf Hw2 Hseam Hfresh. zbool.
  destruct (remove_seam_correct src fresh path) as (dest & Hrun & Hpost);
    try done.
  { intros j Hj. by apply (valid_seam_inv path (height src)). }
  destruct Hpost as (Hh & Hw & Hl & Hpix).
  apply wf_rgb_inv in Hwf as (? & ? & Hlen & _).
  exists dest. repeat split; try done.
  { rewrite Hh, Hw. done. }
  intros j i c Hj Hi Hc.
  destruct (valid_seam_inv path _ _ j Hseam Hj) as (pj & Hpj & Hr).
  destruct (get_pixel_is_Some src (height src) j (seam_shift pj i) c)
    as [v Hv]; try done.
  { unfold seam_shift. destruct (i <? pj); lia. }
  exists pj, v. split; [done |]. split; [done |].
  rewrite (Hpix j i c pj) by (try done; left; lia). done.
Qed.

(** C4, as amended.  [remove_seam] validates nothing and has no failure of
    its own: it reads [path[0 .. height - 1]] and never the length of the
    path.  For every path of at least [height] entries whose first
    [height] entries are inside the raster, whatever follows them, it
    returns the reduced raster. *)
Theorem remove_seam_ignores_path_length src fresh path :
  wf_rgb src = true → 2 ≤ width src →
  valid_seam (take (Z.to_nat (height src)) path) (height src) (width src)
    = true →
  has_size fresh (3 * height src * (width src - 1)) = true →
  ∃ dest, remove_seam src fresh path = Some dest
    ∧ height dest = height src
    ∧ width dest = width src - 1
    ∧ ∀ j i c, 0 ≤ j < height src → 0 ≤ i < width src - 1 → 0 ≤ c < 3 →
        ∃ pj v, load path j = Some pj
          ∧ get_pixel src j (if i <? pj then i else i + 1) c = Some v
          ∧ get_pixel dest j i c = Some v.
Proof.
  intros Hwf Hw2 Hseam Hfresh. zbool.
  assert (∀ j, 0 ≤ j < height src →
            ∃ pj, load path j = Some pj ∧ 0 ≤ pj < width src) as Hpath.
  { intros j Hj.
    destruct (valid_seam_inv _ _ _ j Hseam Hj) as (pj & Hpj & Hr).
    rewrite load_take in Hpj by lia. eauto. }
  destruct (remove_seam_correct src fresh path) as (dest & Hrun & Hpost);
    try done.
  destruct Hpost as (Hh & Hw & Hl & Hpix).
  apply wf_rgb_inv in Hwf as (? & ? & Hlen & _).
  exists dest. repeat split; try done.
  intros j i c Hj Hi Hc.
  destruct (Hpath j Hj) as (pj & Hpj & Hr).
  destruct (get_pixel_is_Some src (height src) j (seam_shift pj i) c)
    as [v Hv]; try done.
  { unfold seam_shift. destruct (i <? pj); lia. }
  exists pj, v. split; [done |]. split; [done |].
  rewrite (Hpix j i c pj) by (try done; left; lia). done.
Qed.

End remove_seam_proofs.

(** ** The energy stage *)

Lemma sq_diff_bound a b :
  0 ≤ a < 256 → 0 ≤ b < 256 → 0 ≤ (a - b) * (a - b) ≤ 65025.
Proof.
  intros Ha Hb. assert (-255 ≤ a - b ≤ 255) as Hd by lia.
  revert Hd. generalize (a - b). intros d Hd. nia.
Qed.

Lemma energy_bound gx gy :
  0 ≤ gx ≤ 195075 → 0 ≤ gy ≤ 195075 →
  0 ≤ Z.sqrt (gx + gy) ≤ 624 ∧ 0 ≤ Z.sqrt (gx + gy) ÷ 10 ≤ 62.
Proof.
  intros Hx Hy.
  assert (0 ≤ Z.sqrt (gx + gy) ≤ 624) as Hs.
  { split; [apply Z.sqrt_nonneg |].
    change 624 with (Z.sqrt 390150). apply Z.sqrt_le_mono. lia. }
  split; [done |].
  rewrite Z.quot_div_nonneg by lia.
  split; [apply Z.div_pos; lia |].
  assert (Z.sqrt (gx + gy) / 10 < 63) by (apply Z.div_lt_upper_bound; lia).
  lia.
Qed.

Section energy_rgb.
Import Seamcarving.

Lemma grad_sq_at_is_Some im j i :
  wf_rgb im = true → 0 ≤ j < height im → 0 ≤ i < width im →
  ∃ gx gy, grad_sq_at im j i = Some (gx, gy)
    ∧ 0 ≤ gx ≤ 195075 ∧ 0 ≤ gy ≤ 195075.
Proof.
  intros (Hh & Hw & Hlen & Hb)%wf_rgb_inv Hj Hi. unfold grad_sq_at.
  set (k_left := if i =? 0 then width im - 1 else i - 1).
  set (k_right := if i =? width im - 1 then 0 else i + 1).
  set (k_up := if j =? 0 then height im - 1 else j - 1).
  set (k_down := if j =? height im - 1 then 0 else j + 1).
  assert (0 ≤ k_left < width im)
    by (unfold k_left; destruct (i =? 0) eqn:E; zbool; lia).
  assert (0 ≤ k_right < width im)
    by (unfold k_right; destruct (i =? width im - 1) eqn:E; zbool; lia).
  assert (0 ≤ k_up < height im)
    by (unfold k_up; destruct (j =? 0) eqn:E; zbool; lia).
  assert (0 ≤ k_down < height im)
    by (unfold k_down; destruct (j =? height im - 1) eqn:E; zbool; lia).
  clearbody k_left k_right k_up k_down.
  repeat match goal with
  | |- context [get_pixel im ?y ?x ?c] =>
      let v := fresh "v" in let Hv := fresh "Hv" in
      destruct (get_pixel_is_Some im (height im) y x c) as [v Hv];
        [done | lia | lia | lia |];
      rewrite Hv; simpl;
      apply (get_pixel_byte _ _ _ _ _ Hb) in Hv
  end.
  eexists _, _. split; [done |].
  repeat match goal with
  | H1 : 0 ≤ ?a < 256, H2 : 0 ≤ ?b < 256 |- context [(?a - ?b) * (?a - ?b)] =>
      pose proof (sq_diff_bound a b H1 H2);
      generalize dependent ((a - b) * (a - b)); intros
  end.
  lia.
Qed.

Lemma calc_energy_correct im fresh :
  wf_rgb im = true →
  Z.of_nat (length fresh) = 3 * height im * width im →
  ∃ grad, calc_energy im fresh = Some grad
    ∧ energy_upto im (height im) 0 grad.
Proof.
  intros Hwf Hfresh.
  pose proof (wf_rgb_inv _ Hwf) as (Hh & Hw & Hlen & Hb).
  unfold calc_energy.
  apply (for_up_inv (λ j, energy_upto im j 0)); [lia | |].
  { unfold energy_upto, create_img; simpl. repeat split; try done.
    intros; lia. }
  intros j grad Hj Hinv.
  destruct (for_up_inv (λ i, energy_upto im j i)
    (λ i grad,
      g ← grad_sq_at im j i;
      let energy := energy_of g in
      let energy_norm := energy_norm_of energy in
      set_pixel grad j i energy_norm energy_norm energy_norm)
    0 (width im) grad) as (grad' & Hrun & Hinv'); [lia | done | |].
  2: { exists grad'. split; [done |].
       destruct Hinv' as (? & ? & ? & Hpix). repeat split; try done.
       intros j' i' c g Hj' Hi' Hc Hg Hcase. apply Hpix; try done. lia. }
  clear grad Hinv. intros i grad Hi (Hgh & Hgw & Hgl & Hpix).
  destruct (grad_sq_at_is_Some im j i Hwf Hj Hi) as (gx & gy & Hg & Hgx & Hgy).
  rewrite Hg. simpl.
  destruct (energy_bound gx gy Hgx Hgy) as (He & Hn).
  set (e := energy_norm_of (energy_of (gx, gy))).
  destruct (set_pixel_spec grad (height im) j i e e e)
    as (grad' & Hset & Hh' & Hw' & Hl' & H0 & H1 & H2 & Hfr & _);
    [rewrite Hgw; lia | lia | lia |].
  exists grad'. split; [done |].
  repeat split; try congruence; try lia.
  intros j' i' c g Hj' Hi' Hc Hg' Hcase.
  destruct (decide ((j', i') = (j, i))) as [[= -> ->] | Hne].
  - assert (g = (gx, gy)) as -> by congruence.
    assert (u8 e = e) as Hu.
    { apply u8_small. unfold e, energy_norm_of, energy_of, u8. simpl.
      apply Z.mod_pos_bound. lia. }
    rewrite Hu in H0, H1, H2.
    assert (c = 0 ∨ c = 1 ∨ c = 2) as [-> | [-> | ->]] by lia; done.
  - rewrite (get_pixel_frame grad grad' j i j' i' c); try done; try lia.
    apply Hpix; try done.
    destruct Hcase as [? | [-> Hs]]; [by left | right]. split; [done |].
    assert (i' ≠ i) by congruence. lia.
Qed.

(** The wrap-around of the neighbours is a reduction modulo the
    dimension. *)
Lemma wrap_pred i w :
  0 ≤ i < w → (if i =? 0 then w - 1 else i - 1) = (i - 1) mod w.
Proof.
  intros Hi. destruct (i =? 0) eqn:E; zbool.
  - subst i. replace (0 - 1) with (w - 1 + (-1) * w) by lia.
    rewrite Z.mod_add by lia. rewrite Z.mod_small; lia.
  - rewrite Z.mod_small; lia.
Qed.

Lemma wrap_succ i w :
  0 ≤ i < w → (if i =? w - 1 then 0 else i + 1) = (i + 1) mod w.
Proof.
  intros Hi. destruct (i =? w - 1) eqn:E; zbool.
  - replace (i + 1) with w by lia. rewrite Z.mod_same; lia.
  - rewrite Z.mod_small; lia.
Qed.

Lemma get_pixel_or_0 im h y x c :
  Z.of_nat (length (raster im)) = 3 * h * width im →
  0 ≤ y < h → 0 ≤ x < width im → 0 ≤ c < 3 →
  get_pixel im y x c = Some (pixel_or_0 im y x c).
Proof.
  intros Hl Hy Hx Hc. unfold pixel_or_0.
  destruct (get_pixel_is_Some im h y x c) as [v ->]; done.
Qed.

Lemma grad_sq_at_mod im j i :
  wf_rgb im = true → 0 ≤ j < height im → 0 ≤ i < width im →
  grad_sq_at im j i
  = Some (sq_sum (λ c, pixel_or_0 im j ((i + 1) mod width im) c
                       - pixel_or_0 im j ((i - 1) mod width im) c),
          sq_sum (λ c, pixel_or_0 im ((j - 1) mod height im) i c
                       - pixel_or_0 im ((j + 1) mod height im) i c)).
Proof.
  intros (Hh & Hw & Hlen & Hb)%wf_rgb_inv Hj Hi. unfold grad_sq_at.
  rewrite (wrap_pred i (width im)), (wrap_succ i (width im)) by done.
  rewrite (wrap_pred j (height im)), (wrap_succ j (height im)) by done.
  pose proof (Z.mod_pos_bound (i + 1) (width im) ltac:(lia)).
  pose proof (Z.mod_pos_bound (i - 1) (width im) ltac:(lia)).
  pose proof (Z.mod_pos_bound (j + 1) (height im) ltac:(lia)).
  pose proof (Z.mod_pos_bound (j - 1) (height im) ltac:(lia)).
  rewrite !(get_pixel_or_0 im (height im)) by (try done; lia).
  simpl. unfold sq_sum. f_equal. f_equal; lia.
Qed.

(** C9.  Whatever the bytes of the raster, the energy of a pixel before
    narrowing is at most 624 and the normalised value at most 62, so the
    cast to [uint8_t] leaves it unchanged. *)
Theorem energy_cast_never_wraps im j i :
  wf_rgb im = true → 0 ≤ j < height im → 0 ≤ i < width im →
  ∃ g, grad_sq_at im j i = Some g
    ∧ 0 ≤ energy_of g ≤ 624
    ∧ 0 ≤ energy_of g ÷ 10 ≤ 62
    ∧ energy_norm_of (energy_of g) = energy_of g ÷ 10.
Proof.
  intros Hwf Hj Hi.
  destruct (grad_sq_at_is_Some im j i Hwf Hj Hi) as (gx & gy & Hg & Hgx & Hgy).
  destruct (energy_bound gx gy Hgx Hgy) as (He & Hn).
  exists (gx, gy). unfold energy_of, energy_norm_of. simpl.
  repeat split; try done; try lia.
  apply u8_small. lia.
Qed.

(** C7.  For every pixel [(j, i)] of every raster, [calc_energy] stores in
    each of the three channels of the cell the value
    [floor (floor (sqrt (gradX2 + gradY2)) / 10)] reduced modulo 256, where
    [gradX2] is the sum over the colour channels of the squared difference
    of the right and the left neighbour and [gradY2] that of the upper and
    the lower neighbour, neighbours taken with wrap-around. *)
Theorem calc_energy_stores_truncated_energy im fresh :
  wf_rgb im = true →
  has_size fresh (3 * height im * width im) = true →
  ∃ grad, calc_energy im fresh = Some grad
    ∧ height grad = height im ∧ width grad = width im
    ∧ ∀ j i c, 0 ≤ j < height im → 0 ≤ i < width im → 0 ≤ c < 3 →
        get_pixel grad j i c
        = Some ((Z.sqrt (gradX2 im j i + gradY2 im j i) / 10) mod 256).
Proof.
  intros Hwf Hfresh. zbool.
  destruct (calc_energy_correct im fresh Hwf Hfresh)
    as (grad & Hrun & Hh & Hw & Hl & Hpix).
  exists grad. repeat split; try done.
  intros j i c Hj Hi Hc.
  destruct (grad_sq_at_is_Some im j i Hwf Hj Hi) as (gx & gy & Hg & Hgx & Hgy).
  rewrite (Hpix j i c (gx, gy)) by (try done; left; lia).
  rewrite (grad_sq_at_mod im j i Hwf Hj Hi) in Hg.
  injection Hg as <- <-.
  unfold energy_norm_of, energy_of, u8, gradX2, gradY2. simpl.
  rewrite Z.quot_div_nonneg; [done | apply Z.sqrt_nonneg | lia].
Qed.

End energy_rgb.

(** ** The cumulative-cost table *)

Lemma iter_up_ext {St : Type} (f g : Z → St → option St) n i s :
  (∀ k t, f k t = g k t) → iter_up n i f s = iter_up n i g s.
Proof.
  intros Hfg. revert i s. induction n as [| n IH]; intros i s; simpl.
  - done.
  - rewrite Hfg. destruct (g i s); simpl; [apply IH | done].
Qed.

Lemma for_up_ext {St : Type} (f g : Z → St → option St) lo hi s :
  (∀ k t, f k t = g k t) → for_up lo hi f s = for_up lo hi g s.
Proof. intros Hfg. by apply iter_up_ext. Qed.

Lemma min_2_spec a b : min_2 a b = Z.min a b.
Proof. unfold min_2. destruct (a >? b) eqn:E; zbool; lia. Qed.

Lemma min_3_spec a b c : min_3 a b c = Z.min (Z.min a b) c.
Proof.
  unfold min_3. rewrite min_2_spec.
  destruct (Z.min a b >? c) eqn:E; zbool; lia.
Qed.

Lemma cost_at_load best w j i v :
  load best (j * w + i) = Some v → cost_at best w j i = v.
Proof. unfold cost_at. by intros ->. Qed.

Lemma dp_fill_total energy h w fresh :
  1 ≤ h → 1 ≤ w →
  (∀ j i, 0 ≤ j < h → 0 ≤ i < w → is_Some (energy j i)) →
  Z.of_nat (length fresh) = h * w →
  ∃ best, dp_fill energy h w fresh = Some best
    ∧ Z.of_nat (length best) = h * w.
Proof.
  intros Hh Hw He Hlen. unfold dp_fill.
  destruct (for_up_inv (λ _ b, Z.of_nat (length b) = h * w)
    (λ i b, p ← energy 0 i; store b i p) 0 w fresh)
    as (b0 & -> & Hb0); [lia | done | |].
  { intros i b Hi Hb. destruct (He 0 i) as [p ->]; [lia | lia |]. simpl.
    rewrite store_is_Some by nia. eexists. split; [done |].
    by rewrite length_insert. }
  simpl.
  apply (for_up_inv (λ _ b, Z.of_nat (length b) = h * w)); [lia | done |].
  intros j b Hj Hb.
  apply (for_up_inv (λ _ b, Z.of_nat (length b) = h * w)); [lia | done |].
  clear b Hb. intros i b Hi Hb.
  destruct (He j i) as [cur ->]; [lia | lia |]. simpl.
  assert (∀ k, 0 ≤ k ≤ j * w → is_Some (load b k)) as Hld.
  { intros k Hk. destruct (load_is_Some b k) as [v ->]; [nia | done]. }
  assert (∃ m, (if i =? 0 then
               e1 ← load b ((j - 1) * w + (i + 1));
               e2 ← load b ((j - 1) * w + i);
               Some (min_2 e1 e2)
             else if i =? w - 1 then
               e1 ← load b ((j - 1) * w + i);
               e2 ← load b ((j - 1) * w + (i - 1));
               Some (min_2 e1 e2)
             else
               e1 ← load b ((j - 1) * w + (i - 1));
               e2 ← load b ((j - 1) * w + i);
               e3 ← load b ((j - 1) * w + (i + 1));
               Some (min_3 e1 e2 e3)) = Some m) as [m ->].
  { destruct (i =? 0) eqn:E0; [| destruct (i =? w - 1) eqn:E1]; zbool.
    - destruct (Hld ((j - 1) * w + (i + 1))) as [e1 ->]; [nia |].
      destruct (Hld ((j - 1) * w + i)) as [e2 ->]; [nia |]. simpl. eauto.
    - destruct (Hld ((j - 1) * w + i)) as [e1 ->]; [nia |].
      destruct (Hld ((j - 1) * w + (i - 1))) as [e2 ->]; [nia |].
      simpl. eauto.
    - destruct (Hld ((j - 1) * w + (i - 1))) as [e1 ->]; [nia |].
      destruct (Hld ((j - 1) * w + i)) as [e2 ->]; [nia |].
      destruct (Hld ((j - 1) * w + (i + 1))) as [e3 ->]; [nia |].
      simpl. eauto. }
  simpl. rewrite store_is_Some by nia. eexists. split; [done |].
  by rewrite length_insert.
Qed.

Lemma cost_at_frame best k v best' w j i :
  store best k v = Some best' → j * w + i ≠ k →
  cost_at best' w j i = cost_at best w j i.
Proof.
  intros Hst Hne. unfold cost_at. by rewrite (load_store_ne _ _ _ _ _ Hst).
Qed.

Lemma min_over_adjacent_ext b b' w j i m :
  (∀ i', adjacent w i i' → cost_at b' w j i' = cost_at b w j i') →
  min_over_adjacent b w j i m → min_over_adjacent b' w j i m.
Proof.
  intros Hext [(i0 & Hadj & Hi0) Hmin]. split.
  - exists i0. split; [done |]. by rewrite Hext.
  - intros i' Hi'. rewrite Hext by done. by apply Hmin.
Qed.

Lemma dp_cell_frame energy best k v best' w j i :
  store best k v = Some best' → j * w + i < k → 0 ≤ i < w →
  dp_cell energy best w j i → dp_cell energy best' w j i.
Proof.
  intros Hst Hlt Hi (e & m & He & Hl & Hm).
  exists e, m. split; [done |]. split.
  - rewrite (load_store_ne _ _ _ _ _ Hst) by lia. done.
  - apply (min_over_adjacent_ext best); [| done].
    intros i' [_ Hi']. apply (cost_at_frame _ _ _ _ _ _ _ Hst). nia.
Qed.

Lemma dp_fill_correct energy h w fresh :
  1 ≤ h → 2 ≤ w →
  (∀ j i, 0 ≤ j < h → 0 ≤ i < w → is_Some (energy j i)) →
  Z.of_nat (length fresh) = h * w →
  ∃ best, dp_fill energy h w fresh = Some best
    ∧ dp_upto energy h w h 0 best.
Proof.
  intros Hh Hw He Hlen. unfold dp_fill.
  destruct (for_up_inv
    (λ i b, Z.of_nat (length b) = h * w
            ∧ ∀ i', 0 ≤ i' < i → load b i' = energy 0 i')
    (λ i b, p ← energy 0 i; store b i p) 0 w fresh)
    as (b0 & -> & Hb0 & Hrow0); [lia | | |].
  { split; [done | intros; lia]. }
  { intros i b Hi [Hb Hr]. destruct (He 0 i) as [p Hp]; [lia | lia |].
    rewrite Hp. simpl.
    destruct (store b i p) as [b' |] eqn:Hst.
    2: { rewrite store_is_Some in Hst by nia. done. }
    exists b'. split; [done |]. split.
    - rewrite (store_length _ _ _ _ Hst). done.
    - intros i' Hi'. destruct (decide (i' = i)) as [-> | Hne].
      + rewrite Hp. by apply (load_store_eq _ _ _ _ Hst).
      + rewrite (load_store_ne _ _ _ _ _ Hst) by done. apply Hr. lia. }
  simpl.
  apply (for_up_inv (λ j, dp_upto energy h w j 0)); [lia | |].
  { split; [done |]. split; [done |]. intros; lia. }
  intros j b Hj Hinv.
  destruct (for_up_inv (λ i, dp_upto energy h w j i)
    (λ i best_arr,
      cur ← energy j i;
      min ← (if i =? 0 then
               e1 ← load best_arr ((j - 1) * w + (i + 1));
               e2 ← load best_arr ((j - 1) * w + i);
               Some (min_2 e1 e2)
             else if i =? w - 1 then
               e1 ← load best_arr ((j - 1) * w + i);
               e2 ← load best_arr ((j - 1) * w + (i - 1));
               Some (min_2 e1 e2)
             else
               e1 ← load best_arr ((j - 1) * w + (i - 1));
               e2 ← load best_arr ((j - 1) * w + i);
               e3 ← load best_arr ((j - 1) * w + (i + 1));
               Some (min_3 e1 e2 e3));
      store best_arr (j * w + i) (cur + min)) 0 w b)
    as (b' & Hrun & Hinv'); [lia | done | |].
  2: { exists b'. split; [done |].
       destruct Hinv' as (? & ? & Hcells). repeat split; try done.
       intros j' i' Hj' Hi' Hcase. apply Hcells; try done. lia. }
  clear b Hinv. intros i b Hi (Hb & Hr0 & Hcells).
  destruct (He j i) as [cur Hcur]; [lia | lia |]. rewrite Hcur. simpl.
  assert (∀ i', 0 ≤ i' < w →
            ∃ v, load b ((j - 1) * w + i') = Some v
                 ∧ cost_at b w (j - 1) i' = v) as Hld.
  { intros i' Hi'. destruct (load_is_Some b ((j - 1) * w + i')) as [v Hv];
      [nia |]. exists v. split; [done | by apply cost_at_load]. }
  assert (∃ m, (if i =? 0 then
               e1 ← load b ((j - 1) * w + (i + 1));
               e2 ← load b ((j - 1) * w + i);
               Some (min_2 e1 e2)
             else if i =? w - 1 then
               e1 ← load b ((j - 1) * w + i);
               e2 ← load b ((j - 1) * w + (i - 1));
               Some (min_2 e1 e2)
             else
               e1 ← load b ((j - 1) * w + (i - 1));
               e2 ← load b ((j - 1) * w + i);
               e3 ← load b ((j - 1) * w + (i + 1));
               Some (min_3 e1 e2 e3)) = Some m
            ∧ min_over_adjacent b w (j - 1) i m) as (m & -> & Hm).
  { destruct (i =? 0) eqn:E0; [| destruct (i =? w - 1) eqn:E1]; zbool.
    - destruct (Hld (i + 1)) as (e1 & -> & H1); [lia |].
      destruct (Hld i) as (e2 & -> & H2); [lia |]. simpl.
      eexists. split; [done |]. rewrite min_2_spec. split.
      + destruct (Z.min_spec e1 e2) as [[_ ->] | [_ ->]];
          [exists (i + 1) | exists i]; (split; [unfold adjacent; lia | done]).
      + intros i' [Ha Hb'].
        assert (i' = i ∨ i' = i + 1) as [-> | ->] by lia; lia.
    - destruct (Hld i) as (e1 & -> & H1); [lia |].
      destruct (Hld (i - 1)) as (e2 & -> & H2); [lia |]. simpl.
      eexists. split; [done |]. rewrite min_2_spec. split.
      + destruct (Z.min_spec e1 e2) as [[_ ->] | [_ ->]];
          [exists i | exists (i - 1)]; (split; [unfold adjacent; lia | done]).
      + intros i' [Ha Hb'].
        assert (i' = i ∨ i' = i - 1) as [-> | ->] by lia; lia.
    - destruct (Hld (i - 1)) as (e1 & -> & H1); [lia |].
      destruct (Hld i) as (e2 & -> & H2); [lia |].
      destruct (Hld (i + 1)) as (e3 & -> & H3); [lia |]. simpl.
      eexists. split; [done |]. rewrite min_3_spec. split.
      + destruct (Z.min_spec (Z.min e1 e2) e3) as [[_ ->] | [_ ->]];
          [destruct (Z.min_spec e1 e2) as [[_ ->] | [_ ->]];
             [exists (i - 1) | exists i]
          | exists (i + 1)]; (split; [unfold adjacent; lia | done]).
      + intros i' [Ha Hb'].
        assert (i' = i - 1 ∨ i' = i ∨ i' = i + 1) as [-> | [-> | ->]] by lia;
          lia. }
  simpl.
  destruct (store b (j * w + i) (cur + m)) as [b' |] eqn:Hst.
  2: { rewrite store_is_Some in Hst by nia. done. }
  exists b'. split; [done |]. split; [| split].
  - rewrite (store_length _ _ _ _ Hst). done.
  - intros i' Hi'. rewrite (load_store_ne _ _ _ _ _ Hst) by nia. by apply Hr0.
  - intros j' i' Hj' Hi' Hcase.
    destruct (decide ((j', i') = (j, i))) as [[= -> ->] | Hne].
    + exists cur, m. split; [done |]. split.
      * by apply (load_store_eq _ _ _ _ Hst).
      * apply (min_over_adjacent_ext b); [| done].
        intros i' [_ Hi'']. apply (cost_at_frame _ _ _ _ _ _ _ Hst). nia.
    + apply (dp_cell_frame _ _ _ _ _ _ _ _ Hst); [| done |].
      * destruct Hcase as [? | [-> ?]]; [nia |].
        assert (i' ≠ i) by congruence. lia.
      * apply Hcells; try done.
        destruct Hcase as [? | [-> ?]]; [by left | right].
        assert (i' ≠ i) by congruence. lia.
Qed.

Lemma dynamic_seam_dp grad fresh :
  Seamcarving.dynamic_seam grad fresh
  = dp_fill (λ j i, Seamcarving.get_pixel grad j i 0)
      (height grad) (width grad) fresh.
Proof. reflexivity. Qed.

Lemma seam_carve_cost_dp energy_map h w fresh :
  Wasm.seam_carve_cost energy_map h w fresh
  = dp_fill (λ j i, Wasm.get_pixel energy_map w j i 0) h w fresh.
Proof.
  unfold Wasm.seam_carve_cost, dp_fill.
  destruct (for_up 0 w _ fresh) as [b0 |]; simpl; [| done].
  apply for_up_ext. intros j b. apply for_up_ext. intros i b'.
  destruct (Wasm.get_pixel energy_map w j i 0); simpl; [| done].
  replace ((j - 1) * w + i + 1) with ((j - 1) * w + (i + 1)) by lia.
  replace ((j - 1) * w + i - 1) with ((j - 1) * w + (i - 1)) by lia.
  done.
Qed.

Section dp_rgb.
Import Seamcarving.

(** X8.  On an energy map of at least two columns the table of
    [dynamic_seam] holds the energy of row 0 in row 0 and, in every row
    below, the energy of the cell plus the least entry of the row above
    among the adjacent columns; the call returns for every content of the
    fresh block. *)
Lemma dynamic_seam_recurrence grad fresh :
  wf_rgb grad = true → 2 ≤ width grad →
  has_size fresh (height grad * width grad) = true →
  ∃ best, dynamic_seam grad fresh = Some best
    ∧ (∀ i, 0 ≤ i < width grad → load best i = get_pixel grad 0 i 0)
    ∧ ∀ j i, 1 ≤ j < height grad → 0 ≤ i < width grad →
        ∃ e m, get_pixel grad j i 0 = Some e
          ∧ load best (j * width grad + i) = Some (e + m)
          ∧ min_over_adjacent best (width grad) (j - 1) i m.
Proof.
  intros (Hh & Hw & Hlen & Hb)%wf_rgb_inv Hw2 Hfresh. zbool.
  rewrite dynamic_seam_dp.
  destruct (dp_fill_correct (λ j i, get_pixel grad j i 0)
              (height grad) (width grad) fresh)
    as (best & -> & _ & Hr0 & Hcells); try done.
  { intros j i Hj Hi.
    destruct (get_pixel_is_Some grad (height grad) j i 0) as [v ->];
      try done. }
  exists best. split; [done |]. split; [done |].
  intros j i Hj Hi. apply Hcells; try done. lia.
Qed.
End dp_rgb.

(** ** Seams *)

Section wasm_seam.
Import Wasm.

Lemma cell_load best h w j i :
  Z.of_nat (length best) = h * w → 0 ≤ j < h → 0 ≤ i < w →
  load best (j * w + i) = Some (cost_at best w j i).
Proof.
  intros Hlen Hj Hi.
  destruct (load_is_Some best (j * w + i)) as [v Hv]; [nia |].
  by rewrite (cost_at_load _ _ _ _ _ Hv).
Qed.

Lemma backtrack_step_spec best h w j c :
  Z.of_nat (length best) = h * w → 0 ≤ j < h → 0 ≤ c < w →
  ∃ p, backtrack_step best w j c = Some p
    ∧ adjacent_min best w j c p ∧ tie_break best w j c p.
Proof.
  intros Hlen Hj Hc. unfold backtrack_step.
  rewrite (cell_load best h w j c) by done. simpl.
  destruct (c >? 0) eqn:E0; destruct (c <? w - 1) eqn:E1; zbool.
  - replace (j * w + c - 1) with (j * w + (c - 1)) by lia.
    replace (j * w + c + 1) with (j * w + (c + 1)) by lia.
    rewrite (cell_load best h w j (c - 1)) by (try done; lia). simpl.
    rewrite (cell_load best h w j (c + 1)) by (try done; lia).
    destruct (cost_at best w j (c - 1) <? cost_at best w j c) eqn:E2; simpl; 
      [destruct (cost_at best w j (c + 1) <? cost_at best w j (c - 1))
         eqn:E3
      | destruct (cost_at best w j (c + 1) <? cost_at best w j c) eqn:E3];
      simpl; zbool;
      eexists; (split; [done |]); unfold tie_break, adjacent_min, adjacent;
      (split; [split; [lia |]; intros k [Hk1 Hk2];
        assert (k = c - 1 ∨ k = c ∨ k = c + 1) as [-> | [-> | ->]] by lia;
        lia |]).
    all: split; [intros [_ Hm] | intros [_ Hm] Hn].
    all: try (pose proof (Hm (c - 1) ltac:(lia)));
         try (pose proof (Hm (c + 1) ltac:(lia)));
         try (pose proof (Hm c ltac:(lia)));
         try lia.
    all: exfalso; apply Hn; split; [lia |]; intros k [Hk1 Hk2];
        assert (k = c - 1 ∨ k = c ∨ k = c + 1) as [-> | [-> | ->]] by lia;
        lia.
  - replace (j * w + c - 1) with (j * w + (c - 1)) by lia.
    rewrite (cell_load best h w j (c - 1)) by (try done; lia). simpl.
    destruct (cost_at best w j (c - 1) <? cost_at best w j c) eqn:E2;
      simpl; zbool;
      eexists; (split; [done |]); unfold tie_break, adjacent_min, adjacent;
      (split; [split; [lia |]; intros k [Hk1 Hk2];
        assert (k = c - 1 ∨ k = c) as [-> | ->] by lia;
        lia |]).
    all: split; [intros [_ Hm] | intros [_ Hm] Hn].
    all: try (pose proof (Hm (c - 1) ltac:(lia)));
         try (pose proof (Hm c ltac:(lia)));
         try lia.
    all: exfalso; apply Hn; split; [lia |]; intros k [Hk1 Hk2];
        assert (k = c - 1 ∨ k = c) as [-> | ->] by lia;
        lia.
  - replace (j * w + c + 1) with (j * w + (c + 1)) by lia.
    rewrite (cell_load best h w j (c + 1)) by (try done; lia). simpl.
    destruct (cost_at best w j (c + 1) <? cost_at best w j c) eqn:E2;
      simpl; zbool;
      eexists; (split; [done |]); unfold tie_break, adjacent_min, adjacent;
      (split; [split; [lia |]; intros k [Hk1 Hk2];
        assert (k = c + 1 ∨ k = c) as [-> | ->] by lia;
        lia |]).
    all: split; [intros [_ Hm] | intros [[Ha1 Ha2] Hm] Hn].
    all: try (pose proof (Hm (c + 1) ltac:(lia)));
         try (pose proof (Hm c ltac:(lia)));
         try lia.
  - simpl. eexists; (split; [done |]); unfold tie_break, adjacent_min, adjacent.
    split; [split; [lia |]; intros k [Hk1 Hk2];
            assert (k = c) as -> by lia; lia |].
    split; [done |]. intros [[Ha1 Ha2] Hm] Hn. lia.
Qed.

Lemma seam_from_valid best h w k path j :
  seam_from best h w k path → k < j ≤ h - 1 →
  ∃ c, load path j = Some c ∧ 0 ≤ c < w.
Proof.
  intros (Hlen & (p & Hp & Hr & _) & Hsteps) Hj.
  destruct (decide (j = h - 1)) as [-> | Hne].
  - eauto.
  - destruct (Hsteps j) as (c & q & _ & Hq & [[_ Hr'] _] & _); [lia |].
    eauto.
Qed.

Lemma bottom_scan_spec best h w :
  Z.of_nat (length best) = h * w → 1 ≤ h → 1 ≤ w →
  ∃ m p,
    (min_energy ← load best ((h - 1) * w);
     for_up 1 w (fun i '(min_energy, min_idx) =>
       b ← load best ((h - 1) * w + i);
       if b <? min_energy then Some (b, i)
       else Some (min_energy, min_idx)) (min_energy, 0)) = Some (m, p)
    ∧ first_min best w (h - 1) p.
Proof.
  intros Hlen Hh Hw.
  assert (load best ((h - 1) * w) = Some (cost_at best w (h - 1) 0)) as ->.
  { rewrite <- (cell_load best h w (h - 1) 0) by lia. f_equal. lia. }
  simpl.
  destruct (for_up_inv
    (λ i (st : Z * Z),
       st.1 = cost_at best w (h - 1) st.2 ∧ 0 ≤ st.2 < i
       ∧ (∀ k, 0 ≤ k < i → st.1 ≤ cost_at best w (h - 1) k)
       ∧ ∀ k, 0 ≤ k < st.2 → st.1 < cost_at best w (h - 1) k)
    (fun i '(min_energy, min_idx) =>
       b ← load best ((h - 1) * w + i);
       if b <? min_energy then Some (b, i)
       else Some (min_energy, min_idx))
    1 w (cost_at best w (h - 1) 0, 0))
    as ([m p] & Hrun & Hm & Hp & Hall & Hfirst); [lia | | |].
  { simpl. repeat split; try lia.
    intros k Hk. assert (k = 0) as -> by lia. lia. }
  { intros i [m p] Hi (Hm & Hp & Hall & Hfirst). simpl in *.
    rewrite (cell_load best h w (h - 1) i) by lia. simpl.
    destruct (cost_at best w (h - 1) i <? m) eqn:E; zbool;
      eexists; (split; [done |]); simpl; repeat split; try lia.
    - intros k Hk. destruct (decide (k = i)) as [-> | ?]; [lia |].
      pose proof (Hall k ltac:(lia)). lia.
    - intros k Hk. pose proof (Hall k ltac:(lia)). lia.
    - intros k Hk. destruct (decide (k = i)) as [-> | ?]; [lia |].
      apply Hall. lia.
    - done. }
  exists m, p. split; [done |]. simpl in *. subst m.
  repeat split; try done; lia.
Qed.

Lemma seam_carve_path_spec best h w fresh :
  Z.of_nat (length best) = h * w → 1 ≤ h → 1 ≤ w →
  Z.of_nat (length fresh) = h →
  ∃ path, seam_carve_path best h w fresh = Some path
    ∧ seam_from best h w (-1) path.
Proof.
  intros Hlen Hh Hw Hfresh. unfold seam_carve_path.
  destruct (bottom_scan_spec best h w Hlen Hh Hw) as (m & p & Hscan & Hmin).
  destruct (load best ((h - 1) * w)) as [m0 |]; [| done]. simpl in *.
  rewrite Hscan. simpl.
  destruct (store fresh (h - 1) p) as [path0 |] eqn:Hst.
  2: { rewrite store_is_Some in Hst by lia. done. }
  simpl.
  replace (-1) with (0 - 1) by lia.
  apply (for_down_inv (λ k, seam_from best h w k)); [lia | |].
  { split; [| split].
    - rewrite (store_length _ _ _ _ Hst). done.
    - exists p. split; [| done]. by apply (load_store_eq _ _ _ _ Hst).
    - intros; lia. }
  intros k path Hk Hinv.
  destruct (seam_from_valid _ _ _ _ _ (k + 1) Hinv) as (c & Hc & Hcr);
    [lia |].
  rewrite Hc. simpl.
  destruct (backtrack_step_spec best h w k c) as (q & -> & Hq & Htb);
    [done | lia | done |].
  simpl. destruct Hinv as (Hl & (pb & Hpb & Hfm) & Hsteps).
  destruct (store path k q) as [path' |] eqn:Hst'.
  2: { rewrite store_is_Some in Hst' by lia. done. }
  exists path'. split; [done |]. split; [| split].
  - rewrite (store_length _ _ _ _ Hst'). done.
  - exists pb. split; [| done].
    rewrite (load_store_ne _ _ _ _ _ Hst') by lia. done.
  - intros j Hj. destruct (decide (j = k)) as [-> | Hne].
    + exists c, q. split; [| split; [| by split]].
      * rewrite (load_store_ne _ _ _ _ _ Hst') by lia. done.
      * by apply (load_store_eq _ _ _ _ Hst').
    + destruct (Hsteps j) as (c' & p' & H1 & H2 & H3); [lia |].
      exists c', p'. split; [| split; [| done]].
      * rewrite (load_store_ne _ _ _ _ _ Hst') by lia. done.
      * rewrite (load_store_ne _ _ _ _ _ Hst') by lia. done.
Qed.

End wasm_seam.

(** ** Pixels of an RGBA buffer *)

Section rgba_pixels.
Import Wasm.

Lemma wf_rgba_inv src h w :
  wf_rgba src h w = true →
  1 ≤ h ∧ 1 ≤ w ∧ Z.of_nat (length src) = 4 * h * w
  ∧ forallb is_byte src = true.
Proof. unfold wf_rgba. intros H. zbool. auto. Qed.

Lemma get_pixel4_is_Some buf h w y x c :
  Z.of_nat (length buf) = 4 * h * w →
  0 ≤ y < h → 0 ≤ x < w → 0 ≤ c < 4 →
  ∃ v, get_pixel buf w y x c = Some v.
Proof.
  intros Hlen Hy Hx Hc. apply load_is_Some.
  pose proof (cell_bound h w y x Hy Hx). nia.
Qed.

Lemma set_pixel4_spec buf h w y x r g b a :
  Z.of_nat (length buf) = 4 * h * w →
  0 ≤ y < h → 0 ≤ x < w →
  ∃ buf', set_pixel buf w y x r g b a = Some buf'
    ∧ length buf' = length buf
    ∧ get_pixel buf' w y x 0 = Some (u8 r)
    ∧ get_pixel buf' w y x 1 = Some (u8 g)
    ∧ get_pixel buf' w y x 2 = Some (u8 b)
    ∧ get_pixel buf' w y x 3 = Some (u8 a)
    ∧ (∀ k, k < 4 * (y * w + x) ∨ 4 * (y * w + x) + 4 ≤ k →
         load buf' k = load buf k).
Proof.
  intros Hlen Hy Hx.
  pose proof (cell_bound h w y x Hy Hx) as Hcell.
  unfold set_pixel, get_pixel.
  set (p := y * w + x) in *.
  destruct (store buf (4 * p + 0) (u8 r)) as [r0 |] eqn:E0.
  2: { rewrite store_is_Some in E0 by lia. done. }
  pose proof (store_length _ _ _ _ E0) as L0. simpl.
  destruct (store r0 (4 * p + 1) (u8 g)) as [r1 |] eqn:E1.
  2: { rewrite store_is_Some in E1 by lia. done. }
  pose proof (store_length _ _ _ _ E1) as L1. simpl.
  destruct (store r1 (4 * p + 2) (u8 b)) as [r2 |] eqn:E2.
  2: { rewrite store_is_Some in E2 by lia. done. }
  pose proof (store_length _ _ _ _ E2) as L2. simpl.
  destruct (store r2 (4 * p + 3) (u8 a)) as [r3 |] eqn:E3.
  2: { rewrite store_is_Some in E3 by lia. done. }
  pose proof (store_length _ _ _ _ E3) as L3.
  exists r3. split; [done |].
  repeat split.
  - congruence.
  - rewrite (load_store_ne _ _ _ _ _ E3) by lia.
    rewrite (load_store_ne _ _ _ _ _ E2) by lia.
    rewrite (load_store_ne _ _ _ _ _ E1) by lia.
    by apply (load_store_eq _ _ _ _ E0).
  - rewrite (load_store_ne _ _ _ _ _ E3) by lia.
    rewrite (load_store_ne _ _ _ _ _ E2) by lia.
    by apply (load_store_eq _ _ _ _ E1).
  - rewrite (load_store_ne _ _ _ _ _ E3) by lia.
    by apply (load_store_eq _ _ _ _ E2).
  - by apply (load_store_eq _ _ _ _ E3).
  - intros k Hk.
    rewrite (load_store_ne _ _ _ _ _ E3) by lia.
    rewrite (load_store_ne _ _ _ _ _ E2) by lia.
    rewrite (load_store_ne _ _ _ _ _ E1) by lia.
    by rewrite (load_store_ne _ _ _ _ _ E0) by lia.
Qed.

Lemma get_pixel4_frame buf buf' w y x y' x' c :
  (∀ k, k < 4 * (y * w + x) ∨ 4 * (y * w + x) + 4 ≤ k →
     load buf' k = load buf k) →
  0 ≤ x < w → 0 ≤ x' < w → 0 ≤ c < 4 →
  (y', x') ≠ (y, x) →
  get_pixel buf' w y' x' c = get_pixel buf w y' x' c.
Proof.
  intros Hfr Hx Hx' Hc Hne. unfold get_pixel. apply Hfr.
  pose proof (cell_ne w y' x' y x Hx' Hx Hne). lia.
Qed.

End rgba_pixels.

(** ** The energy stage of [seamcarving_wasm.c] *)

Section energy_rgba.
Import Wasm.

Lemma grad_sq_at4_is_Some src h w j i :
  wf_rgba src h w = true → 0 ≤ j < h → 0 ≤ i < w →
  ∃ gx gy, grad_sq_at src h w j i = Some (gx, gy)
    ∧ 0 ≤ gx ≤ 195075 ∧ 0 ≤ gy ≤ 195075.
Proof.
  intros (Hh & Hw & Hlen & Hb)%wf_rgba_inv Hj Hi. unfold grad_sq_at.
  set (k_left := if i =? 0 then w - 1 else i - 1).
  set (k_right := if i =? w - 1 then 0 else i + 1).
  set (k_up := if j =? 0 then h - 1 else j - 1).
  set (k_down := if j =? h - 1 then 0 else j + 1).
  assert (0 ≤ k_left < w)
    by (unfold k_left; destruct (i =? 0) eqn:E; zbool; lia).
  assert (0 ≤ k_right < w)
    by (unfold k_right; destruct (i =? w - 1) eqn:E; zbool; lia).
  assert (0 ≤ k_up < h)
    by (unfold k_up; destruct (j =? 0) eqn:E; zbool; lia).
  assert (0 ≤ k_down < h)
    by (unfold k_down; destruct (j =? h - 1) eqn:E; zbool; lia).
  clearbody k_left k_right k_up k_down.
  repeat match goal with
  | |- context [get_pixel src w ?y ?x ?c] =>
      let v := fresh "v" in let Hv := fresh "Hv" in
      destruct (get_pixel4_is_Some src h w y x c) as [v Hv];
        [done | lia | lia | lia |];
      rewrite Hv; simpl;
      apply (load_byte _ _ _ Hb) in Hv
  end.
  eexists _, _. split; [done |].
  repeat match goal with
  | H1 : 0 ≤ ?a < 256, H2 : 0 ≤ ?b < 256
    |- context [(?a - ?b) * (?a - ?b)] =>
      pose proof (sq_diff_bound a b H1 H2);
      generalize dependent ((a - b) * (a - b)); intros
  end.
  lia.
Qed.

Lemma calc_energy4_correct src dest h w :
  wf_rgba src h w = true →
  Z.of_nat (length dest) = 4 * h * w →
  ∃ dest', calc_energy src dest h w = Some dest'
    ∧ energy4_upto src h w h 0 dest'.
Proof.
  intros Hwf Hfresh.
  pose proof (wf_rgba_inv _ _ _ Hwf) as (Hh & Hw & Hlen & Hb).
  unfold calc_energy.
  apply (for_up_inv (λ j, energy4_upto src h w j 0)); [lia | |].
  { split; [done |]. intros; lia. }
  intros j grad Hj Hinv.
  destruct (for_up_inv (λ i, energy4_upto src h w j i)
    (λ i dest,
      g ← grad_sq_at src h w j i;
      let energy := energy_of g in
      let energy_norm := energy_norm_of energy in
      set_pixel dest w j i energy_norm energy_norm energy_norm 255)
    0 w grad) as (grad' & Hrun & Hinv'); [lia | done | |].
  2: { exists grad'. split; [done |].
       destruct Hinv' as (? & Hpix). split; [done |].
       intros j' i' g Hj' Hi' Hg Hcase. apply Hpix; try done. lia. }
  clear grad Hinv. intros i grad Hi (Hgl & Hpix).
  destruct (grad_sq_at4_is_Some src h w j i Hwf Hj Hi)
    as (gx & gy & Hg & Hgx & Hgy).
  rewrite Hg. simpl.
  set (e := energy_norm_of (energy_of (gx, gy))).
  destruct (set_pixel4_spec grad h w j i e e e 255)
    as (grad' & Hset & Hl' & H0 & H1 & H2 & H3 & Hfr); [done | lia | lia |].
  exists grad'. split; [done |].
  split; [lia |].
  intros j' i' g Hj' Hi' Hg' Hcase.
  destruct (decide ((j', i') = (j, i))) as [[= -> ->] | Hne].
  - assert (g = (gx, gy)) as -> by congruence. done.
  - rewrite !(get_pixel4_frame grad grad' w j i j' i'); try done; try lia.
    apply Hpix; try done.
    destruct Hcase as [? | [-> Hs]]; [by left | right]. split; [done |].
    assert (i' ≠ i) by congruence. lia.
Qed.

End energy_rgba.

(** ** The energy stage of [seamcarving_wasm.c], as stored *)

Section wasm_energy_twins.
Import Wasm.

(** X5.  The twin of C9 for [seamcarving_wasm.c], where the narrowing
    happens in [set_pixel]: the energy is at most 624, a tenth of it at
    most 62, and the narrowing to a byte leaves it as it is. *)
Lemma wasm_energy_store_never_wraps src h w j i :
  wf_rgba src h w = true → 0 ≤ j < h → 0 ≤ i < w →
  ∃ g, grad_sq_at src h w j i = Some g
    ∧ 0 ≤ energy_of g ≤ 624
    ∧ 0 ≤ energy_norm_of (energy_of g) ≤ 62
    ∧ u8 (energy_norm_of (energy_of g)) = energy_norm_of (energy_of g).
Proof.
  intros Hwf Hj Hi.
  destruct (grad_sq_at4_is_Some src h w j i Hwf Hj Hi)
    as (gx & gy & Hg & Hgx & Hgy).
  destruct (energy_bound gx gy Hgx Hgy) as (He & Hn).
  exists (gx, gy). unfold energy_of, energy_norm_of. simpl.
  repeat split; try done; try lia.
  apply u8_small. lia.
Qed.

(** X6.  The twin of C7 for [seamcarving_wasm.c]: the three colour
    channels hold the truncated energy and the alpha channel 255. *)
Lemma wasm_calc_energy_stores_truncated_energy src dest h w :
  wf_rgba src h w = true → has_size dest (4 * h * w) = true →
  ∃ dest', calc_energy src dest h w = Some dest'
    ∧ has_size dest' (4 * h * w) = true
    ∧ ∀ j i, 0 ≤ j < h → 0 ≤ i < w →
        ∃ grad_x_2 grad_y_2,
          grad_sq_at src h w j i = Some (grad_x_2, grad_y_2)
          ∧ (∀ c, 0 ≤ c < 3 →
               get_pixel dest' w j i c
               = Some ((Z.sqrt (grad_x_2 + grad_y_2) / 10) mod 256))
          ∧ get_pixel dest' w j i 3 = Some 255.
Proof.
  intros Hwf Hdest. zbool.
  destruct (calc_energy4_correct src dest h w Hwf Hdest)
    as (dest' & Hrun & Hl & Hpix).
  exists dest'. split; [done |]. split.
  { unfold has_size. by apply Z.eqb_eq. }
  intros j i Hj Hi.
  destruct (grad_sq_at4_is_Some src h w j i Hwf Hj Hi)
    as (gx & gy & Hg & Hgx & Hgy).
  exists gx, gy. split; [done |].
  destruct (Hpix j i (gx, gy)) as (H0 & H1 & H2 & H3); try done.
  { left. lia. }
  assert (u8 (energy_norm_of (energy_of (gx, gy)))
          = (Z.sqrt (gx + gy) / 10) mod 256) as Hu.
  { unfold energy_norm_of, energy_of, u8. simpl.
    rewrite Z.quot_div_nonneg; [done | apply Z.sqrt_nonneg | lia]. }
  rewrite Hu in H0, H1, H2. split; [| done].
  intros c Hc.
  assert (c = 0 ∨ c = 1 ∨ c = 2) as [-> | [-> | ->]] by lia; done.
Qed.

End wasm_energy_twins.

(** ** The composed operation of [seamcarving_wasm.c] *)

Section wasm_copy.
Import Wasm.

Lemma seam_carve_copy_correct src h w path fresh :
  wf_rgba src h w = true →
  (∀ j, 0 ≤ j < h → ∃ pj, load path j = Some pj ∧ 0 ≤ pj < w) →
  Z.of_nat (length fresh) = 4 * h * (w - 1) →
  ∃ output, seam_carve_copy src h w path fresh = Some output
    ∧ copied_upto src path h w h 0 output.
Proof.
  intros (Hh & Hw & Hlen & Hb)%wf_rgba_inv Hpath Hfresh.
  unfold seam_carve_copy.
  apply (for_up_inv (λ j, copied_upto src path h w j 0)); [lia | |].
  { split; [done |]. intros; lia. }
  intros j out Hj Hinv.
  destruct (Hpath j Hj) as (pj & Hpj & Hpjr).
  destruct (for_up_inv
    (λ i (st : list Z * Z),
       copied_upto src path h w j i st.1
       ∧ st.2 = if i <=? pj then i else i - 1)
    (fun i '(output, new_col) =>
      pj ← load path j;
      if negb (i =? pj) then
        p0 ← get_pixel src w j i 0;
        p1 ← get_pixel src w j i 1;
        p2 ← get_pixel src w j i 2;
        p3 ← get_pixel src w j i 3;
        output ← set_pixel output (w - 1) j new_col p0 p1 p2 p3;
        Some (output, new_col + 1)
      else Some (output, new_col)) 0 w (out, 0))
    as ([out' nc] & Hrun & Hinv' & _); [lia | | |].
  { simpl. split; [done |]. destruct (0 <=? pj) eqn:E; zbool; lia. }
  2: { rewrite Hrun. simpl. exists out'. split; [done |].
       destruct Hinv' as (? & Hpix). split; [done |].
       intros j' i' c pj' Hj' Hi' Hc Hl Hne Hcase.
       apply Hpix; try done. lia. }
  clear out Hinv. intros i [out nc] Hi [(Hol & Hpix) Hnc]. simpl in *.
  rewrite Hpj. simpl.
  destruct (i =? pj) eqn:Eip; zbool; simpl.
  { eexists. split; [done |]. simpl. split; [split; [done |] |].
    - intros j' i' c pj' Hj' Hi' Hc Hl Hne Hcase. apply Hpix; try done.
      destruct Hcase as [? | [-> Hs]]; [by left | right]. split; [done |].
      assert (pj' = pj) as -> by congruence. lia.
    - subst nc. destruct (i <=? pj) eqn:E1; destruct (i + 1 <=? pj) eqn:E2;
        zbool; lia. }
  destruct (get_pixel4_is_Some src h w j i 0) as [p0 H0]; try lia.
  destruct (get_pixel4_is_Some src h w j i 1) as [p1 H1]; try lia.
  destruct (get_pixel4_is_Some src h w j i 2) as [p2 H2]; try lia.
  destruct (get_pixel4_is_Some src h w j i 3) as [p3 H3]; try lia.
  rewrite H0, H1, H2, H3. simpl.
  assert (nc = survivor_col pj i ∧ 0 ≤ nc < w - 1) as [Hnc' Hncr].
  { subst nc. unfold survivor_col.
    destruct (i <=? pj) eqn:E1; destruct (i <? pj) eqn:E2; zbool; lia. }
  destruct (set_pixel4_spec out h (w - 1) j nc p0 p1 p2 p3)
    as (out' & Hset & Hl' & G0 & G1 & G2 & G3 & Hfr); [lia | lia | lia |].
  rewrite Hset. simpl.
  eexists. split; [done |]. simpl. split; [split; [lia |] |].
  - intros j' i' c pj' Hj' Hi' Hc Hl Hne Hcase.
    destruct (decide ((j', i') = (j, i))) as [[= -> ->] | Hne'].
    + assert (pj' = pj) as -> by congruence. rewrite <- Hnc'.
      rewrite u8_small in G0 by (by apply (load_byte _ _ _ Hb H0)).
      rewrite u8_small in G1 by (by apply (load_byte _ _ _ Hb H1)).
      rewrite u8_small in G2 by (by apply (load_byte _ _ _ Hb H2)).
      rewrite u8_small in G3 by (by apply (load_byte _ _ _ Hb H3)).
      assert (c = 0 ∨ c = 1 ∨ c = 2 ∨ c = 3) as [-> | [-> | [-> | ->]]]
        by lia; congruence.
    + assert (j' < j ∨ (j' = j ∧ i' < i)) as Hcase'.
      { destruct Hcase as [? | [-> ?]]; [by left | right].
        assert (i' ≠ i) by congruence. lia. }
      rewrite (get_pixel4_frame out out' (w - 1) j nc j' (survivor_col pj' i'));
        try done.
      * apply Hpix; done.
      * destruct (Hpath j' Hj') as (q & Hq & Hqr).
        assert (pj' = q) as -> by congruence.
        unfold survivor_col. destruct (i' <? q) eqn:E; zbool; lia.
      * destruct Hcase' as [? | [-> ?]]; [intros [= ? _]; lia |].
        assert (pj' = pj) as -> by congruence.
        intros [= He]. subst nc. unfold survivor_col in *.
        destruct (i' <? pj) eqn:E1; destruct (i <? pj) eqn:E2; zbool; lia.
  - subst nc. destruct (i <=? pj) eqn:E1; destruct (i + 1 <=? pj) eqn:E2;
      zbool; lia.
Qed.

End wasm_copy.

(** ** [recover_path] *)

Section recover_path_proofs.
Import Seamcarving.

Ltac decide_tests :=
  repeat match goal with
  | |- context [?a <? ?b] =>
      first [ rewrite (proj2 (Z.ltb_lt a b)) by lia
            | rewrite (proj2 (Z.ltb_ge a b)) by lia ]
  | |- context [?a =? ?b] =>
      first [ rewrite (proj2 (Z.eqb_eq a b)) by lia
            | rewrite (proj2 (Z.eqb_neq a b)) by lia ]
  end.

Lemma rp_seen_0 best w j c :
  0 ≤ c < w → rp_seen best w j c 0 = mk_rp (10 ^ 16) 0 0 0 0 0 0.
Proof.
  intros Hc. unfold rp_seen, rp_col2, rp_col3.
  destruct (c =? 0) eqn:E0; destruct (c =? w - 1) eqn:E1; zbool; simpl;
    decide_tests; done.
Qed.

Lemma rp_record_seen best w j c i :
  0 ≤ c < w → 0 ≤ i < w →
  rp_record (rp_seen best w j c i) w c i (cost_at best w j i)
  = rp_seen best w j c (i + 1).
Proof.
  intros Hc Hi. unfold rp_record, rp_seen, rp_col2, rp_col3.
  unfold set_e1, set_e2, set_e3. simpl.
  destruct (c =? 0) eqn:E0; destruct (c =? w - 1) eqn:E1; zbool; simpl.
  all: destruct (decide (i = c)) as [-> | Hic];
    [| destruct (decide (i = c - 1)) as [-> | Hic1];
       [| destruct (decide (i = c + 1)) as [-> | Hic2]]].
  all: try lia.
  all: decide_tests; try done.
  all: try (replace (c - 1 + 1) with c by lia);
    try (replace (0 + 1) with 1 by lia); decide_tests; try done.
  all: repeat match goal with
       | |- context [?a <? ?b] => destruct (Z.ltb_spec a b); try lia
       end.
  all: try done.
  all: f_equal; try lia; f_equal; lia.
Qed.

Lemma rp_seen_all best w j c :
  0 ≤ c < w →
  rp_seen best w j c w
  = if c =? 0 then
      if 1 <? w
      then mk_rp (10 ^ 16) (cost_at best w j c) (cost_at best w j 1) 0 c 1 0
      else mk_rp (10 ^ 16) (cost_at best w j c) 0 0 c 0 0
    else if c =? w - 1 then
      mk_rp (10 ^ 16) (cost_at best w j c) (cost_at best w j (c - 1)) 0
        c (c - 1) 0
    else
      mk_rp (10 ^ 16) (cost_at best w j c) (cost_at best w j (c - 1))
        (cost_at best w j (c + 1)) c (c - 1) (c + 1).
Proof.
  intros Hc. unfold rp_seen, rp_col2, rp_col3.
  destruct (c =? 0) eqn:E0; destruct (c =? w - 1) eqn:E1; zbool;
    cbn [orb]; cbv beta iota zeta.
  all: try destruct (Z.ltb_spec 1 w).
  all: try (exfalso; lia).
  all: decide_tests; done.
Qed.

Lemma not_adjacent_min_c best w j c k :
  ¬ adjacent_min best w j c c → 0 ≤ c < w →
  (∀ k', adjacent w c k' → k' = c ∨ k' = k) →
  cost_at best w j k < cost_at best w j c.
Proof.
  intros Hn Hc Hk.
  destruct (Z.lt_ge_cases (cost_at best w j k) (cost_at best w j c));
    [done |].
  exfalso. apply Hn. split; [unfold adjacent; lia |].
  intros k' Hk'. destruct (Hk k' Hk') as [-> | ->]; lia.
Qed.

Lemma rp_pick_spec best w j c :
  0 ≤ c < w →
  adjacent w c (rp_pick best w j c)
  ∧ tie_break best w j c (rp_pick best w j c).
Proof.
  intros Hc. unfold rp_pick. rewrite rp_seen_all by done.
  unfold tie_break, adjacent_min, adjacent, rp_choose.
  destruct (c =? 0) eqn:E0; [| destruct (c =? w - 1) eqn:E1]; zbool.
  - destruct (Z.ltb_spec 1 w); simpl; rewrite min_2_spec.
    + destruct (Z.min _ _ =? cost_at best w j c) eqn:E; simpl; zbool.
      * repeat split; try lia.
      * repeat split; try lia.
        intros [_ Hm]. pose proof (Hm 1 ltac:(lia)). lia.
    + destruct (Z.min _ _ =? cost_at best w j c) eqn:E; simpl; zbool;
        repeat split; try lia.
  - simpl. rewrite min_2_spec.
    destruct (Z.min _ _ =? cost_at best w j c) eqn:E; simpl; zbool.
    + repeat split; try lia. intros [_ Hm] Hn.
      pose proof (not_adjacent_min_c best w j c (c - 1) Hn Hc
                    ltac:(unfold adjacent; lia)). lia.
    + repeat split; try lia.
      intros [_ Hm]. pose proof (Hm (c - 1) ltac:(lia)). lia.
  - simpl. destruct (cost_at best w j (c + 1) =? 0) eqn:E3; zbool.
    + rewrite min_2_spec.
      destruct (Z.min _ _ =? cost_at best w j c) eqn:E; simpl; zbool.
      * repeat split; try lia. intros [_ Hm] Hn.
        exfalso. apply Hn. split; [lia |]. intros k Hk.
        pose proof (Hm (c + 1) ltac:(lia)).
        assert (k = c - 1 ∨ k = c ∨ k = c + 1) as [-> | [-> | ->]] by lia;
          lia.
      * repeat split; try lia.
        intros [_ Hm]. pose proof (Hm (c - 1) ltac:(lia)). lia.
    + rewrite min_3_spec.
      destruct (Z.min _ _ =? cost_at best w j c) eqn:E; simpl; zbool.
      * repeat split; try lia. intros [_ Hm] Hn.
        exfalso. apply Hn. split; [lia |]. intros k Hk.
        assert (k = c - 1 ∨ k = c ∨ k = c + 1) as [-> | [-> | ->]] by lia;
          lia.
      * destruct (Z.min _ _ =? cost_at best w j (c - 1)) eqn:E'; simpl;
          zbool.
        -- repeat split; try lia.
           intros [_ Hm]. pose proof (Hm (c - 1) ltac:(lia)).
           pose proof (Hm (c + 1) ltac:(lia)). lia.
        -- repeat split; try lia.
           ++ intros [_ Hm]. pose proof (Hm (c - 1) ltac:(lia)).
              pose proof (Hm (c + 1) ltac:(lia)). lia.
           ++ intros [_ Hm] _. pose proof (Hm c ltac:(lia)).
              pose proof (Hm (c + 1) ltac:(lia)). lia.
Qed.

Lemma below_sentinel_cost best h w j i :
  below_sentinel best = true → Z.of_nat (length best) = h * w →
  0 ≤ j < h → 0 ≤ i < w → cost_at best w j i < 10 ^ 16.
Proof.
  intros Hs Hlen Hj Hi.
  pose proof (cell_load best h w j i Hlen Hj Hi) as Hl.
  pose proof (forallb_load _ _ _ _ Hs Hl) as Hv. simpl in Hv.
  by apply Z.ltb_lt in Hv.
Qed.

(** The bottom row: the scan with the strict comparison. *)
Lemma rp_bottom_row best h w path xc :
  below_sentinel best = true → Z.of_nat (length best) = h * w →
  1 ≤ h → 1 ≤ w → Z.of_nat (length path) = h →
  ∃ l path' p,
    for_up 0 w (rp_body best h w (h - 1))
      (mk_rp (10 ^ 16) 0 0 0 0 0 0, path, xc) = Some (l, path', Some p)
    ∧ Z.of_nat (length path') = h
    ∧ load path' (h - 1) = Some p
    ∧ first_min best w (h - 1) p.
Proof.
  intros Hs Hlen Hh Hw Hpl.
  destruct (for_up_inv
    (λ i (st : rp_state),
       Z.of_nat (length st.1.2) = h
       ∧ ((i = 0 ∧ rp_min st.1.1 = 10 ^ 16)
          ∨ (0 < i ∧ ∃ p, st.2 = Some p ∧ load st.1.2 (h - 1) = Some p
               ∧ 0 ≤ p < i
               ∧ rp_min st.1.1 = cost_at best w (h - 1) p
               ∧ (∀ k, 0 ≤ k < i →
                    cost_at best w (h - 1) p ≤ cost_at best w (h - 1) k)
               ∧ ∀ k, 0 ≤ k < p →
                    cost_at best w (h - 1) p < cost_at best w (h - 1) k)))
    (rp_body best h w (h - 1)) 0 w
    (mk_rp (10 ^ 16) 0 0 0 0 0 0, path, xc))
    as ([[l path'] xc'] & Hrun & Hl' & Hcase); [lia | | |].
  { simpl. split; [done |]. left. done. }
  { intros i [[l pth] x] Hi [Hpl' Hcase]. simpl in *.
    unfold rp_body.
    rewrite (cell_load best h w (h - 1) i) by (try done; lia). simpl.
    rewrite Z.eqb_refl.
    pose proof (below_sentinel_cost best h w (h - 1) i Hs Hlen
                  ltac:(lia) Hi) as Hb.
    destruct Hcase as [[-> Hmin] | (Hpos & p & -> & Hp & Hpr & Hmin & Hall
                                     & Hfirst)].
    - rewrite Hmin.
      rewrite (proj2 (Z.gtb_gt _ _)) by lia.
      destruct (store pth (h - 1) 0) as [pth' |] eqn:Hst.
      2: { rewrite store_is_Some in Hst by lia. done. }
      simpl. eexists. split; [done |]. simpl. split.
      + rewrite (store_length _ _ _ _ Hst). done.
      + right. split; [lia |]. exists 0. split; [done |].
        split; [by apply (load_store_eq _ _ _ _ Hst) |].
        repeat split; try lia.
        intros k Hk. assert (k = 0) as -> by lia. lia.
    - rewrite Hmin.
      destruct (cost_at best w (h - 1) p >? cost_at best w (h - 1) i)
        eqn:E; zbool.
      + destruct (store pth (h - 1) i) as [pth' |] eqn:Hst.
        2: { rewrite store_is_Some in Hst by lia. done. }
        simpl. eexists. split; [done |]. simpl. split.
        * rewrite (store_length _ _ _ _ Hst). done.
        * right. split; [lia |]. exists i. split; [done |].
          split; [by apply (load_store_eq _ _ _ _ Hst) |].
          repeat split; try lia.
          -- intros k Hk. destruct (decide (k = i)) as [-> | ?]; [lia |].
             pose proof (Hall k ltac:(lia)). lia.
          -- intros k Hk. pose proof (Hall k ltac:(lia)). lia.
      + eexists. split; [done |]. simpl. split; [done |].
        right. split; [lia |]. exists p. repeat split; try done; try lia.
        intros k Hk. destruct (decide (k = i)) as [-> | ?]; [lia |].
        apply Hall. lia. }
  simpl in *.
  destruct Hcase as [[-> _] | (_ & p & -> & Hp & Hpr & _ & Hall & Hfirst)];
    [lia |].
  exists l, path', p. repeat split; try done; try lia.
Qed.

(** A row above the bottom one: the three candidates are recorded while
    the row is scanned and the choice is made at the last column. *)
Lemma rp_upper_row best h w j c path :
  below_sentinel best = true → Z.of_nat (length best) = h * w →
  0 ≤ j < h - 1 → 0 ≤ c < w → Z.of_nat (length path) = h →
  ∃ l path',
    for_up 0 w (rp_body best h w j)
      (mk_rp (10 ^ 16) 0 0 0 0 0 0, path, Some c)
    = Some (l, path', Some (rp_pick best w j c))
    ∧ store path j (rp_pick best w j c) = Some path'.
Proof.
  intros Hs Hlen Hj Hc Hpl.
  destruct (for_up_inv
    (λ i (st : rp_state),
       (i < w ∧ st = (rp_seen best w j c i, path, Some c))
       ∨ (i = w ∧ st.2 = Some (rp_pick best w j c)
          ∧ store path j (rp_pick best w j c) = Some st.1.2))
    (rp_body best h w j) 0 w
    (mk_rp (10 ^ 16) 0 0 0 0 0 0, path, Some c))
    as ([[l path'] xc'] & Hrun & Hcase); [lia | | |].
  { left. split; [lia |]. by rewrite rp_seen_0. }
  { intros i [[l pth] x] Hi [[_ [= -> -> ->]] | [? _]]; [| lia].
    unfold rp_body.
    rewrite (cell_load best h w j i) by (try done; lia). simpl.
    rewrite (proj2 (Z.eqb_neq j (h - 1))) by lia.
    pose proof (below_sentinel_cost best h w j i Hs Hlen ltac:(lia) Hi)
      as Hb.
    rewrite (proj2 (Z.gtb_gt _ _)) by lia. simpl.
    rewrite rp_record_seen by done.
    destruct (i =? w - 1) eqn:E; zbool.
    - replace (i + 1) with w by lia.
      destruct (rp_choose (rp_seen best w j c w)) as [m k] eqn:Ech.
      assert (k = rp_pick best w j c) as -> by (unfold rp_pick; by rewrite Ech).
      destruct (store path j (rp_pick best w j c)) as [pth' |] eqn:Hst.
      2: { rewrite store_is_Some in Hst by lia. done. }
      simpl. eexists. split; [done |]. right. done.
    - eexists. split; [done |]. left. split; [lia | done]. }
  destruct Hcase as [[? _] | (_ & Hx & Hst)]; [lia |]. simpl in *.
  subst xc'. eauto.
Qed.

End recover_path_proofs.

Section recover_path_loop.
Import Seamcarving.

Lemma path_from_entry step best h w k path j :
  path_from step best h w k path →
  (∀ j c p, step j c p → 0 ≤ p < w) →
  k < j ≤ h - 1 →
  ∃ c, load path j = Some c ∧ 0 ≤ c < w.
Proof.
  intros (Hlen & (p & Hp & Hr & _) & Hsteps) Hstep Hj.
  destruct (decide (j = h - 1)) as [-> | Hne].
  - eauto.
  - destruct (Hsteps j) as (c & q & _ & Hq & Hs); [lia |].
    exists q. split; [done |]. by apply (Hstep j c).
Qed.

Lemma path_from_store step best h w k path c p path' :
  path_from step best h w k path →
  0 ≤ k < h - 1 →
  load path (k + 1) = Some c → step k c p →
  store path k p = Some path' →
  path_from step best h w (k - 1) path'.
Proof.
  intros (Hl & (pb & Hpb & Hfm) & Hsteps) Hk Hc Hs Hst.
  split; [| split].
  - rewrite (store_length _ _ _ _ Hst). done.
  - exists pb. split; [| done].
    rewrite (load_store_ne _ _ _ _ _ Hst) by lia. done.
  - intros j Hj. destruct (decide (j = k)) as [-> | Hne].
    + exists c, p. split; [| split; [| done]].
      * rewrite (load_store_ne _ _ _ _ _ Hst) by lia. done.
      * by apply (load_store_eq _ _ _ _ Hst).
    + destruct (Hsteps j) as (c' & p' & H1 & H2 & H3); [lia |].
      exists c', p'. split; [| split; [| done]].
      * rewrite (load_store_ne _ _ _ _ _ Hst) by lia. done.
      * rewrite (load_store_ne _ _ _ _ _ Hst) by lia. done.
Qed.

Lemma rp_step_range best w j c p : rp_step best w j c p → 0 ≤ p < w.
Proof.
  intros [Hc ->]. destruct (rp_pick_spec best w j c Hc) as [[_ ?] _]. done.
Qed.

Lemma recover_path_spec best h w fresh :
  below_sentinel best = true → Z.of_nat (length best) = h * w →
  1 ≤ h → 1 ≤ w → Z.of_nat (length fresh) = h →
  ∃ path, recover_path best h w fresh = Some path
    ∧ path_from (rp_step best w) best h w (-1) path.
Proof.
  intros Hs Hlen Hh Hw Hfresh. unfold recover_path.
  match goal with
  | |- context [for_down ?hi ?lo ?f ?s] =>
      destruct (for_down_inv
        (λ k (st : list Z * option Z),
           (k = h - 1 ∧ Z.of_nat (length st.1) = h)
           ∨ (k < h - 1 ∧ path_from (rp_step best w) best h w k st.1
              ∧ st.2 = load st.1 (k + 1)))
        f hi lo s) as ([path xc] & -> & Hpost); [lia | | |]
  end.
  { left. done. }
  { intros k [path xc] Hk [[-> Hpl] | (Hlt & Hpf & Hxc)]; simpl in *.
    - destruct (rp_bottom_row best h w path xc Hs Hlen Hh Hw Hpl)
        as (l & path' & p & -> & Hl' & Hp & Hfm).
      simpl. eexists. split; [done |]. right. simpl.
      split; [lia |]. split.
      + split; [done |]. split; [eauto |]. intros; lia.
      + replace (h - 1 - 1 + 1) with (h - 1) by lia. done.
    - destruct (path_from_entry _ _ _ _ _ _ (k + 1) Hpf
                  (rp_step_range best w)) as (c & Hc & Hcr); [lia |].
      rewrite Hxc, Hc.
      destruct (rp_upper_row best h w k c path Hs Hlen ltac:(lia) Hcr
                  (proj1 Hpf)) as (l & path' & -> & Hst).
      simpl. eexists. split; [done |]. right. simpl.
      split; [lia |]. split.
      + apply (path_from_store _ _ _ _ _ _ c (rp_pick best w k c) _ Hpf);
          try done; try lia.
      + replace (k - 1 + 1) with k by lia.
        symmetry. by apply (load_store_eq _ _ _ _ Hst). }
  simpl. exists path. split; [done |].
  destruct Hpost as [[? _] | (_ & Hpf & _)]; [lia | done].
Qed.

End recover_path_loop.

(** ** Uniqueness: the seam does not depend on the fresh block *)

Lemma first_min_unique best w j p p' :
  first_min best w j p → first_min best w j p' → p = p'.
Proof.
  intros (Hr & Hall & Hfirst) (Hr' & Hall' & Hfirst').
  destruct (Z.lt_trichotomy p p') as [Hlt | [-> | Hgt]]; [| done |].
  - pose proof (Hfirst' p ltac:(lia)). pose proof (Hall p' ltac:(lia)). lia.
  - pose proof (Hfirst p' ltac:(lia)). pose proof (Hall' p ltac:(lia)). lia.
Qed.

Lemma load_ext (l l' : list Z) :
  length l = length l' →
  (∀ k, 0 ≤ k < Z.of_nat (length l) → load l k = load l' k) →
  l = l'.
Proof.
  intros Hlen Hext. apply list_eq. intros n.
  destruct (decide (n < length l)%nat) as [Hn | Hn].
  - specialize (Hext (Z.of_nat n) ltac:(lia)).
    rewrite !load_lookup in Hext by lia. by rewrite Nat2Z.id in Hext.
  - rewrite !lookup_ge_None_2 by lia. done.
Qed.

Lemma path_from_unique step best h w path path' :
  (∀ j c p p', step j c p → step j c p' → p = p') →
  1 ≤ h →
  path_from step best h w (-1) path →
  path_from step best h w (-1) path' →
  path = path'.
Proof.
  intros Hfun Hh (Hl & (pb & Hpb & Hfm) & Hsteps)
    (Hl' & (pb' & Hpb' & Hfm') & Hsteps').
  assert (∀ n : nat, ∀ j, j = h - 1 - Z.of_nat n → 0 ≤ j →
            load path j = load path' j) as Hall.
  { induction n as [| n IH]; intros j Hj Hpos.
    - replace j with (h - 1) by lia. rewrite Hpb, Hpb'. f_equal.
      by apply (first_min_unique best w (h - 1)).
    - destruct (Hsteps j) as (c & p & Hc & Hp & Hs); [lia |].
      destruct (Hsteps' j) as (c' & p' & Hc' & Hp' & Hs'); [lia |].
      rewrite Hp, Hp'. f_equal.
      assert (c = c') as <-.
      { pose proof (IH (j + 1) ltac:(lia) ltac:(lia)) as He.
        rewrite Hc, Hc' in He. by injection He. }
      by apply (Hfun j c). }
  apply load_ext; [lia |].
  intros k Hk. apply (Hall (Z.to_nat (h - 1 - k))); lia.
Qed.

(** ** The seam finders *)

Lemma wasm_step_functional best w j c p p' :
  wasm_step best w j c p → wasm_step best w j c p' → p = p'.
Proof.
  intros [Hm [Hc Hl]] [Hm' [Hc' Hl']].
  pose proof Hm as [[Hp1 Hp2] _]. pose proof Hm' as [[Hq1 Hq2] _].
  assert (p = c - 1 ∨ p = c ∨ p = c + 1) as [-> | [-> | ->]] by lia;
    assert (p' = c - 1 ∨ p' = c ∨ p' = c + 1) as [-> | [-> | ->]] by lia;
    try done.
  all: try (pose proof (Hc Hm'); lia).
  all: try (pose proof (Hc' Hm); lia).
  all: assert (¬ adjacent_min best w j c c) as Hn
    by (intros Hcc; first [specialize (Hc Hcc) | specialize (Hc' Hcc)]; lia).
  - specialize (Hl' Hm Hn). lia.
  - specialize (Hl Hm' Hn). lia.
Qed.

Lemma rp_step_functional best w j c p p' :
  rp_step best w j c p → rp_step best w j c p' → p = p'.
Proof. intros [_ ->] [_ ->]. done. Qed.

Lemma rp_path_tie_break best h w path :
  path_from (rp_step best w) best h w (-1) path →
  seam_tie_break best h w path.
Proof.
  intros (_ & Hbottom & Hsteps). split; [done |].
  intros j Hj. destruct (Hsteps j) as (c & p & Hc & Hp & Hr & ->); [lia |].
  exists c, (rp_pick best w j c). split; [done |]. split; [done |].
  by apply rp_pick_spec.
Qed.

Lemma wasm_path_tie_break best h w path :
  seam_from best h w (-1) path → seam_tie_break best h w path.
Proof.
  intros (_ & Hbottom & Hsteps). split; [done |].
  intros j Hj.
  destruct (Hsteps j) as (c & p & Hc & Hp & [Ha Hm] & Htb); [lia |].
  exists c, p. done.
Qed.

(** X16.  The seam of [seam_carve] obeys the invariant of the data model,
    for every cost table: the sibling of [recover_path] that does what it
    misses. *)
Lemma seam_carve_path_minimal best h w fresh :
  1 ≤ h → 1 ≤ w →
  has_size best (h * w) = true → has_size fresh h = true →
  ∃ path, Wasm.seam_carve_path best h w fresh = Some path
    ∧ seam_minimal best h w path.
Proof.
  intros Hh Hw Hbest Hfresh. zbool.
  destruct (seam_carve_path_spec best h w fresh)
    as (path & Hrun & _ & Hbottom & Hsteps); try done.
  exists path. split; [done |]. split; [done |].
  intros j Hj. destruct (Hsteps j) as (c & p & Hc & Hp & Hm & _); [lia |].
  exists c, p. done.
Qed.

(** C5.  The tie-breaking of both seam finders follows the documented
    order and does not depend on what the fresh [path] block holds: the
    bottom entry is the lowest column among those of least cost in the
    bottom row; above it, with [c = path[j + 1]], the entry is [c] whenever
    [c] is of least cost among the columns adjacent to [c], and [c - 1]
    whenever [c - 1] is and [c] is not. *)
Theorem seam_finders_break_ties_in_documented_order best h w fresh :
  1 ≤ h → 1 ≤ w →
  has_size best (h * w) = true → below_sentinel best = true →
  has_size fresh h = true →
  (∃ path, Seamcarving.recover_path best h w fresh = Some path
     ∧ seam_tie_break best h w path
     ∧ ∀ fresh', has_size fresh' h = true →
         Seamcarving.recover_path best h w fresh' = Some path)
  ∧ (∃ path, Wasm.seam_carve_path best h w fresh = Some path
       ∧ seam_tie_break best h w path
       ∧ ∀ fresh', has_size fresh' h = true →
           Wasm.seam_carve_path best h w fresh' = Some path).
Proof.
  intros Hh Hw Hbest Hs Hfresh. zbool. split.
  - destruct (recover_path_spec best h w fresh) as (path & Hrun & Hpf);
      try done.
    exists path. split; [done |]. split; [by apply rp_path_tie_break |].
    intros fresh' Hfresh'. zbool.
    destruct (recover_path_spec best h w fresh') as (path' & Hrun' & Hpf');
      try done.
    rewrite Hrun'. f_equal.
    apply (path_from_unique (rp_step best w) best h w); try done.
    apply rp_step_functional.
  - destruct (seam_carve_path_spec best h w fresh) as (path & Hrun & Hpf);
      try done.
    exists path. split; [done |]. split; [by apply wasm_path_tie_break |].
    intros fresh' Hfresh'. zbool.
    destruct (seam_carve_path_spec best h w fresh')
      as (path' & Hrun' & Hpf'); try done.
    rewrite Hrun'. f_equal.
    apply (path_from_unique (wasm_step best w) best h w); try done.
    apply wasm_step_functional.
Qed.

(** C1, on the failing input.  On the cost table of [raster_2x3],
    [recover_path] returns the seam [1; 1] although column 2, adjacent to
    [path[1] = 1], holds cost 0 in row 0 and column 1 holds 44: the seam
    breaks the invariant, whereas the backtracking of [seam_carve] returns
    [2; 1] on the same table. *)
Theorem recover_path_skips_zero_cost_neighbour g1 g2 g3 :
  (grad ← Seamcarving.calc_energy raster_2x3 (uninit g1 18);
   Seamcarving.dynamic_seam grad (uninit g2 6))
  = Some [44; 44; 0; 44; 0; 0]
  ∧ Seamcarving.recover_path [44; 44; 0; 44; 0; 0] 2 3 (uninit g3 2)
    = Some [1; 1]
  ∧ ¬ seam_minimal [44; 44; 0; 44; 0; 0] 2 3 [1; 1]
  ∧ Wasm.seam_carve_path [44; 44; 0; 44; 0; 0] 2 3 (uninit g3 2)
    = Some [2; 1].
Proof.
  split; [reflexivity |]. split; [reflexivity |]. split; [| reflexivity].
  intros [_ Hsteps].
  destruct (Hsteps 0 ltac:(lia)) as (c & p & Hc & Hp & _ & Hmin).
  injection Hc as <-. injection Hp as <-.
  specialize (Hmin 2 ltac:(unfold adjacent; lia)).
  vm_compute in Hmin. done.
Qed.

(** C2, on the failing input.  On the energy map of [raster_3x1], a raster
    of one column, [dynamic_seam] adds to the energy of each row below the
    first the smaller of the cost above and of what the fresh block holds
    in the very cell being written: with a zeroed block the table is
    [44; 44; 0], where the recurrence gives [44; 88; 88].  The table of
    [seam_carve] has the same defect. *)
Theorem dynamic_seam_one_column_reads_unwritten_cell g gb :
  Seamcarving.calc_energy raster_3x1 (uninit g 9) = Some energy_3x1
  ∧ Seamcarving.dynamic_seam energy_3x1 (uninit gb 3)
    = Some [44;
            44 + min_2 (gb 1%nat) 44;
            0 + min_2 (gb 2%nat) (44 + min_2 (gb 1%nat) 44)]
  ∧ Seamcarving.dynamic_seam energy_3x1 (uninit (λ _, 0) 3)
    = Some [44; 44; 0]
  ∧ ¬ dp_cell (λ j i, Seamcarving.get_pixel energy_3x1 j i 0)
        [44; 44; 0] 1 1 0
  ∧ (energy_map ← Wasm.calc_energy rgba_3x1 (uninit g 12) 3 1;
     Wasm.seam_carve_cost energy_map 3 1 (uninit gb 3))
    = Some [44;
            44 + min_2 (gb 1%nat) 44;
            0 + min_2 (gb 2%nat) (44 + min_2 (gb 1%nat) 44)].
Proof.
  split; [reflexivity |]. split; [reflexivity |]. split; [reflexivity |].
  split; [| vm_compute; reflexivity].
  intros (e & m & He & Hl & (i' & [Ha Hr] & Hm) & _).
  vm_compute in He. injection He as <-.
  assert (i' = 0) as -> by lia.
  vm_compute in Hm. subst m. vm_compute in Hl. done.
Qed.

(** ** Every table of the dynamic program is below the sentinel *)

Lemma dp_upto_bounded energy h w best :
  1 ≤ h → 1 ≤ w →
  (∀ j i, 0 ≤ j < h → 0 ≤ i < w →
     ∃ v, energy j i = Some v ∧ 0 ≤ v ≤ 255) →
  dp_upto energy h w h 0 best →
  ∀ j i, 0 ≤ j < h → 0 ≤ i < w →
    0 ≤ cost_at best w j i ≤ 255 * (j + 1).
Proof.
  intros Hh Hw He (Hlen & Hr0 & Hcells).
  assert (∀ n : nat, ∀ j i, j = Z.of_nat n → 0 ≤ j < h → 0 ≤ i < w →
            0 ≤ cost_at best w j i ≤ 255 * (j + 1)) as Hall.
  { induction n as [| n IH]; intros j i Hn Hj Hi.
    - subst j. change (Z.of_nat 0) with 0 in *.
      destruct (He 0 i) as (v & Hv & Hvb); [lia | done |].
      unfold cost_at. replace (0 * w + i) with i by lia.
      rewrite Hr0, Hv by done. simpl. lia.
    - destruct (Hcells j i) as (e & m & Hen & Hl & (i' & [_ Hi'] & Hm) & _);
        [lia | done | left; lia |].
      destruct (He j i) as (v & Hv & Hvb); [lia | done |].
      assert (e = v) as -> by congruence.
      rewrite (cost_at_load _ _ _ _ _ Hl).
      pose proof (IH (j - 1) i' ltac:(lia) ltac:(lia) Hi'). lia. }
  intros j i Hj Hi. apply (Hall (Z.to_nat j)); lia.
Qed.

Lemma bounded_below_sentinel best h w :
  1 ≤ w → h < 2 ^ 31 → Z.of_nat (length best) = h * w →
  (∀ j i, 0 ≤ j < h → 0 ≤ i < w →
     0 ≤ cost_at best w j i ≤ 255 * (j + 1)) →
  below_sentinel best = true.
Proof.
  intros Hw Hh Hlen Hb. apply forallb_forall.
  intros x Hx%list_elem_of_In. apply list_elem_of_lookup in Hx as [n Hn].
  pose proof (lookup_lt_Some _ _ _ Hn) as Hlt.
  set (k := Z.of_nat n).
  assert (0 ≤ k < h * w) as Hk by lia.
  pose proof (Z.div_mod k w ltac:(lia)) as Hdm.
  pose proof (Z.mod_pos_bound k w ltac:(lia)) as Hmod.
  assert (0 ≤ k / w < h) as Hdiv.
  { split; [apply Z.div_pos; lia |]. apply Z.div_lt_upper_bound; lia. }
  pose proof (Hb (k / w) (k mod w) Hdiv Hmod) as Hc.
  assert (cost_at best w (k / w) (k mod w) = x) as Hcx.
  { apply cost_at_load. replace (k / w * w + k mod w) with k by lia.
    rewrite load_lookup by lia. unfold k. by rewrite Nat2Z.id. }
  rewrite Hcx in Hc. apply Z.ltb_lt.
  assert (255 * (k / w + 1) ≤ 255 * 2 ^ 31) by lia.
  assert (255 * 2 ^ 31 < 10 ^ 16) by (vm_compute; done).
  lia.
Qed.

Section pipeline.
Import Seamcarving.

(** X17.  The seam of the four stages obeys the documented tie-breaking
    order on every raster of at least two columns: the table that
    [dynamic_seam] builds is below the sentinel of [recover_path]. *)
Lemma four_stages_seam_tie_break im f :
  wf_rgb im = true → 2 ≤ width im → height im < 2 ^ 31 →
  has_size (fresh_grad f) (3 * height im * width im) = true →
  has_size (fresh_cost f) (height im * width im) = true →
  has_size (fresh_seam f) (height im) = true →
  ∃ grad best path,
    calc_energy im (fresh_grad f) = Some grad
    ∧ dynamic_seam grad (fresh_cost f) = Some best
    ∧ below_sentinel best = true
    ∧ recover_path best (height im) (width im) (fresh_seam f) = Some path
    ∧ seam_tie_break best (height im) (width im) path.
Proof.
  intros Hwf Hw2 Hh31 Hfg Hfc Hfs. zbool.
  pose proof (wf_rgb_inv _ Hwf) as (Hh & Hw & Hlen & Hb).
  destruct (calc_energy_correct im (fresh_grad f) Hwf Hfg)
    as (grad & Hgrad & Hgh & Hgw & Hgl & Hpix).
  assert (∀ j i, 0 ≤ j < height im → 0 ≤ i < width im →
            ∃ v, get_pixel grad j i 0 = Some v ∧ 0 ≤ v ≤ 255) as Hen.
  { intros j i Hj Hi.
    destruct (grad_sq_at_is_Some im j i Hwf Hj Hi)
      as (gx & gy & Hg & Hgx & Hgy).
    destruct (energy_bound gx gy Hgx Hgy) as (He & Hn).
    exists (energy_norm_of (energy_of (gx, gy))). split.
    - apply Hpix; try done; try lia.
    - unfold energy_norm_of, energy_of. simpl. rewrite u8_small; lia. }
  destruct (dp_fill_correct (λ j i, get_pixel grad j i 0)
              (height im) (width im) (fresh_cost f))
    as (best & Hbest & Hupto); try done.
  { intros j i Hj Hi. destruct (Hen j i Hj Hi) as (v & -> & _). done. }
  assert (below_sentinel best = true) as Hs.
  { apply (bounded_below_sentinel best (height im) (width im));
      [lia | done | apply Hupto |].
    apply (dp_upto_bounded (λ j i, get_pixel grad j i 0)); try done; lia. }
  destruct (recover_path_spec best (height im) (width im) (fresh_seam f))
    as (path & Hpath & Hpf); try done; try lia.
  { apply Hupto. }
  exists grad, best, path. split; [done |]. split.
  { rewrite dynamic_seam_dp, Hgh, Hgw. done. }
  split; [done |]. split; [done |]. by apply rp_path_tie_break.
Qed.

End pipeline.

(** ** The composed operation against the four stages *)

Section composed.
Import Wasm.

Lemma seam_carve_seam_valid src h w f :
  wf_rgba src h w = true → wf_fresh f h w = true →
  ∃ path, seam_carve_seam src h w f = Some path
    ∧ ∀ j, 0 ≤ j < h → ∃ pj, load path j = Some pj ∧ 0 ≤ pj < w.
Proof.
  intros Hwf Hf. unfold wf_fresh in Hf. zbool.
  pose proof (wf_rgba_inv _ _ _ Hwf) as (Hh & Hw & Hlen & Hb).
  unfold seam_carve_seam.
  destruct (calc_energy4_correct src (fresh_energy f) h w Hwf)
    as (energy_map & -> & Hel & _); [done |]. simpl.
  rewrite seam_carve_cost_dp.
  destruct (dp_fill_total (λ j i, get_pixel energy_map w j i 0) h w
              (fresh_best f)) as (best & -> & Hbl); try done.
  { intros j i Hj Hi.
    destruct (get_pixel4_is_Some energy_map h w j i 0) as [v ->];
      try done. }
  simpl.
  destruct (seam_carve_path_spec best h w (fresh_path f))
    as (path & -> & Hpf); try done.
  exists path. split; [done |]. intros j Hj.
  apply (seam_from_valid best h w (-1)); [done | lia].
Qed.

(** C10.  [seam_carve] returns a buffer in which every pixel of the source
    that is not on the seam sits at its column (one further left when it
    was right of the seam) with its four channel values, alpha included. *)
Theorem seam_carve_keeps_four_channels src h w f :
  wf_rgba src h w = true → wf_fresh f h w = true →
  ∃ path output,
    seam_carve_seam src h w f = Some path
    ∧ seam_carve src h w f = Some output
    ∧ ∀ j i, 0 ≤ j < h → 0 ≤ i < w →
        ∃ pj, load path j = Some pj ∧ 0 ≤ pj < w
          ∧ (i ≠ pj → ∀ c, 0 ≤ c < 4 →
               ∃ v, get_pixel src w j i c = Some v
                 ∧ get_pixel output (w - 1) j (if i <? pj then i else i - 1) c
                   = Some v).
Proof.
  intros Hwf Hf.
  destruct (seam_carve_seam_valid src h w f Hwf Hf) as (path & Hseam & Hv).
  unfold wf_fresh in Hf. zbool.
  pose proof (wf_rgba_inv _ _ _ Hwf) as (Hh & Hw & Hlen & Hb).
  destruct (seam_carve_copy_correct src h w path (fresh_output f) Hwf Hv)
    as (output & Hcopy & _ & Hpix); [done |].
  exists path, output. split; [done |]. split.
  { unfold seam_carve. rewrite Hseam. done. }
  intros j i Hj Hi. destruct (Hv j Hj) as (pj & Hpj & Hr).
  exists pj. split; [done |]. split; [done |]. intros Hne c Hc.
  destruct (get_pixel4_is_Some src h w j i c) as [v Hsrc]; try done.
  exists v. split; [done |].
  rewrite <- Hsrc. apply (Hpix j i c pj); try done. left. lia.
Qed.

End composed.

(** C6, on the failing input.  On [raster_2x3] the two implementations
    build the same cost table, but the composition of the four stages finds
    the seam [1; 1] and keeps the white pixel of row 0, while [seam_carve],
    on the same pixels with an alpha channel, finds the seam [2; 1] and
    removes it. *)
Theorem seam_carve_differs_from_four_stages s1 s2 s3 s4 g1 g2 g3 g4 :
  rgb_of_rgba rgba_2x3 = raster raster_2x3
  ∧ (grad ← Seamcarving.calc_energy raster_2x3 (uninit s1 18);
     Seamcarving.dynamic_seam grad (uninit s2 6))
    = Some [44; 44; 0; 44; 0; 0]
  ∧ (energy_map ← Wasm.calc_energy rgba_2x3 (uninit g1 24) 2 3;
     Wasm.seam_carve_cost energy_map 2 3 (uninit g2 6))
    = Some [44; 44; 0; 44; 0; 0]
  ∧ four_stages raster_2x3
      (mk_stage_blocks (uninit s1 18) (uninit s2 6) (uninit s3 2)
         (uninit s4 12))
    = Some ([1; 1],
            mk_img [0; 0; 0;  255; 255; 255;  0; 0; 0;  0; 0; 0] 2 2)
  ∧ Wasm.seam_carve_seam rgba_2x3 2 3
      (Wasm.mk_fresh (uninit g1 24) (uninit g2 6) (uninit g3 2)
         (uninit g4 16))
    = Some [2; 1]
  ∧ (output ← Wasm.seam_carve rgba_2x3 2 3
       (Wasm.mk_fresh (uninit g1 24) (uninit g2 6) (uninit g3 2)
          (uninit g4 16));
     Some (rgb_of_rgba output))
    = Some [0; 0; 0;  0; 0; 0;  0; 0; 0;  0; 0; 0].
Proof. repeat split; vm_compute; reflexivity. Qed.

(** C8.  The 3 x 3 raster of black pixels: the energy map is all zero, the
    cost table is all zero, the seam is [0; 0; 0] and the reduced raster is
    3 x 2 and holds columns 1 and 2 of the original. *)
Theorem black_3x3_scenario g1 g2 g3 g4 :
  Seamcarving.calc_energy black_3x3 (uninit g1 27)
  = Some (mk_img (repeat 0 27%nat) 3 3)
  ∧ Seamcarving.dynamic_seam (mk_img (repeat 0 27%nat) 3 3) (uninit g2 9)
    = Some (repeat 0 9%nat)
  ∧ Seamcarving.recover_path (repeat 0 9%nat) 3 3 (uninit g3 3)
    = Some [0; 0; 0]
  ∧ ∃ dest,
      Seamcarving.remove_seam black_3x3 (uninit g4 18) [0; 0; 0] = Some dest
      ∧ height dest = 3 ∧ width dest = 2
      ∧ ∀ j i c, 0 ≤ j < 3 → 0 ≤ i < 2 → 0 ≤ c < 3 →
          Seamcarving.get_pixel dest j i c
          = Seamcarving.get_pixel black_3x3 j (i + 1) c.
Proof.
  split; [vm_compute; reflexivity |]. split; [vm_compute; reflexivity |].
  split; [vm_compute; reflexivity |].
  exists (mk_img (repeat 0 18%nat) 3 2).
  split; [vm_compute; reflexivity |]. split; [reflexivity |].
  split; [reflexivity |].
  intros j i c Hj Hi Hc.
  assert (j = 0 ∨ j = 1 ∨ j = 2) as [-> | [-> | ->]] by lia;
    assert (i = 0 ∨ i = 1) as [-> | ->] by lia;
    assert (c = 0 ∨ c = 1 ∨ c = 2) as [-> | [-> | ->]] by lia;
    vm_compute; reflexivity.
Qed.

(** ** Instances *)

Section instances.
Import Seamcarving.

Lemma remove_seam_shifts_left_witness :
  wf_rgb raster_2x2 = true ∧ 2 ≤ width raster_2x2
  ∧ valid_seam [1; 0] (height raster_2x2) (width raster_2x2) = true
  ∧ has_size (repeat 0 6%nat) (3 * height raster_2x2 * (width raster_2x2 - 1))
    = true
  ∧ ∃ dest, remove_seam raster_2x2 (repeat 0 6%nat) [1; 0] = Some dest
      ∧ height dest = height raster_2x2
      ∧ width dest = width raster_2x2 - 1
      ∧ Z.of_nat (length (raster dest)) = 3 * height dest * width dest
      ∧ ∀ j i c, 0 ≤ j < height raster_2x2 →
          0 ≤ i < width raster_2x2 - 1 → 0 ≤ c < 3 →
          ∃ pj v, load [1; 0] j = Some pj
            ∧ get_pixel raster_2x2 j (if i <? pj then i else i + 1) c
              = Some v
            ∧ get_pixel dest j i c = Some v.
Proof.
  split; [reflexivity |]. split; [simpl; lia |]. split; [reflexivity |].
  split; [reflexivity |].
  apply (remove_seam_shifts_left raster_2x2 (repeat 0 6%nat) [1; 0]);
    [reflexivity | simpl; lia | reflexivity | reflexivity].
Defined.

(** C4 as stated fails: a seam with a column outside the raster and a seam
    longer than the raster is high are both carved without complaint. *)
Lemma remove_seam_accepts_invalid_seam :
  valid_seam [2; 0] (height raster_2x2) (width raster_2x2) = false
  ∧ remove_seam raster_2x2 (repeat 0 6%nat) [2; 0]
    = Some (mk_img [1; 2; 3; 10; 11; 12] 2 1)
  ∧ valid_seam [1; 0; 1] (height raster_2x2) (width raster_2x2) = false
  ∧ remove_seam raster_2x2 (repeat 0 6%nat) [1; 0; 1]
    = Some (mk_img [1; 2; 3; 10; 11; 12] 2 1).
Proof. repeat split; reflexivity. Qed.

Lemma remove_seam_ignores_path_length_witness :
  wf_rgb raster_2x2 = true ∧ 2 ≤ width raster_2x2
  ∧ valid_seam (take (Z.to_nat (height raster_2x2)) [1; 0; 7; 7])
      (height raster_2x2) (width raster_2x2) = true
  ∧ has_size (repeat 0 6%nat) (3 * height raster_2x2 * (width raster_2x2 - 1))
    = true
  ∧ ∃ dest, remove_seam raster_2x2 (repeat 0 6%nat) [1; 0; 7; 7] = Some dest
      ∧ height dest = height raster_2x2
      ∧ width dest = width raster_2x2 - 1
      ∧ ∀ j i c, 0 ≤ j < height raster_2x2 →
          0 ≤ i < width raster_2x2 - 1 → 0 ≤ c < 3 →
          ∃ pj v, load [1; 0; 7; 7] j = Some pj
            ∧ get_pixel raster_2x2 j (if i <? pj then i else i + 1) c
              = Some v
            ∧ get_pixel dest j i c = Some v.
Proof.
  split; [reflexivity |]. split; [simpl; lia |]. split; [reflexivity |].
  split; [reflexivity |].
  apply (remove_seam_ignores_path_length raster_2x2 (repeat 0 6%nat)
           [1; 0; 7; 7]);
    [reflexivity | simpl; lia | reflexivity | reflexivity].
Defined.

Lemma seam_finders_break_ties_in_documented_order_witness :
  1 ≤ 2 ∧ 1 ≤ 3
  ∧ has_size [44; 44; 0; 44; 0; 0] (2 * 3) = true
  ∧ below_sentinel [44; 44; 0; 44; 0; 0] = true
  ∧ has_size [0; 0] 2 = true
  ∧ (∃ path, recover_path [44; 44; 0; 44; 0; 0] 2 3 [0; 0] = Some path
       ∧ seam_tie_break [44; 44; 0; 44; 0; 0] 2 3 path
       ∧ ∀ fresh', has_size fresh' 2 = true →
           recover_path [44; 44; 0; 44; 0; 0] 2 3 fresh' = Some path)
  ∧ (∃ path, Wasm.seam_carve_path [44; 44; 0; 44; 0; 0] 2 3 [0; 0]
             = Some path
       ∧ seam_tie_break [44; 44; 0; 44; 0; 0] 2 3 path
       ∧ ∀ fresh', has_size fresh' 2 = true →
           Wasm.seam_carve_path [44; 44; 0; 44; 0; 0] 2 3 fresh'
           = Some path).
Proof.
  split; [lia |]. split; [lia |]. split; [reflexivity |].
  split; [reflexivity |]. split; [reflexivity |].
  apply (seam_finders_break_ties_in_documented_order
           [44; 44; 0; 44; 0; 0] 2 3 [0; 0]);
    [lia | lia | reflexivity | reflexivity | reflexivity].
Defined.

Lemma calc_energy_stores_truncated_energy_witness :
  wf_rgb raster_2x3 = true
  ∧ has_size (repeat 0 18%nat) (3 * height raster_2x3 * width raster_2x3)
    = true
  ∧ ∃ grad, calc_energy raster_2x3 (repeat 0 18%nat) = Some grad
      ∧ height grad = height raster_2x3 ∧ width grad = width raster_2x3
      ∧ ∀ j i c, 0 ≤ j < height raster_2x3 → 0 ≤ i < width raster_2x3 →
          0 ≤ c < 3 →
          get_pixel grad j i c
          = Some ((Z.sqrt (gradX2 raster_2x3 j i + gradY2 raster_2x3 j i)
                   / 10) mod 256).
Proof.
  split; [reflexivity |]. split; [reflexivity |].
  apply (calc_energy_stores_truncated_energy raster_2x3 (repeat 0 18%nat));
    reflexivity.
Defined.

Lemma energy_cast_never_wraps_witness :
  wf_rgb raster_2x3 = true
  ∧ 0 ≤ 0 < height raster_2x3 ∧ 0 ≤ 1 < width raster_2x3
  ∧ ∃ g, grad_sq_at raster_2x3 0 1 = Some g
      ∧ 0 ≤ energy_of g ≤ 624
      ∧ 0 ≤ energy_of g ÷ 10 ≤ 62
      ∧ energy_norm_of (energy_of g) = energy_of g ÷ 10.
Proof.
  split; [reflexivity |]. split; [simpl; lia |]. split; [simpl; lia |].
  apply (energy_cast_never_wraps raster_2x3 0 1);
    [reflexivity | simpl; lia | simpl; lia].
Defined.

Lemma seam_carve_keeps_four_channels_witness :
  wf_rgba rgba_2x3 2 3 = true ∧ wf_fresh zero_blocks_2x3 2 3 = true
  ∧ ∃ path output,
      Wasm.seam_carve_seam rgba_2x3 2 3 zero_blocks_2x3 = Some path
      ∧ Wasm.seam_carve rgba_2x3 2 3 zero_blocks_2x3 = Some output
      ∧ ∀ j i, 0 ≤ j < 2 → 0 ≤ i < 3 →
          ∃ pj, load path j = Some pj ∧ 0 ≤ pj < 3
            ∧ (i ≠ pj → ∀ c, 0 ≤ c < 4 →
                 ∃ v, Wasm.get_pixel rgba_2x3 3 j i c = Some v
                   ∧ Wasm.get_pixel output (3 - 1) j
                       (if i <? pj then i else i - 1) c
                     = Some v).
Proof.
  split; [reflexivity |]. split; [reflexivity |].
  apply (seam_carve_keeps_four_channels rgba_2x3 2 3 zero_blocks_2x3);
    reflexivity.
Defined.

End instances.

(** * Further properties of the code *)

(** ** The cost table holds the least energy of a connected path *)

Lemma connected_snoc w cols c :
  connected w (cols ++ [c]) = true ↔
  connected w cols = true ∧ in_range w c = true
  ∧ ∀ c', last cols = Some c' → Z.abs (c - c') ≤ 1.
Proof.
  induction cols as [| a rest IH]; simpl.
  - rewrite andb_true_r. split; [intros H; repeat split; done | tauto].
  - destruct rest as [| b rest'].
    + simpl in *. rewrite !andb_true_r. rewrite !andb_true_iff, Z.leb_le.
      split.
      * intros (Ha & Hd & Hc). repeat split; try done.
        intros c' [= <-]. done.
      * intros (Ha & Hc & Hl). repeat split; try done. by apply Hl.
    + change ((b :: rest') ++ [c]) with (b :: (rest' ++ [c])) in *.
      change (last (a :: b :: rest')) with (last (b :: rest')).
      rewrite !andb_true_iff, IH. tauto.
Qed.

Lemma seam_energy_snoc energy j cols c :
  seam_energy energy j (cols ++ [c])
  = seam_energy energy j cols + energy (j + Z.of_nat (length cols)) c.
Proof.
  revert j. induction cols as [| a rest IH]; intros j; simpl.
  - replace (j + Z.of_nat 0) with j by lia. lia.
  - rewrite IH. replace (j + 1 + Z.of_nat (length rest))
      with (j + Z.of_nat (S (length rest))) by lia. lia.
Qed.

Lemma snoc_cases (l : list Z) :
  l = [] ∨ ∃ l' x, l = l' ++ [x].
Proof.
  induction l as [| l' x _] using rev_ind; [by left | right; eauto].
Qed.

(** Every connected path from the top row to cell [(j, i)] costs at least
    what the table holds there, and one of them costs exactly that. *)
Lemma dp_upto_least_path energy h w best :
  1 ≤ h → 1 ≤ w →
  (∀ j i, 0 ≤ j < h → 0 ≤ i < w → is_Some (energy j i)) →
  dp_upto energy h w h 0 best →
  ∀ n : nat, ∀ i, Z.of_nat n < h → 0 ≤ i < w →
    (∀ cols, length cols = S n → connected w cols = true →
       last cols = Some i →
       cost_at best w (Z.of_nat n) i
       ≤ seam_energy (energy_or_0 energy) 0 cols)
    ∧ ∃ cols, length cols = S n ∧ connected w cols = true
        ∧ last cols = Some i
        ∧ seam_energy (energy_or_0 energy) 0 cols
          = cost_at best w (Z.of_nat n) i.
Proof.
  intros Hh Hw He (Hlen & Hr0 & Hcells).
  induction n as [| n IH]; intros i Hn Hi.
  - assert (cost_at best w (Z.of_nat 0) i = energy_or_0 energy 0 i) as Hc.
    { unfold cost_at, energy_or_0. change (Z.of_nat 0) with 0.
      replace (0 * w + i) with i by lia. by rewrite Hr0. }
    split.
    + intros cols Hl Hconn Hlast.
      destruct cols as [| c [| ? ?]]; try done.
      simpl in *. injection Hlast as ->. rewrite Hc. lia.
    + exists [i]. simpl. rewrite Hc.
      unfold in_range.
      rewrite (proj2 (Z.leb_le 0 i)), (proj2 (Z.ltb_lt i w)) by lia.
      repeat split; try done. lia.
  - destruct (Hcells (Z.of_nat (S n)) i) as (e & m & Hen & Hl & Hm);
      [lia | done | left; lia |].
    rewrite (cost_at_load _ _ _ _ _ Hl).
    assert (energy_or_0 energy (Z.of_nat (S n)) i = e) as Hee.
    { unfold energy_or_0. by rewrite Hen. }
    replace (Z.of_nat (S n) - 1) with (Z.of_nat n) in Hm by lia.
    destruct Hm as [(i0 & Hadj0 & Hi0) Hmin].
    split.
    + intros cols Hlc Hconn Hlast.
      destruct (snoc_cases cols) as [-> | (cols' & x & ->)]; [done |].
      rewrite last_snoc in Hlast. injection Hlast as ->.
      rewrite length_app in Hlc. simpl in Hlc.
      apply connected_snoc in Hconn as (Hc' & Hir & Hadj).
      rewrite seam_energy_snoc.
      replace (0 + Z.of_nat (length cols')) with (Z.of_nat (S n)) by lia.
      rewrite Hee.
      destruct (snoc_cases cols') as [-> | (cols'' & c' & Hcols')].
      { simpl in Hlc. lia. }
      assert (last cols' = Some c') as Hlast'.
      { rewrite Hcols'. apply last_snoc. }
      specialize (Hadj c' Hlast').
      assert (0 ≤ c' < w) as Hc'r.
      { rewrite Hcols' in Hc'. apply connected_snoc in Hc' as (_ & Hr & _).
        unfold in_range in Hr. zbool. lia. }
      destruct (IH c' ltac:(lia) Hc'r) as [Hlow _].
      specialize (Hlow cols' ltac:(lia) Hc' Hlast').
      specialize (Hmin c' ltac:(unfold adjacent; lia)). lia.
    + destruct Hadj0 as [Ha0 Hr0'].
      destruct (IH i0 ltac:(lia) Hr0') as [_ (cols & Hlc & Hconn & Hlast & Hsum)].
      exists (cols ++ [i]). rewrite length_app, last_snoc. simpl.
      split; [lia |]. split.
      { apply connected_snoc. split; [done |]. split.
        - unfold in_range.
          rewrite (proj2 (Z.leb_le 0 i)), (proj2 (Z.ltb_lt i w)) by lia. done.
        - intros c' Hc'. assert (c' = i0) as -> by congruence. lia. }
      split; [done |].
      rewrite seam_energy_snoc, Hsum.
      replace (0 + Z.of_nat (length cols)) with (Z.of_nat (S n)) by lia.
      rewrite Hee, Hi0. lia.
Qed.

(** The seam that the backtracking of [seam_carve] reads off a table of
    the dynamic program is connected, and its energy is the entry of the
    table at its bottom column. *)
Lemma seam_from_prefix_energy energy h w best path :
  1 ≤ h → 1 ≤ w →
  dp_upto energy h w h 0 best →
  (∀ j i, 0 ≤ j < h → 0 ≤ i < w → is_Some (energy j i)) →
  seam_from best h w (-1) path →
  ∀ n : nat, Z.of_nat n < h →
    ∃ p, load path (Z.of_nat n) = Some p ∧ 0 ≤ p < w
      ∧ connected w (take (S n) path) = true
      ∧ seam_energy (energy_or_0 energy) 0 (take (S n) path)
        = cost_at best w (Z.of_nat n) p.
Proof.
  intros Hh Hw (Hlen & Hr0 & Hcells) He Hpf.
  pose proof Hpf as (Hpl & _ & Hsteps).
  induction n as [| n IH]; intros Hn.
  - destruct (seam_from_valid best h w (-1) path 0 Hpf) as (p & Hp & Hr);
      [lia |].
    exists p. change (Z.of_nat 0) with 0. split; [done |]. split; [done |].
    pose proof Hp as Hp'. rewrite load_lookup in Hp' by lia.
    rewrite (take_S_r path 0 p Hp'). simpl.
    unfold in_range.
    rewrite (proj2 (Z.leb_le 0 p)), (proj2 (Z.ltb_lt p w)) by lia.
    split; [done |].
    unfold cost_at, energy_or_0. replace (0 * w + p) with p by lia.
    rewrite Hr0 by done. lia.
  - destruct (IH ltac:(lia)) as (p & Hp & Hr & Hconn & Hsum).
    destruct (Hsteps (Z.of_nat n)) as (c & p' & Hc & Hp'' & Hmin & _);
      [lia |].
    assert (p' = p) as -> by congruence.
    replace (Z.of_nat n + 1) with (Z.of_nat (S n)) in Hc by lia.
    destruct (seam_from_valid best h w (-1) path (Z.of_nat (S n)) Hpf)
      as (c' & Hc' & Hcr); [lia |].
    assert (c' = c) as -> by congruence.
    exists c. split; [done |]. split; [done |].
    pose proof Hc as Hcl. rewrite load_lookup in Hcl by lia.
    rewrite Nat2Z.id in Hcl.
    rewrite (take_S_r path (S n) c Hcl).
    assert (last (take (S n) path) = Some p) as Hlast.
    { pose proof Hp as Hpl'. rewrite load_lookup in Hpl' by lia.
      rewrite Nat2Z.id in Hpl'.
      rewrite (take_S_r path n p Hpl'). apply last_snoc. }
    destruct Hmin as [[Hadj Hpr] Hleast].
    split.
    { apply connected_snoc. split; [done |]. split.
      - unfold in_range.
        rewrite (proj2 (Z.leb_le 0 c)), (proj2 (Z.ltb_lt c w)) by lia. done.
      - intros q Hq. assert (q = p) as -> by congruence. lia. }
    rewrite seam_energy_snoc, Hsum.
    assert (length (take (S n) path) = S n) as ->.
    { rewrite length_take. lia. }
    destruct (Hcells (Z.of_nat (S n)) c) as (e & m & Hen & Hl & Hm);
      [lia | done | left; lia |].
    rewrite (cost_at_load _ _ _ _ _ Hl).
    replace (Z.of_nat (S n) - 1) with (Z.of_nat n) in Hm by lia.
    destruct Hm as [(i0 & Hadj0 & Hi0) Hmin0].
    specialize (Hmin0 p ltac:(unfold adjacent; lia)).
    specialize (Hleast i0 Hadj0).
    unfold energy_or_0. replace (0 + Z.of_nat (S n)) with (Z.of_nat (S n)) by lia.
    rewrite Hen. simpl. lia.
Qed.

Lemma seam_from_least_energy energy h w best path :
  1 ≤ h → 1 ≤ w →
  dp_upto energy h w h 0 best →
  (∀ j i, 0 ≤ j < h → 0 ≤ i < w → is_Some (energy j i)) →
  seam_from best h w (-1) path →
  connected w path = true
  ∧ ∀ cols, Z.of_nat (length cols) = h → connected w cols = true →
      seam_energy (energy_or_0 energy) 0 path
      ≤ seam_energy (energy_or_0 energy) 0 cols.
Proof.
  intros Hh Hw Hdp He Hpf.
  pose proof Hpf as (Hpl & (pb & Hpb & Hfm) & _).
  destruct (seam_from_prefix_energy energy h w best path Hh Hw Hdp He Hpf
              (Z.to_nat (h - 1))) as (p & Hp & Hr & Hconn & Hsum); [lia |].
  replace (Z.of_nat (Z.to_nat (h - 1))) with (h - 1) in * by lia.
  assert (p = pb) as -> by congruence.
  rewrite take_ge in Hconn, Hsum by lia.
  split; [done |].
  intros cols Hlc Hcc. rewrite Hsum.
  destruct (snoc_cases cols) as [-> | (cols' & i & ->)].
  { simpl in Hlc. lia. }
  assert (0 ≤ i < w) as Hi.
  { apply connected_snoc in Hcc as (_ & Hir & _).
    unfold in_range in Hir. zbool. lia. }
  destruct (dp_upto_least_path energy h w best Hh Hw He Hdp
              (Z.to_nat (h - 1)) i ltac:(lia) Hi) as [Hlow _].
  replace (Z.of_nat (Z.to_nat (h - 1))) with (h - 1) in * by lia.
  specialize (Hlow (cols' ++ [i])).
  rewrite length_app in Hlc, Hlow. simpl in Hlc, Hlow.
  specialize (Hlow ltac:(lia) Hcc (last_snoc _ _)).
  destruct Hfm as (_ & Hall & _). specialize (Hall i Hi). lia.
Qed.

Section cost_table_theorems.
Import Seamcarving.

(** X9.  Every entry of the table that [dynamic_seam] builds on a map of at
    least two columns is the least total energy of a connected path from
    the top row to that cell: no such path costs less, and one costs
    exactly that. *)
Theorem dynamic_seam_least_path_energy grad fresh j i :
  wf_rgb grad = true → 2 ≤ width grad →
  has_size fresh (height grad * width grad) = true →
  0 ≤ j < height grad → 0 ≤ i < width grad →
  ∃ best, dynamic_seam grad fresh = Some best
    ∧ (∀ cols, Z.of_nat (length cols) = j + 1 →
         connected (width grad) cols = true → last cols = Some i →
         cost_at best (width grad) j i ≤ seam_energy (map_energy grad) 0 cols)
    ∧ ∃ cols, Z.of_nat (length cols) = j + 1
        ∧ connected (width grad) cols = true ∧ last cols = Some i
        ∧ seam_energy (map_energy grad) 0 cols
          = cost_at best (width grad) j i.
Proof.
  intros (Hh & Hw & Hlen & Hb)%wf_rgb_inv Hw2 Hfresh Hj Hi. zbool.
  rewrite dynamic_seam_dp.
  assert (∀ j i, 0 ≤ j < height grad → 0 ≤ i < width grad →
            is_Some (get_pixel grad j i 0)) as He.
  { intros j' i' Hj' Hi'.
    destruct (get_pixel_is_Some grad (height grad) j' i' 0) as [v ->];
      try done. }
  destruct (dp_fill_correct (λ j i, get_pixel grad j i 0)
              (height grad) (width grad) fresh)
    as (best & -> & Hupto); try done; try lia.
  exists best. split; [done |].
  destruct (dp_upto_least_path _ _ _ _ Hh Hw He Hupto (Z.to_nat j) i
              ltac:(lia) Hi) as [Hlow (cols & Hlc & Hcc & Hlast & Hsum)].
  replace (Z.of_nat (Z.to_nat j)) with j in * by lia.
  split.
  - intros cols' Hl' Hc' Hlast'. apply Hlow; try done. lia.
  - exists cols. repeat split; try done. lia.
Qed.

(** X10.  On a map of at least two columns and fewer than 2^31 rows every
    entry of the table of [dynamic_seam] lies between 0 and 255 times the
    number of rows down to it: far below 2^53, where [double] is exact, and
    below the sentinel of [recover_path]. *)
Theorem dynamic_seam_cost_bounds grad fresh :
  wf_rgb grad = true → 2 ≤ width grad → height grad < 2 ^ 31 →
  has_size fresh (height grad * width grad) = true →
  ∃ best, dynamic_seam grad fresh = Some best
    ∧ has_size best (height grad * width grad) = true
    ∧ below_sentinel best = true
    ∧ ∀ j i, 0 ≤ j < height grad → 0 ≤ i < width grad →
        0 ≤ cost_at best (width grad) j i ≤ 255 * (j + 1).
Proof.
  intros (Hh & Hw & Hlen & Hb)%wf_rgb_inv Hw2 Hh31 Hfresh. zbool.
  rewrite dynamic_seam_dp.
  assert (∀ j i, 0 ≤ j < height grad → 0 ≤ i < width grad →
            ∃ v, get_pixel grad j i 0 = Some v ∧ 0 ≤ v ≤ 255) as He.
  { intros j' i' Hj' Hi'.
    destruct (get_pixel_is_Some grad (height grad) j' i' 0) as [v Hv];
      try done.
    exists v. split; [done |].
    pose proof (get_pixel_byte _ _ _ _ _ Hb Hv). lia. }
  destruct (dp_fill_correct (λ j i, get_pixel grad j i 0)
              (height grad) (width grad) fresh)
    as (best & -> & Hupto); try done; try lia.
  { intros j' i' Hj' Hi'. destruct (He j' i' Hj' Hi') as (v & -> & _). done. }
  pose proof (dp_upto_bounded _ _ _ _ Hh Hw He Hupto) as Hbound.
  exists best. split; [done |]. split.
  { unfold has_size. apply Z.eqb_eq. apply Hupto. }
  split; [| done].
  apply (bounded_below_sentinel best (height grad) (width grad));
    try done; try lia. apply Hupto.
Qed.

End cost_table_theorems.

Section wasm_cost_theorems.
Import Wasm.

Lemma seam_carve_cost_upto energy_map h w fresh :
  1 ≤ h → 2 ≤ w →
  Z.of_nat (length energy_map) = 4 * h * w →
  Z.of_nat (length fresh) = h * w →
  ∃ best, seam_carve_cost energy_map h w fresh = Some best
    ∧ dp_upto (λ j i, get_pixel energy_map w j i 0) h w h 0 best.
Proof.
  intros Hh Hw Hl Hfresh. rewrite seam_carve_cost_dp.
  apply dp_fill_correct; try done.
  intros j i Hj Hi.
  destruct (get_pixel4_is_Some energy_map h w j i 0) as [v ->]; try done.
Qed.

(** X11.  The table that [seam_carve] builds on an energy map of at least
    two columns has the energy of row 0 in row 0 and, below it, the energy
    of the cell plus the least entry of the row above among the adjacent
    columns. *)
Theorem seam_carve_cost_recurrence energy_map h w fresh :
  1 ≤ h → 2 ≤ w →
  has_size energy_map (4 * h * w) = true → has_size fresh (h * w) = true →
  ∃ best, seam_carve_cost energy_map h w fresh = Some best
    ∧ (∀ i, 0 ≤ i < w → load best i = get_pixel energy_map w 0 i 0)
    ∧ ∀ j i, 1 ≤ j < h → 0 ≤ i < w →
        ∃ e m, get_pixel energy_map w j i 0 = Some e
          ∧ load best (j * w + i) = Some (e + m)
          ∧ min_over_adjacent best w (j - 1) i m.
Proof.
  intros Hh Hw Hl Hfresh. zbool.
  destruct (seam_carve_cost_upto energy_map h w fresh)
    as (best & -> & _ & Hr0 & Hcells); try done.
  exists best. split; [done |]. split; [done |].
  intros j i Hj Hi. apply Hcells; try done. lia.
Qed.

(** X18.  On a raster of at least two columns [seam_carve] finds a connected
    seam, one column per row, whose total energy is the least among all
    connected seams of the energy map. *)
Theorem seam_carve_finds_least_energy_seam src h w f :
  wf_rgba src h w = true → 2 ≤ w → wf_fresh f h w = true →
  ∃ energy_map path,
    calc_energy src (fresh_energy f) h w = Some energy_map
    ∧ seam_carve_seam src h w f = Some path
    ∧ Z.of_nat (length path) = h
    ∧ connected w path = true
    ∧ ∀ cols, Z.of_nat (length cols) = h → connected w cols = true →
        seam_energy (map4_energy energy_map w) 0 path
        ≤ seam_energy (map4_energy energy_map w) 0 cols.
Proof.
  intros Hwf Hw2 Hf. unfold wf_fresh in Hf. zbool.
  pose proof (wf_rgba_inv _ _ _ Hwf) as (Hh & Hw & Hlen & Hb).
  destruct (calc_energy4_correct src (fresh_energy f) h w Hwf)
    as (energy_map & Hen & Hel & _); [done |].
  destruct (seam_carve_cost_upto energy_map h w (fresh_best f))
    as (best & Hbest & Hupto); try done.
  destruct (seam_carve_path_spec best h w (fresh_path f))
    as (path & Hpath & Hpf); try done.
  { apply Hupto. }
  exists energy_map, path. split; [done |]. split.
  { unfold seam_carve_seam. rewrite Hen. simpl. rewrite Hbest. done. }
  split; [apply Hpf |].
  apply (seam_from_least_energy (λ j i, get_pixel energy_map w j i 0)
           h w best path); try done.
  intros j i Hj Hi.
  destruct (get_pixel4_is_Some energy_map h w j i 0) as [v ->]; try done.
Qed.

End wasm_cost_theorems.

(** ** Seams are valid and connected *)

Lemma in_range_true w c : 0 ≤ c < w → in_range w c = true.
Proof.
  intros Hc. unfold in_range.
  by rewrite (proj2 (Z.leb_le 0 c)), (proj2 (Z.ltb_lt c w)) by lia.
Qed.

Lemma path_from_prefix_connected step best h w path :
  (∀ j c p, step j c p → adjacent w c p) →
  path_from step best h w (-1) path →
  ∀ n : nat, Z.of_nat n < h →
    ∃ p, load path (Z.of_nat n) = Some p ∧ 0 ≤ p < w
      ∧ connected w (take (S n) path) = true.
Proof.
  intros Hstep Hpf.
  assert (∀ j c p, step j c p → 0 ≤ p < w) as Hrange.
  { intros j c p Hs. apply (Hstep j c p Hs). }
  pose proof Hpf as (Hpl & _ & Hsteps).
  induction n as [| n IH]; intros Hn.
  - destruct (path_from_entry step best h w (-1) path 0 Hpf Hrange)
      as (p & Hp & Hr); [lia |].
    exists p. change (Z.of_nat 0) with 0. split; [done |]. split; [done |].
    pose proof Hp as Hp'. rewrite load_lookup in Hp' by lia.
    rewrite (take_S_r path 0 p Hp'). simpl.
    by rewrite in_range_true.
  - destruct (IH ltac:(lia)) as (p & Hp & Hr & Hconn).
    destruct (Hsteps (Z.of_nat n)) as (c & p' & Hc & Hp'' & Hs); [lia |].
    assert (p' = p) as -> by congruence.
    replace (Z.of_nat n + 1) with (Z.of_nat (S n)) in Hc by lia.
    destruct (path_from_entry step best h w (-1) path (Z.of_nat (S n)) Hpf
                Hrange) as (c' & Hc' & Hcr); [lia |].
    assert (c' = c) as -> by congruence.
    exists c. split; [done |]. split; [done |].
    pose proof Hc as Hcl. rewrite load_lookup in Hcl by lia.
    rewrite Nat2Z.id in Hcl.
    rewrite (take_S_r path (S n) c Hcl).
    apply connected_snoc. split; [done |]. split; [by apply in_range_true |].
    intros q Hq.
    pose proof Hp as Hpl'. rewrite load_lookup in Hpl' by lia.
    rewrite Nat2Z.id in Hpl'.
    rewrite (take_S_r path n p Hpl'), last_snoc in Hq.
    injection Hq as <-.
    destruct (Hstep _ _ _ Hs) as [Hadj _]. lia.
Qed.

Lemma path_from_connected step best h w path :
  1 ≤ h →
  (∀ j c p, step j c p → adjacent w c p) →
  path_from step best h w (-1) path →
  connected w path = true.
Proof.
  intros Hh Hstep Hpf.
  destruct (path_from_prefix_connected step best h w path Hstep Hpf
              (Z.to_nat (h - 1))) as (p & _ & _ & Hconn); [lia |].
  destruct Hpf as (Hpl & _). by rewrite take_ge in Hconn by lia.
Qed.

Lemma connected_in_range w cols :
  connected w cols = true → forallb (in_range w) cols = true.
Proof.
  induction cols as [| c rest IH]; [done |]. simpl.
  intros [Hc Hrest]%andb_prop. rewrite Hc. simpl.
  destruct rest as [| c' rest']; [done |].
  apply andb_prop in Hrest as [_ Hrest]. by apply IH.
Qed.

Lemma rp_step_adjacent best w j c p :
  rp_step best w j c p → adjacent w c p.
Proof. intros [Hc ->]. by apply rp_pick_spec. Qed.

Lemma connected_valid_seam w h path :
  Z.of_nat (length path) = h → connected w path = true →
  valid_seam path h w = true.
Proof.
  intros Hl Hc. unfold valid_seam, has_size.
  rewrite (proj2 (Z.eqb_eq _ _) Hl). simpl. by apply connected_in_range.
Qed.

(** X13.  For every table whose entries are below its sentinel,
    [recover_path] returns a path with one column per row, every column
    inside the table and consecutive columns at most one apart. *)
Theorem recover_path_seam_is_connected best h w fresh :
  1 ≤ h → 1 ≤ w →
  has_size best (h * w) = true → below_sentinel best = true →
  has_size fresh h = true →
  ∃ path, Seamcarving.recover_path best h w fresh = Some path
    ∧ valid_seam path h w = true
    ∧ connected w path = true.
Proof.
  intros Hh Hw Hbest Hs Hfresh. zbool.
  destruct (recover_path_spec best h w fresh) as (path & Hrun & Hpf);
    try done.
  assert (connected w path = true) as Hconn.
  { apply (path_from_connected (rp_step best w) best h w); try done.
    apply rp_step_adjacent. }
  exists path. split; [done |]. split; [| done].
  apply connected_valid_seam; [apply Hpf | done].
Qed.

Section pipeline_shape.
Import Seamcarving.

Lemma four_stages_run im f :
  wf_rgb im = true → 2 ≤ width im → height im < 2 ^ 31 →
  Z.of_nat (length (fresh_grad f)) = 3 * height im * width im →
  Z.of_nat (length (fresh_cost f)) = height im * width im →
  Z.of_nat (length (fresh_seam f)) = height im →
  ∃ grad best path,
    calc_energy im (fresh_grad f) = Some grad
    ∧ energy_upto im (height im) 0 grad
    ∧ dynamic_seam grad (fresh_cost f) = Some best
    ∧ dp_upto (λ j i, get_pixel grad j i 0) (height im) (width im)
        (height im) 0 best
    ∧ recover_path best (height im) (width im) (fresh_seam f) = Some path
    ∧ path_from (rp_step best (width im)) best (height im) (width im) (-1)
        path.
Proof.
  intros Hwf Hw2 Hh31 Hfg Hfc Hfs.
  pose proof (wf_rgb_inv _ Hwf) as (Hh & Hw & Hlen & Hb).
  destruct (calc_energy_correct im (fresh_grad f) Hwf Hfg)
    as (grad & Hgrad & Hup).
  pose proof Hup as (Hgh & Hgw & Hgl & Hpix).
  assert (∀ j i, 0 ≤ j < height im → 0 ≤ i < width im →
            ∃ v, get_pixel grad j i 0 = Some v ∧ 0 ≤ v ≤ 255) as Hen.
  { intros j i Hj Hi.
    destruct (grad_sq_at_is_Some im j i Hwf Hj Hi)
      as (gx & gy & Hg & Hgx & Hgy).
    destruct (energy_bound gx gy Hgx Hgy) as (He & Hn).
    exists (energy_norm_of (energy_of (gx, gy))). split.
    - apply Hpix; try done; try lia.
    - unfold energy_norm_of, energy_of. simpl. rewrite u8_small; lia. }
  destruct (dp_fill_correct (λ j i, get_pixel grad j i 0)
              (height im) (width im) (fresh_cost f))
    as (best & Hbest & Hupto); try done.
  { intros j i Hj Hi. destruct (Hen j i Hj Hi) as (v & -> & _). done. }
  assert (below_sentinel best = true) as Hs.
  { apply (bounded_below_sentinel best (height im) (width im));
      [lia | done | apply Hupto |].
    apply (dp_upto_bounded (λ j i, get_pixel grad j i 0)); try done; lia. }
  destruct (recover_path_spec best (height im) (width im) (fresh_seam f))
    as (path & Hpath & Hpf); try done; try lia.
  { apply Hupto. }
  exists grad, best, path. split; [done |]. split; [done |]. split.
  { rewrite dynamic_seam_dp, Hgh, Hgw. done. }
  done.
Qed.

(** X22.  On every raster of at least two columns the four stages compose:
    the call returns a connected seam inside the raster and a raster of
    the same height and one column less, in which every output pixel is
    the input pixel of its column (left of the seam) or of the next column
    (from the seam on). *)
Theorem four_stages_carves_one_column im f :
  wf_rgb im = true → 2 ≤ width im → height im < 2 ^ 31 →
  has_size (fresh_grad f) (3 * height im * width im) = true →
  has_size (fresh_cost f) (height im * width im) = true →
  has_size (fresh_seam f) (height im) = true →
  has_size (fresh_dest f) (3 * height im * (width im - 1)) = true →
  ∃ path dest,
    four_stages im f = Some (path, dest)
    ∧ valid_seam path (height im) (width im) = true
    ∧ connected (width im) path = true
    ∧ height dest = height im ∧ width dest = width im - 1
    ∧ ∀ j i c, 0 ≤ j < height im → 0 ≤ i < width im - 1 → 0 ≤ c < 3 →
        ∃ pj v, load path j = Some pj
          ∧ get_pixel im j (if i <? pj then i else i + 1) c = Some v
          ∧ get_pixel dest j i c = Some v.
Proof.
  intros Hwf Hw2 Hh31 Hfg Hfc Hfs Hfd. zbool.
  pose proof (wf_rgb_inv _ Hwf) as (Hh & Hw & Hlen & Hb).
  destruct (four_stages_run im f Hwf Hw2 Hh31 Hfg Hfc Hfs)
    as (grad & best & path & Hgrad & _ & Hbest & _ & Hpath & Hpf).
  assert (connected (width im) path = true) as Hconn.
  { apply (path_from_connected (rp_step best (width im)) best (height im));
      try done. apply rp_step_adjacent. }
  assert (valid_seam path (height im) (width im) = true) as Hvalid.
  { apply connected_valid_seam; [apply Hpf | done]. }
  destruct (remove_seam_correct im (fresh_dest f) path Hwf Hw2 Hfd)
    as (dest & Hdest & Hdh & Hdw & Hdl & Hpix).
  { intros j Hj. by apply (valid_seam_inv path (height im)). }
  exists path, dest. split.
  { unfold four_stages. rewrite Hgrad. simpl. rewrite Hbest. simpl.
    rewrite Hpath. simpl. rewrite Hdest. done. }
  repeat split; try done.
  intros j i c Hj Hi Hc.
  destruct (valid_seam_inv path _ _ j Hvalid Hj) as (pj & Hpj & Hr).
  destruct (get_pixel_is_Some im (height im) j (seam_shift pj i) c)
    as [v Hv]; try done.
  { unfold seam_shift. destruct (i <? pj); lia. }
  exists pj, v. split; [done |]. split; [done |].
  rewrite (Hpix j i c pj) by (try done; left; lia). done.
Qed.

End pipeline_shape.

(** ** Where [recover_path] and the backtracking of [seam_carve] agree *)

Section rp_agrees.
Import Seamcarving.

Lemma rp_pick_adjacent_min best w j c :
  0 ≤ c < w →
  (0 < c < w - 1 → cost_at best w j (c + 1) ≠ 0) →
  adjacent_min best w j c (rp_pick best w j c).
Proof.
  intros Hc Hnz. unfold rp_pick. rewrite rp_seen_all by done.
  unfold adjacent_min, adjacent, rp_choose.
  destruct (c =? 0) eqn:E0; [| destruct (c =? w - 1) eqn:E1]; zbool.
  - subst c. destruct (Z.ltb_spec 1 w); simpl; rewrite min_2_spec.
    + destruct (Z.min _ _ =? cost_at best w j 0) eqn:E; simpl; zbool;
        (split; [lia |]); intros k [Hk1 Hk2];
        assert (k = 0 ∨ k = 1) as [-> | ->] by lia; lia.
    + destruct (Z.min _ _ =? cost_at best w j 0) eqn:E; simpl; zbool;
        (split; [lia |]); intros k [Hk1 Hk2];
        assert (k = 0) as -> by lia; lia.
  - simpl. rewrite min_2_spec.
    destruct (Z.min _ _ =? cost_at best w j c) eqn:E; simpl; zbool;
      (split; [lia |]); intros k [Hk1 Hk2];
      assert (k = c ∨ k = c - 1) as [-> | ->] by lia; lia.
  - simpl. rewrite (proj2 (Z.eqb_neq _ 0)) by (apply Hnz; lia).
    rewrite min_3_spec.
    destruct (Z.min _ _ =? cost_at best w j c) eqn:E; simpl; zbool.
    + split; [lia |]. intros k [Hk1 Hk2].
      assert (k = c - 1 ∨ k = c ∨ k = c + 1) as [-> | [-> | ->]] by lia;
        lia.
    + destruct (Z.min _ _ =? cost_at best w j (c - 1)) eqn:E'; simpl;
        zbool; (split; [lia |]); intros k [Hk1 Hk2];
        assert (k = c - 1 ∨ k = c ∨ k = c + 1) as [-> | [-> | ->]] by lia;
        lia.
Qed.

(** Where no zero stands right of an inner seam column, the seam of
    [recover_path] is the seam of the backtracking of [seam_carve]. *)
Lemma rp_path_seam_from best h w path :
  (∀ j i, 0 ≤ j < h - 1 → 2 ≤ i < w → cost_at best w j i ≠ 0) →
  path_from (rp_step best w) best h w (-1) path →
  seam_from best h w (-1) path.
Proof.
  intros Hnz (Hl & Hbottom & Hsteps). split; [done |].
  split; [done |]. intros j Hj.
  destruct (Hsteps j Hj) as (c & p & Hc & Hp & Hr & ->).
  exists c, (rp_pick best w j c). split; [done |]. split; [done |].
  split.
  - apply rp_pick_adjacent_min; [done |]. intros Hint. apply Hnz; lia.
  - by apply rp_pick_spec.
Qed.

(** X15.  On a table, below the sentinel, that holds no zero above the
    bottom row from column 2 on, [recover_path] and the backtracking of
    [seam_carve] return the same seam, and that seam obeys the invariant:
    the first minimum of the bottom row and, above it, a least entry among
    the adjacent columns. *)
Theorem recover_path_agrees_with_seam_carve_path best h w fresh fresh' :
  1 ≤ h → 1 ≤ w →
  has_size best (h * w) = true → below_sentinel best = true →
  has_size fresh h = true → has_size fresh' h = true →
  (∀ j i, 0 ≤ j < h - 1 → 2 ≤ i < w → cost_at best w j i ≠ 0) →
  ∃ path, recover_path best h w fresh = Some path
    ∧ Wasm.seam_carve_path best h w fresh' = Some path
    ∧ seam_minimal best h w path.
Proof.
  intros Hh Hw Hbest Hs Hfresh Hfresh' Hnz. zbool.
  destruct (recover_path_spec best h w fresh) as (path & Hrun & Hpf);
    try done.
  destruct (seam_carve_path_spec best h w fresh')
    as (path' & Hrun' & Hpf'); try done.
  pose proof (rp_path_seam_from best h w path Hnz Hpf) as Hsf.
  assert (path' = path) as ->.
  { apply (path_from_unique (wasm_step best w) best h w); try done.
    apply wasm_step_functional. }
  exists path. split; [done |]. split; [done |].
  destruct Hsf as (_ & Hbottom & Hsteps). split; [done |].
  intros j Hj. destruct (Hsteps j) as (c & p & Hc & Hp & Hm & _); [lia |].
  exists c, p. done.
Qed.

End rp_agrees.

(** ** The gradient with its wrap-around *)

Section energy_edges.
Import Seamcarving.

(** X2.  The neighbours of a pixel are taken modulo the dimensions of the
    raster: the horizontal gradient compares columns [i + 1] and [i - 1]
    modulo the width, the vertical one rows [j - 1] and [j + 1] modulo the
    height. *)
Theorem grad_sq_at_wraps_around im j i :
  wf_rgb im = true → 0 ≤ j < height im → 0 ≤ i < width im →
  grad_sq_at im j i
  = Some (sq_sum (λ c, pixel_or_0 im j ((i + 1) mod width im) c
                       - pixel_or_0 im j ((i - 1) mod width im) c),
          sq_sum (λ c, pixel_or_0 im ((j - 1) mod height im) i c
                       - pixel_or_0 im ((j + 1) mod height im) i c)).
Proof. apply grad_sq_at_mod. Qed.

(** X3.  In a raster of at most two rows the row above and the row below a
    pixel are the same row, so the vertical gradient is 0 everywhere; in a
    raster of at most two columns the horizontal gradient is 0. *)
Theorem grad_sq_at_vanishes_on_thin_rasters im j i :
  wf_rgb im = true → 0 ≤ j < height im → 0 ≤ i < width im →
  ∃ gx gy, grad_sq_at im j i = Some (gx, gy)
    ∧ (height im ≤ 2 → gy = 0)
    ∧ (width im ≤ 2 → gx = 0).
Proof.
  intros Hwf Hj Hi. rewrite (grad_sq_at_mod im j i Hwf Hj Hi).
  eexists _, _. split; [done |]. unfold sq_sum. split.
  - intros Hh.
    assert ((j - 1) mod height im = (j + 1) mod height im) as ->;
      [| by rewrite !Z.sub_diag].
    assert (height im = 1 ∨ height im = 2) as [E | E] by lia;
      rewrite E in *;
      [assert (j = 0) as -> by lia
      | assert (j = 0 ∨ j = 1) as [-> | ->] by lia]; reflexivity.
  - intros Hw.
    assert ((i + 1) mod width im = (i - 1) mod width im) as ->;
      [| by rewrite !Z.sub_diag].
    assert (width im = 1 ∨ width im = 2) as [E | E] by lia;
      rewrite E in *;
      [assert (i = 0) as -> by lia
      | assert (i = 0 ∨ i = 1) as [-> | ->] by lia]; reflexivity.
Qed.

(** X4.  A raster whose pixels all hold the same colour has energy 0 at
    every pixel: [calc_energy] returns a map whose every channel is 0. *)
Theorem calc_energy_of_uniform_raster_is_zero im fresh :
  wf_rgb im = true →
  has_size fresh (3 * height im * width im) = true →
  (∀ y x c, 0 ≤ y < height im → 0 ≤ x < width im → 0 ≤ c < 3 →
     pixel_or_0 im y x c = pixel_or_0 im 0 0 c) →
  ∃ grad, calc_energy im fresh = Some grad
    ∧ ∀ j i c, 0 ≤ j < height im → 0 ≤ i < width im → 0 ≤ c < 3 →
        get_pixel grad j i c = Some 0.
Proof.
  intros Hwf Hfresh Huni. zbool.
  pose proof (wf_rgb_inv _ Hwf) as (Hh & Hw & Hlen & Hb).
  destruct (calc_energy_correct im fresh Hwf Hfresh)
    as (grad & Hrun & _ & _ & _ & Hpix).
  exists grad. split; [done |]. intros j i c Hj Hi Hc.
  rewrite (Hpix j i c _ Hj Hi Hc (grad_sq_at_mod im j i Hwf Hj Hi))
    by (left; lia).
  pose proof (Z.mod_pos_bound (i + 1) (width im) ltac:(lia)).
  pose proof (Z.mod_pos_bound (i - 1) (width im) ltac:(lia)).
  pose proof (Z.mod_pos_bound (j + 1) (height im) ltac:(lia)).
  pose proof (Z.mod_pos_bound (j - 1) (height im) ltac:(lia)).
  unfold energy_norm_of, energy_of, sq_sum. simpl.
  rewrite !(Huni j ((i + 1) mod width im)) by (try done; lia).
  rewrite !(Huni j ((i - 1) mod width im)) by (try done; lia).
  rewrite !(Huni ((j - 1) mod height im) i) by (try done; lia).
  rewrite !(Huni ((j + 1) mod height im) i) by (try done; lia).
  rewrite !Z.sub_diag. reflexivity.
Qed.

End energy_edges.

(** ** What the fresh blocks hold does not matter *)

Lemma cell_index_cover h w k :
  0 < w → 0 ≤ k < h * w →
  ∃ j i, 0 ≤ j < h ∧ 0 ≤ i < w ∧ k = j * w + i.
Proof.
  intros Hw Hk. exists (k / w), (k mod w).
  pose proof (Z.div_mod k w ltac:(lia)).
  pose proof (Z.mod_pos_bound k w ltac:(lia)).
  split; [| split; [done | lia]].
  split; [apply Z.div_pos; lia | apply Z.div_lt_upper_bound; lia].
Qed.

Lemma pixel_index_cover n h w k :
  0 < n → 0 < w → 0 ≤ k < n * h * w →
  ∃ y x c, 0 ≤ y < h ∧ 0 ≤ x < w ∧ 0 ≤ c < n ∧ k = n * (y * w + x) + c.
Proof.
  intros Hn Hw Hk.
  pose proof (Z.div_mod k n ltac:(lia)).
  pose proof (Z.mod_pos_bound k n ltac:(lia)).
  assert (0 ≤ k / n < h * w) as Hq.
  { split; [apply Z.div_pos; lia | apply Z.div_lt_upper_bound; lia]. }
  destruct (cell_index_cover h w (k / n) Hw Hq) as (y & x & Hy & Hx & He).
  exists y, x, (k mod n). repeat split; try lia.
Qed.

Lemma min_over_adjacent_unique b b' w j i m m' :
  (∀ i', adjacent w i i' → cost_at b w j i' = cost_at b' w j i') →
  min_over_adjacent b w j i m → min_over_adjacent b' w j i m' → m = m'.
Proof.
  intros Hext [(i0 & Ha0 & H0) Hmin] [(i1 & Ha1 & H1) Hmin'].
  pose proof (Hmin i1 Ha1). pose proof (Hmin' i0 Ha0).
  rewrite <- (Hext i0 Ha0) in *. rewrite (Hext i1 Ha1) in *. lia.
Qed.

(** Two tables that obey the recurrence for energy readers that agree
    inside the map are the same table. *)
Lemma dp_upto_unique energy energy' h w best best' :
  1 ≤ h → 1 ≤ w →
  (∀ j i, 0 ≤ j < h → 0 ≤ i < w → energy j i = energy' j i) →
  dp_upto energy h w h 0 best → dp_upto energy' h w h 0 best' →
  best = best'.
Proof.
  intros Hh Hw Hee (Hl & Hr0 & Hcells) (Hl' & Hr0' & Hcells').
  assert (∀ n : nat, ∀ i, Z.of_nat n < h → 0 ≤ i < w →
            load best (Z.of_nat n * w + i) = load best' (Z.of_nat n * w + i))
    as Hrows.
  { induction n as [| n IH]; intros i Hn Hi.
    - change (Z.of_nat 0) with 0. replace (0 * w + i) with i by lia.
      rewrite Hr0, Hr0' by done. apply Hee; lia.
    - destruct (Hcells (Z.of_nat (S n)) i) as (e & m & He & Hld & Hm);
        [lia | done | left; lia |].
      destruct (Hcells' (Z.of_nat (S n)) i) as (e' & m' & He' & Hld' & Hm');
        [lia | done | left; lia |].
      rewrite Hld, Hld'. f_equal.
      assert (e = e') as ->.
      { rewrite Hee in He by lia. congruence. }
      f_equal.
      apply (min_over_adjacent_unique best best' w (Z.of_nat (S n) - 1) i);
        try done.
      intros i' [_ Hi']. unfold cost_at.
      replace (Z.of_nat (S n) - 1) with (Z.of_nat n) by lia.
      by rewrite IH by (try done; lia). }
  apply load_ext; [lia |].
  intros k Hk.
  destruct (cell_index_cover h w k ltac:(lia) ltac:(lia))
    as (j & i & Hj & Hi & ->).
  replace j with (Z.of_nat (Z.to_nat j)) by lia.
  apply Hrows; [lia | done].
Qed.

(** ** The same pixels, with and without an alpha channel *)

Lemma lookup_rgb_of_rgba (n : nat) : ∀ (buf : list Z) (c : nat),
  (c < 3)%nat → (4 * n + 3 < length buf)%nat →
  rgb_of_rgba buf !! (3 * n + c)%nat = buf !! (4 * n + c)%nat.
Proof.
  induction n as [| n IH]; intros buf c Hc Hlen.
  - destruct buf as [| r [| g [| b [| a rest]]]]; simpl in Hlen; try lia.
    destruct c as [| [| [| c]]]; try lia; reflexivity.
  - destruct buf as [| r [| g [| b [| a rest]]]]; simpl in Hlen; try lia.
    replace (3 * S n + c)%nat with (S (S (S (3 * n + c)))) by lia.
    replace (4 * S n + c)%nat with (S (S (S (S (4 * n + c))))) by lia.
    simpl. apply IH; [done | lia].
Qed.

Lemma length_rgb_of_rgba (n : nat) : ∀ buf : list Z,
  length buf = (4 * n)%nat → length (rgb_of_rgba buf) = (3 * n)%nat.
Proof.
  induction n as [| n IH]; intros buf Hlen.
  - destruct buf; [done | simpl in Hlen; lia].
  - destruct buf as [| r [| g [| b [| a rest]]]]; simpl in Hlen; try lia.
    simpl. rewrite (IH rest) by lia. lia.
Qed.

Lemma load_rgb_of_rgba buf k c :
  0 ≤ k → 0 ≤ c < 3 → 4 * k + 3 < Z.of_nat (length buf) →
  load (rgb_of_rgba buf) (3 * k + c) = load buf (4 * k + c).
Proof.
  intros Hk Hc Hlen. rewrite !load_lookup by lia.
  replace (Z.to_nat (3 * k + c)) with (3 * Z.to_nat k + Z.to_nat c)%nat
    by lia.
  replace (Z.to_nat (4 * k + c)) with (4 * Z.to_nat k + Z.to_nat c)%nat
    by lia.
  apply lookup_rgb_of_rgba; lia.
Qed.

Lemma same_pixels_get_pixel im src h w y x c :
  same_pixels im src h w → Z.of_nat (length src) = 4 * h * w →
  0 ≤ y < h → 0 ≤ x < w → 0 ≤ c < 3 →
  Seamcarving.get_pixel im y x c = Wasm.get_pixel src w y x c.
Proof.
  intros (Hh & Hw & Hr) Hlen Hy Hx Hc.
  unfold Seamcarving.get_pixel, Wasm.get_pixel. rewrite Hr, Hw.
  pose proof (cell_bound h w y x Hy Hx).
  apply load_rgb_of_rgba; lia.
Qed.

Lemma same_pixels_wf im src h w :
  same_pixels im src h w → wf_rgba src h w = true → wf_rgb im = true.
Proof.
  intros (Hh & Hw & Hr) (H1 & H2 & Hlen & Hb)%wf_rgba_inv.
  unfold wf_rgb, has_size. rewrite Hh, Hw, Hr.
  rewrite (proj2 (Z.leb_le 1 h)), (proj2 (Z.leb_le 1 w)) by lia. simpl.
  rewrite (length_rgb_of_rgba (Z.to_nat (h * w))) by nia.
  rewrite (proj2 (Z.eqb_eq _ _)) by nia. simpl.
  apply forallb_forall. intros v Hv%list_elem_of_In.
  apply list_elem_of_lookup in Hv as [n Hn].
  pose proof (lookup_lt_Some _ _ _ Hn) as Hlt.
  rewrite (length_rgb_of_rgba (Z.to_nat (h * w))) in Hlt by nia.
  replace n with (3 * (n / 3) + n mod 3)%nat in Hn
    by (pose proof (Nat.div_mod_eq n 3); lia).
  pose proof (Nat.mod_upper_bound n 3 ltac:(lia)).
  assert (n / 3 < Z.to_nat (h * w))%nat
    by (apply Nat.Div0.div_lt_upper_bound; lia).
  rewrite lookup_rgb_of_rgba in Hn by lia.
  rewrite forallb_forall in Hb. apply Hb, list_elem_of_In.
  apply list_elem_of_lookup. eauto.
Qed.

Lemma rgb_image_same_pixels src h w : same_pixels (rgb_image src h w) src h w.
Proof. done. Qed.

Lemma same_pixels_grad_sq_at im src h w j i :
  same_pixels im src h w → wf_rgba src h w = true →
  0 ≤ j < h → 0 ≤ i < w →
  Seamcarving.grad_sq_at im j i = Wasm.grad_sq_at src h w j i.
Proof.
  intros Hsp Hwf Hj Hi.
  pose proof (wf_rgba_inv _ _ _ Hwf) as (Hh & Hw & Hlen & Hb).
  pose proof Hsp as (Hih & Hiw & _).
  unfold Seamcarving.grad_sq_at, Wasm.grad_sq_at. rewrite Hih, Hiw.
  set (k_left := if i =? 0 then w - 1 else i - 1).
  set (k_right := if i =? w - 1 then 0 else i + 1).
  set (k_up := if j =? 0 then h - 1 else j - 1).
  set (k_down := if j =? h - 1 then 0 else j + 1).
  assert (0 ≤ k_left < w)
    by (unfold k_left; destruct (i =? 0) eqn:E; zbool; lia).
  assert (0 ≤ k_right < w)
    by (unfold k_right; destruct (i =? w - 1) eqn:E; zbool; lia).
  assert (0 ≤ k_up < h)
    by (unfold k_up; destruct (j =? 0) eqn:E; zbool; lia).
  assert (0 ≤ k_down < h)
    by (unfold k_down; destruct (j =? h - 1) eqn:E; zbool; lia).
  clearbody k_left k_right k_up k_down.
  rewrite !(same_pixels_get_pixel im src h w) by (try done; lia).
  repeat match goal with
  | |- context [Wasm.get_pixel src w ?y ?x ?c] =>
      let v := fresh "v" in let Hv := fresh "Hv" in
      destruct (get_pixel4_is_Some src h w y x c) as [v Hv];
        [done | lia | lia | lia |];
      rewrite Hv; simpl; clear Hv
  end.
  f_equal. f_equal; lia.
Qed.

Section two_implementations.

(** The energy maps of the two implementations hold the same colour
    channels. *)
Lemma energy_maps_agree im src h w grad energy_map j i c :
  same_pixels im src h w → wf_rgba src h w = true →
  energy_upto im (height im) 0 grad →
  energy4_upto src h w h 0 energy_map →
  0 ≤ j < h → 0 ≤ i < w → 0 ≤ c < 3 →
  Seamcarving.get_pixel grad j i c = Wasm.get_pixel energy_map w j i c.
Proof.
  intros Hsp Hwf (_ & _ & _ & Hpix) (_ & Hpix4) Hj Hi Hc.
  pose proof Hsp as (Hih & Hiw & _).
  destruct (grad_sq_at4_is_Some src h w j i Hwf Hj Hi)
    as (gx & gy & Hg & _ & _).
  rewrite (Hpix j i c (gx, gy)); try lia.
  2: { rewrite (same_pixels_grad_sq_at im src h w); done. }
  destruct (Hpix4 j i (gx, gy)) as (H0 & H1 & H2 & _); try done; try lia.
  assert (c = 0 ∨ c = 1 ∨ c = 2) as [-> | [-> | ->]] by lia;
    symmetry; done.
Qed.

End two_implementations.

Lemma both_cost_tables src h w f f' :
  wf_rgba src h w = true → 2 ≤ w →
  wf_stage_blocks f h w = true → wf_fresh f' h w = true →
  ∃ grad energy_map best,
    Seamcarving.calc_energy (rgb_image src h w) (fresh_grad f) = Some grad
    ∧ energy_upto (rgb_image src h w) h 0 grad
    ∧ Wasm.calc_energy src (Wasm.fresh_energy f') h w = Some energy_map
    ∧ energy4_upto src h w h 0 energy_map
    ∧ Seamcarving.dynamic_seam grad (fresh_cost f) = Some best
    ∧ Wasm.seam_carve_cost energy_map h w (Wasm.fresh_best f') = Some best
    ∧ dp_upto (λ j i, Wasm.get_pixel energy_map w j i 0) h w h 0 best.
Proof.
  intros Hwf Hw2 Hf Hf'. unfold wf_stage_blocks in Hf.
  unfold wf_fresh in Hf'. zbool.
  pose proof (wf_rgba_inv _ _ _ Hwf) as (Hh & Hw & Hlen & Hb).
  pose proof (rgb_image_same_pixels src h w) as Hsp.
  pose proof (same_pixels_wf _ _ _ _ Hsp Hwf) as Hwf3.
  destruct (calc_energy_correct (rgb_image src h w) (fresh_grad f) Hwf3)
    as (grad & Hgrad & Hup); [done |].
  destruct (calc_energy4_correct src (Wasm.fresh_energy f') h w Hwf)
    as (energy_map & Hen & Hup4); [done |].
  destruct (seam_carve_cost_upto energy_map h w (Wasm.fresh_best f'))
    as (best' & Hbest' & Hupto'); try done.
  { apply Hup4. }
  pose proof Hup as (Hgh & Hgw & Hgl & _). simpl in Hgh, Hgw.
  assert (∀ j i, 0 ≤ j < h → 0 ≤ i < w →
            Seamcarving.get_pixel grad j i 0
            = Wasm.get_pixel energy_map w j i 0) as Hagree.
  { intros j i Hj Hi.
    apply (energy_maps_agree (rgb_image src h w) src h w); try done. }
  destruct (dp_fill_correct (λ j i, Seamcarving.get_pixel grad j i 0)
              h w (fresh_cost f)) as (best & Hbest & Hupto); try done.
  { intros j i Hj Hi. rewrite Hagree by done.
    destruct (get_pixel4_is_Some energy_map h w j i 0) as [v ->];
      try done. apply Hup4. }
  assert (best = best') as <-.
  { apply (dp_upto_unique (λ j i, Seamcarving.get_pixel grad j i 0)
             (λ j i, Wasm.get_pixel energy_map w j i 0) h w); try done;
      try lia. }
  exists grad, energy_map, best.
  split; [done |]. split; [done |]. split; [done |]. split; [done |].
  split; [by rewrite dynamic_seam_dp, Hgh, Hgw |]. done.
Qed.

(** X12.  On the same pixels, with at least two columns, the two
    implementations build energy maps with the same colour channels and
    the same table of cumulative costs, whatever their fresh blocks
    held. *)
Theorem both_build_the_same_cost_table src h w f f' :
  wf_rgba src h w = true → 2 ≤ w →
  wf_stage_blocks f h w = true → wf_fresh f' h w = true →
  ∃ grad energy_map best,
    Seamcarving.calc_energy (rgb_image src h w) (fresh_grad f) = Some grad
    ∧ Wasm.calc_energy src (Wasm.fresh_energy f') h w = Some energy_map
    ∧ (∀ j i c, 0 ≤ j < h → 0 ≤ i < w → 0 ≤ c < 3 →
         Seamcarving.get_pixel grad j i c
         = Wasm.get_pixel energy_map w j i c)
    ∧ Seamcarving.dynamic_seam grad (fresh_cost f) = Some best
    ∧ Wasm.seam_carve_cost energy_map h w (Wasm.fresh_best f') = Some best.
Proof.
  intros Hwf Hw2 Hf Hf'.
  destruct (both_cost_tables src h w f f' Hwf Hw2 Hf Hf')
    as (grad & energy_map & best & Hg & Hup & He & Hup4 & Hb & Hb' & _).
  exists grad, energy_map, best. repeat split; try done.
  intros j i c Hj Hi Hc.
  apply (energy_maps_agree (rgb_image src h w) src h w); try done.
Qed.

(** The raster that [remove_seam] returns and the buffer that the copy of
    [seam_carve] returns hold the same colour channels. *)
Lemma reduced_rasters_agree src h w path dest output :
  wf_rgba src h w = true → 2 ≤ w →
  (∀ j, 0 ≤ j < h → ∃ pj, load path j = Some pj ∧ 0 ≤ pj < w) →
  removed_upto (rgb_image src h w) path h 0 dest →
  copied_upto src path h w h 0 output →
  raster dest = rgb_of_rgba output.
Proof.
  intros Hwf Hw2 Hpath (Hdh & Hdw & Hdl & Hpix) (Hol & Hpix4).
  pose proof (wf_rgba_inv _ _ _ Hwf) as (Hh & Hw & Hlen & Hb).
  simpl in *.
  assert (length (rgb_of_rgba output) = (3 * Z.to_nat (h * (w - 1)))%nat)
    as Hlo by (apply length_rgb_of_rgba; nia).
  apply load_ext; [nia |].
  intros k Hk.
  destruct (pixel_index_cover 3 h (w - 1) k) as (j & d & c & Hj & Hd & Hc & ->);
    [lia | lia | lia |].
  destruct (Hpath j Hj) as (pj & Hpj & Hr).
  pose proof (cell_bound h (w - 1) j d Hj Hd).
  rewrite load_rgb_of_rgba by nia.
  pose proof (Hpix j d c pj Hj Hd Hc Hpj ltac:(left; lia)) as Hp.
  unfold Seamcarving.get_pixel in Hp at 1. rewrite Hdw in Hp. rewrite Hp.
  assert (0 ≤ seam_shift pj d < w ∧ seam_shift pj d ≠ pj
          ∧ survivor_col pj (seam_shift pj d) = d) as (Hs1 & Hs2 & Hs3).
  { unfold seam_shift, survivor_col.
    destruct (d <? pj) eqn:E; zbool.
    - rewrite (proj2 (Z.ltb_lt d pj)) by lia. lia.
    - rewrite (proj2 (Z.ltb_ge (d + 1) pj)) by lia. lia. }
  pose proof (Hpix4 j (seam_shift pj d) c pj Hj Hs1 ltac:(lia) Hpj Hs2
                ltac:(left; lia)) as Hp4.
  rewrite Hs3 in Hp4. unfold Wasm.get_pixel in Hp4 at 1. rewrite Hp4.
  apply (same_pixels_get_pixel (rgb_image src h w) src h w); try done.
Qed.

Lemma removed_upto_unique src path dest dest' :
  1 ≤ height src → 2 ≤ width src →
  (∀ j, 0 ≤ j < height src →
     ∃ pj, load path j = Some pj ∧ 0 ≤ pj < width src) →
  removed_upto src path (height src) 0 dest →
  removed_upto src path (height src) 0 dest' →
  dest = dest'.
Proof.
  intros Hh Hw Hpath (Hdh & Hdw & Hdl & Hpix) (Hdh' & Hdw' & Hdl' & Hpix').
  destruct dest as [r hh ww], dest' as [r' hh' ww']. simpl in *.
  subst hh ww hh' ww'. f_equal.
  apply load_ext; [lia |].
  intros k Hk.
  destruct (pixel_index_cover 3 (height src) (width src - 1) k)
    as (j & d & c & Hj & Hd & Hc & ->); [lia | lia | lia |].
  destruct (Hpath j Hj) as (pj & Hpj & Hr).
  pose proof (Hpix j d c pj Hj Hd Hc Hpj ltac:(left; lia)) as Hp.
  pose proof (Hpix' j d c pj Hj Hd Hc Hpj ltac:(left; lia)) as Hp'.
  unfold Seamcarving.get_pixel in Hp at 1, Hp' at 1. simpl in Hp, Hp'.
  congruence.
Qed.

Lemma copied_upto_unique src path h w output output' :
  1 ≤ h → 2 ≤ w →
  (∀ j, 0 ≤ j < h → ∃ pj, load path j = Some pj ∧ 0 ≤ pj < w) →
  copied_upto src path h w h 0 output →
  copied_upto src path h w h 0 output' →
  output = output'.
Proof.
  intros Hh Hw Hpath (Hol & Hpix) (Hol' & Hpix').
  apply load_ext; [lia |].
  intros k Hk.
  destruct (pixel_index_cover 4 h (w - 1) k)
    as (j & d & c & Hj & Hd & Hc & ->); [lia | lia | lia |].
  destruct (Hpath j Hj) as (pj & Hpj & Hr).
  assert (0 ≤ seam_shift pj d < w ∧ seam_shift pj d ≠ pj
          ∧ survivor_col pj (seam_shift pj d) = d) as (Hs1 & Hs2 & Hs3).
  { unfold seam_shift, survivor_col.
    destruct (d <? pj) eqn:E; zbool.
    - rewrite (proj2 (Z.ltb_lt d pj)) by lia. lia.
    - rewrite (proj2 (Z.ltb_ge (d + 1) pj)) by lia. lia. }
  pose proof (Hpix j (seam_shift pj d) c pj Hj Hs1 Hc Hpj Hs2
                ltac:(left; lia)) as Hp.
  pose proof (Hpix' j (seam_shift pj d) c pj Hj Hs1 Hc Hpj Hs2
                ltac:(left; lia)) as Hp'.
  rewrite Hs3 in Hp, Hp'.
  unfold Wasm.get_pixel in Hp at 1, Hp' at 1. congruence.
Qed.

Section independence.

(** X23.  The buffer that [seam_carve] returns on a raster of at least two
    columns does not depend on what [malloc] left in the four blocks it
    allocates: no uninitialised byte reaches the result. *)
Theorem seam_carve_ignores_fresh_contents src h w f f' :
  wf_rgba src h w = true → 2 ≤ w →
  wf_fresh f h w = true → wf_fresh f' h w = true →
  ∃ path output,
    Wasm.seam_carve_seam src h w f = Some path
    ∧ Wasm.seam_carve_seam src h w f' = Some path
    ∧ Wasm.seam_carve src h w f = Some output
    ∧ Wasm.seam_carve src h w f' = Some output.
Proof.
  intros Hwf Hw2 Hf Hf'. unfold wf_fresh in Hf, Hf'. zbool.
  pose proof (wf_rgba_inv _ _ _ Hwf) as (Hh & Hw & Hlen & Hb).
  destruct (calc_energy4_correct src (Wasm.fresh_energy f) h w Hwf)
    as (e & He & Hup); [done |].
  destruct (calc_energy4_correct src (Wasm.fresh_energy f') h w Hwf)
    as (e' & He' & Hup'); [done |].
  destruct (seam_carve_cost_upto e h w (Wasm.fresh_best f))
    as (best & Hbest & Hupto); try done; [apply Hup |].
  destruct (seam_carve_cost_upto e' h w (Wasm.fresh_best f'))
    as (best' & Hbest' & Hupto'); try done; [apply Hup' |].
  assert (best' = best) as ->.
  { symmetry.
    apply (dp_upto_unique (λ j i, Wasm.get_pixel e w j i 0)
             (λ j i, Wasm.get_pixel e' w j i 0) h w); try done; try lia.
    intros j i Hj Hi.
    destruct (grad_sq_at4_is_Some src h w j i Hwf Hj Hi)
      as (gx & gy & Hg & _ & _).
    destruct Hup as (_ & Hpix). destruct Hup' as (_ & Hpix').
    destruct (Hpix j i (gx, gy)) as (-> & _); try done; try lia.
    destruct (Hpix' j i (gx, gy)) as (-> & _); try done; lia. }
  destruct (seam_carve_path_spec best h w (Wasm.fresh_path f))
    as (path & Hpath & Hpf); try done; [apply Hupto |].
  destruct (seam_carve_path_spec best h w (Wasm.fresh_path f'))
    as (path' & Hpath' & Hpf'); try done; [apply Hupto |].
  assert (path' = path) as ->.
  { apply (path_from_unique (wasm_step best w) best h w); try done.
    apply wasm_step_functional. }
  assert (∀ j, 0 ≤ j < h → ∃ pj, load path j = Some pj ∧ 0 ≤ pj < w)
    as Hvalid.
  { intros j Hj. apply (seam_from_valid best h w (-1)); [done | lia]. }
  destruct (seam_carve_copy_correct src h w path (Wasm.fresh_output f)
              Hwf Hvalid) as (out & Hout & Hcp); [done |].
  destruct (seam_carve_copy_correct src h w path (Wasm.fresh_output f')
              Hwf Hvalid) as (out' & Hout' & Hcp'); [done |].
  assert (out' = out) as ->.
  { apply (copied_upto_unique src path h w); done. }
  assert (Wasm.seam_carve_seam src h w f = Some path) as Hs.
  { unfold Wasm.seam_carve_seam. rewrite He. simpl. rewrite Hbest. done. }
  assert (Wasm.seam_carve_seam src h w f' = Some path) as Hs'.
  { unfold Wasm.seam_carve_seam. rewrite He'. simpl. rewrite Hbest'. done. }
  exists path, out. split; [done |]. split; [done |].
  unfold Wasm.seam_carve. rewrite Hs, Hs'. done.
Qed.

(** X24.  Neither does the result of the four stages of [seamcarving.c]:
    the seam and the reduced raster are the same for any contents of the
    four fresh blocks. *)
Theorem four_stages_ignores_fresh_contents im f f' :
  wf_rgb im = true → 2 ≤ width im → height im < 2 ^ 31 →
  wf_stage_blocks f (height im) (width im) = true →
  wf_stage_blocks f' (height im) (width im) = true →
  ∃ path dest,
    four_stages im f = Some (path, dest)
    ∧ four_stages im f' = Some (path, dest).
Proof.
  intros Hwf Hw2 Hh31 Hf Hf'. unfold wf_stage_blocks in Hf, Hf'. zbool.
  pose proof (wf_rgb_inv _ Hwf) as (Hh & Hw & Hlen & Hb).
  destruct (four_stages_run im f) as
    (grad & best & path & Hg & Hup & Hb1 & Hdp & Hp & Hpf); try done.
  destruct (four_stages_run im f') as
    (grad' & best' & path' & Hg' & Hup' & Hb1' & Hdp' & Hp' & Hpf');
    try done.
  assert (best' = best) as ->.
  { symmetry.
    apply (dp_upto_unique (λ j i, Seamcarving.get_pixel grad j i 0)
             (λ j i, Seamcarving.get_pixel grad' j i 0)
             (height im) (width im)); try done; try lia.
    intros j i Hj Hi.
    destruct (grad_sq_at_is_Some im j i Hwf Hj Hi)
      as (gx & gy & Hgs & _ & _).
    destruct Hup as (_ & _ & _ & Hpix). destruct Hup' as (_ & _ & _ & Hpix').
    rewrite (Hpix j i 0 (gx, gy)) by (try done; lia).
    rewrite (Hpix' j i 0 (gx, gy)) by (try done; lia). done. }
  assert (path' = path) as ->.
  { apply (path_from_unique (rp_step best (width im)) best (height im)
             (width im)); try done.
    apply rp_step_functional. }
  assert (∀ j, 0 ≤ j < height im →
            ∃ pj, load path j = Some pj ∧ 0 ≤ pj < width im) as Hvalid.
  { intros j Hj.
    apply (path_from_entry (rp_step best (width im)) best (height im)
             (width im) (-1)); [done | apply rp_step_range | lia]. }
  destruct (remove_seam_correct im (fresh_dest f) path Hwf Hw2)
    as (dest & Hd & Hrm); try done.
  destruct (remove_seam_correct im (fresh_dest f') path Hwf Hw2)
    as (dest' & Hd' & Hrm'); try done.
  assert (dest' = dest) as ->.
  { apply (removed_upto_unique im path); try done. }
  exists path, dest. unfold four_stages.
  rewrite Hg, Hg'. simpl. rewrite Hb1, Hb1'. simpl.
  rewrite Hp, Hp'. simpl. rewrite Hd, Hd'. done.
Qed.

End independence.

Section refinement.

(** X20.  Given the same seam, [remove_seam] and the copy loop of
    [seam_carve] produce the same colour channels: the raster of the one
    is the buffer of the other without its alpha bytes. *)
Theorem remove_seam_agrees_with_seam_carve_copy src h w path fd fo :
  wf_rgba src h w = true → 2 ≤ w →
  valid_seam path h w = true →
  has_size fd (3 * h * (w - 1)) = true →
  has_size fo (4 * h * (w - 1)) = true →
  ∃ dest output,
    Seamcarving.remove_seam (rgb_image src h w) fd path = Some dest
    ∧ Wasm.seam_carve_copy src h w path fo = Some output
    ∧ raster dest = rgb_of_rgba output.
Proof.
  intros Hwf Hw2 Hseam Hfd Hfo. zbool.
  pose proof (same_pixels_wf _ _ _ _ (rgb_image_same_pixels src h w) Hwf)
    as Hwf3.
  assert (∀ j, 0 ≤ j < h → ∃ pj, load path j = Some pj ∧ 0 ≤ pj < w)
    as Hvalid.
  { intros j Hj. by apply (valid_seam_inv path h). }
  destruct (remove_seam_correct (rgb_image src h w) fd path Hwf3 Hw2)
    as (dest & Hd & Hrm); try done.
  destruct (seam_carve_copy_correct src h w path fo Hwf Hvalid)
    as (out & Hout & Hcp); [done |].
  exists dest, out. split; [done |]. split; [done |].
  apply (reduced_rasters_agree src h w path); done.
Qed.

(** X25.  The two implementations agree wherever the slip of [recover_path]
    cannot strike: on the same pixels they build the same cost table, and
    if that table holds no zero above the bottom row from column 2 on, the
    four stages and [seam_carve] find the same seam and return the same
    colour channels. *)
Theorem seam_carve_agrees_with_four_stages src h w f f' :
  wf_rgba src h w = true → 2 ≤ w → h < 2 ^ 31 →
  wf_stage_blocks f h w = true → wf_fresh f' h w = true →
  ∃ energy_map best,
    Wasm.calc_energy src (Wasm.fresh_energy f') h w = Some energy_map
    ∧ Wasm.seam_carve_cost energy_map h w (Wasm.fresh_best f') = Some best
    ∧ ((∀ j i, 0 ≤ j < h - 1 → 2 ≤ i < w → cost_at best w j i ≠ 0) →
       ∃ path dest output,
         four_stages (rgb_image src h w) f = Some (path, dest)
         ∧ Wasm.seam_carve_seam src h w f' = Some path
         ∧ Wasm.seam_carve src h w f' = Some output
         ∧ raster dest = rgb_of_rgba output).
Proof.
  intros Hwf Hw2 Hh31 Hf Hf'.
  destruct (both_cost_tables src h w f f' Hwf Hw2 Hf Hf')
    as (grad & e & best & Hg & Hup & He & Hup4 & Hb & Hb' & Hdp).
  unfold wf_stage_blocks in Hf. unfold wf_fresh in Hf'. zbool.
  pose proof (wf_rgba_inv _ _ _ Hwf) as (Hh & Hw & Hlen & Hby).
  pose proof (same_pixels_wf _ _ _ _ (rgb_image_same_pixels src h w) Hwf)
    as Hwf3.
  exists e, best. split; [done |]. split; [done |]. intros Hnz.
  assert (below_sentinel best = true) as Hs.
  { apply (bounded_below_sentinel best h w); [lia | done | apply Hdp |].
    apply (dp_upto_bounded (λ j i, Wasm.get_pixel e w j i 0));
      try done; try lia.
    intros j i Hj Hi.
    destruct (grad_sq_at4_is_Some src h w j i Hwf Hj Hi)
      as (gx & gy & Hgs & _ & _).
    destruct Hup4 as (_ & Hpix).
    destruct (Hpix j i (gx, gy)) as (-> & _); try done; try lia.
    eexists. split; [done |].
    pose proof (Z.mod_pos_bound
      (Wasm.energy_norm_of (Wasm.energy_of (gx, gy))) 256 ltac:(lia)).
    unfold u8. lia. }
  destruct (recover_path_spec best h w (fresh_seam f))
    as (path & Hpath & Hpf); try done; try lia; [apply Hdp |].
  destruct (seam_carve_path_spec best h w (Wasm.fresh_path f'))
    as (path' & Hpath' & Hpf'); try done; try lia; [apply Hdp |].
  pose proof (rp_path_seam_from best h w path Hnz Hpf) as Hsf.
  assert (path' = path) as ->.
  { apply (path_from_unique (wasm_step best w) best h w); try done.
    apply wasm_step_functional. }
  assert (∀ j, 0 ≤ j < h → ∃ pj, load path j = Some pj ∧ 0 ≤ pj < w)
    as Hvalid.
  { intros j Hj. apply (seam_from_valid best h w (-1)); [done | lia]. }
  destruct (remove_seam_correct (rgb_image src h w) (fresh_dest f) path
              Hwf3 Hw2) as (dest & Hd & Hrm); try done.
  destruct (seam_carve_copy_correct src h w path (Wasm.fresh_output f')
              Hwf Hvalid) as (out & Hout & Hcp); [done |].
  assert (Wasm.seam_carve_seam src h w f' = Some path) as Hseam.
  { unfold Wasm.seam_carve_seam. rewrite He. simpl. rewrite Hb'. done. }
  exists path, dest, out. split.
  { unfold four_stages. rewrite Hg. simpl. rewrite Hb. simpl.
    rewrite Hpath. simpl. rewrite Hd. done. }
  split; [done |]. split.
  { unfold Wasm.seam_carve. rewrite Hseam. done. }
  apply (reduced_rasters_agree src h w path); done.
Qed.

End refinement.

(** ** Degenerate dimensions *)

Lemma iter_down_unchanged {St : Type} (body : Z → St → option St) n i s :
  (∀ k t, body k t = Some t) → iter_down n i body s = Some s.
Proof.
  intros Hid. revert i. induction n as [| n IH]; intros i; simpl; [done |].
  rewrite Hid. simpl. apply IH.
Qed.

(** X14.  Without columns, or without rows, [recover_path] reads nothing and
    writes nothing: it hands back the block that [malloc] gave it, as it
    was, and reports no error. *)
Theorem recover_path_without_cells_returns_fresh_block best h w fresh :
  h ≤ 0 ∨ w ≤ 0 →
  Seamcarving.recover_path best h w fresh = Some fresh.
Proof.
  intros Hdim. unfold Seamcarving.recover_path, for_down.
  destruct Hdim as [Hh | Hw].
  - replace (Z.to_nat (h - 1 - 0 + 1)) with 0%nat by lia. done.
  - rewrite iter_down_unchanged; [done |].
    intros k [path xc]. unfold for_up.
    replace (Z.to_nat (w - 0)) with 0%nat by lia. done.
Qed.

Lemma lookup_repeat_lt (x : Z) (n i : nat) :
  (i < n)%nat → repeat x n !! i = Some x.
Proof.
  revert i. induction n as [| n IH]; intros i Hi; [lia |].
  destruct i as [| i]; simpl; [done | apply IH; lia].
Qed.

Section one_column.

(** X21.  On a raster of one column [seam_carve] finds the seam of column 0
    in every row and returns the empty buffer: the cell of the cost table
    that it reads before writing it (C2) never reaches the result. *)
Theorem seam_carve_of_one_column_is_empty src h f :
  wf_rgba src h 1 = true → wf_fresh f h 1 = true →
  Wasm.seam_carve_seam src h 1 f = Some (repeat 0 (Z.to_nat h))
  ∧ Wasm.seam_carve src h 1 f = Some [].
Proof.
  intros Hwf Hf.
  destruct (seam_carve_seam_valid src h 1 f Hwf Hf) as (path & Hseam & Hv).
  pose proof (wf_rgba_inv _ _ _ Hwf) as (Hh & Hw & Hlen & Hb).
  unfold wf_fresh in Hf. zbool.
  assert (Z.of_nat (length path) = h) as Hpl.
  { unfold Wasm.seam_carve_seam in Hseam.
    destruct (Wasm.calc_energy src (Wasm.fresh_energy f) h 1) as [e |] eqn:He;
      [| done]. simpl in Hseam.
    destruct (Wasm.seam_carve_cost e h 1 (Wasm.fresh_best f)) as [b |] eqn:Hbt;
      [| done]. simpl in Hseam.
    assert (Z.of_nat (length b) = h * 1) as Hbl.
    { rewrite seam_carve_cost_dp in Hbt.
      destruct (calc_energy4_correct src (Wasm.fresh_energy f) h 1 Hwf)
        as (e' & He' & Hel & _); [done |].
      assert (e' = e) as -> by congruence.
      destruct (dp_fill_total (λ j i, Wasm.get_pixel e 1 j i 0) h 1
                  (Wasm.fresh_best f)) as (b' & Hb' & Hbl'); try done.
      { intros j i Hj Hi.
        destruct (get_pixel4_is_Some e h 1 j i 0) as [v ->]; try done. }
      congruence. }
    destruct (seam_carve_path_spec b h 1 (Wasm.fresh_path f))
      as (p' & Hp' & Hpf); try done.
    assert (p' = path) as -> by congruence. apply Hpf. }
  assert (path = repeat 0 (Z.to_nat h)) as Hzero.
  { apply load_ext; [rewrite repeat_length; lia |].
    intros k Hk. destruct (Hv k ltac:(lia)) as (pj & -> & Hr).
    assert (pj = 0) as -> by lia.
    rewrite load_lookup by lia. symmetry.
    apply lookup_repeat_lt. lia. }
  split; [by rewrite <- Hzero |].
  destruct (seam_carve_copy_correct src h 1 path (Wasm.fresh_output f)
              Hwf Hv) as (out & Hout & Hol & _); [done |].
  unfold Wasm.seam_carve. rewrite Hseam. simpl. rewrite Hout.
  destruct out; [done | simpl in Hol; lia].
Qed.

(** X19.  [remove_seam] on a raster of one column, with the seam in column
    0, writes nothing and returns a raster of width 0 over the fresh
    block. *)
Theorem remove_seam_of_one_column_is_empty src fresh path :
  wf_rgb src = true → width src = 1 →
  valid_seam path (height src) 1 = true →
  Seamcarving.remove_seam src fresh path
  = Some (mk_img fresh (height src) 0).
Proof.
  intros Hwf Hw1 Hseam.
  pose proof (wf_rgb_inv _ Hwf) as (Hh & Hw & Hlen & Hb).
  unfold Seamcarving.remove_seam, Seamcarving.create_img. rewrite Hw1.
  destruct (for_up_inv
    (λ (_ : Z) (d : rgb_img), d = mk_img fresh (height src) (1 - 1))
    (λ j dest,
      for_up 0 1 (λ i dest,
        pj ← load path j;
        if negb (i =? pj) then
          R ← Seamcarving.get_pixel src j i 0;
          G ← Seamcarving.get_pixel src j i 1;
          B ← Seamcarving.get_pixel src j i 2;
          pj' ← load path j;
          if i <? pj' then Seamcarving.set_pixel dest j i R G B
          else Seamcarving.set_pixel dest j (i - 1) R G B
        else Some dest) dest)
    0 (height src) (mk_img fresh (height src) (1 - 1)))
    as (d & Hrun & ->); [lia | done | | done].
  intros j d Hj ->.
  destruct (valid_seam_inv path _ _ j Hseam Hj) as (pj & Hpj & Hr).
  assert (pj = 0) as -> by lia.
  unfold for_up. simpl. rewrite Hpj. simpl. eauto.
Qed.

End one_column.

(** ** Pixels written and read back *)

Section round_trip.
Import Wasm.

(** X7.  [set_pixel] followed by [get_pixel] on the same pixel gives back
    each of the four values reduced modulo 256, and every other pixel of
    the buffer keeps its four channels. *)
Theorem set_pixel_then_get_pixel buf h w y x r g b a :
  has_size buf (4 * h * w) = true → 0 ≤ y < h → 0 ≤ x < w →
  ∃ buf', set_pixel buf w y x r g b a = Some buf'
    ∧ has_size buf' (4 * h * w) = true
    ∧ get_pixel buf' w y x 0 = Some (r mod 256)
    ∧ get_pixel buf' w y x 1 = Some (g mod 256)
    ∧ get_pixel buf' w y x 2 = Some (b mod 256)
    ∧ get_pixel buf' w y x 3 = Some (a mod 256)
    ∧ ∀ y' x' c, 0 ≤ y' < h → 0 ≤ x' < w → 0 ≤ c < 4 →
        (y', x') ≠ (y, x) →
        get_pixel buf' w y' x' c = get_pixel buf w y' x' c.
Proof.
  intros Hl Hy Hx. zbool.
  destruct (set_pixel4_spec buf h w y x r g b a Hl Hy Hx)
    as (buf' & Hset & Hl' & H0 & H1 & H2 & H3 & Hfr).
  exists buf'. split; [done |]. split.
  { unfold has_size. apply Z.eqb_eq. lia. }
  repeat split; try done.
  intros y' x' c Hy' Hx' Hc Hne.
  by apply (get_pixel4_frame buf buf' w y x y' x' c).
Qed.

End round_trip.

(** ** The result can be carved again *)

Section closure.

Lemma forallb_is_byte_load (buf : list Z) :
  (∀ k v, load buf k = Some v → 0 ≤ v < 256) →
  forallb is_byte buf = true.
Proof.
  intros Hall. apply forallb_forall. intros v Hv%list_elem_of_In.
  apply list_elem_of_lookup in Hv as [n Hn].
  assert (load buf (Z.of_nat n) = Some v) as Hl.
  { rewrite load_lookup by lia. by rewrite Nat2Z.id. }
  specialize (Hall _ _ Hl). unfold is_byte.
  by rewrite (proj2 (Z.leb_le 0 v)), (proj2 (Z.ltb_lt v 256)) by lia.
Qed.

(** X26.  What [seam_carve] returns on a raster of at least two columns is
    again a well-formed RGBA buffer, of the same height and one column
    less: the operation can be applied to its own result. *)
Theorem seam_carve_result_is_a_raster src h w f :
  wf_rgba src h w = true → 2 ≤ w → wf_fresh f h w = true →
  ∃ output, Wasm.seam_carve src h w f = Some output
    ∧ wf_rgba output h (w - 1) = true.
Proof.
  intros Hwf Hw2 Hf.
  destruct (seam_carve_seam_valid src h w f Hwf Hf) as (path & Hseam & Hv).
  pose proof (wf_rgba_inv _ _ _ Hwf) as (Hh & Hw & Hlen & Hb).
  unfold wf_fresh in Hf. zbool.
  destruct (seam_carve_copy_correct src h w path (Wasm.fresh_output f)
              Hwf Hv) as (out & Hout & Hol & Hpix); [done |].
  exists out. split.
  { unfold Wasm.seam_carve. rewrite Hseam. done. }
  unfold wf_rgba, has_size.
  rewrite (proj2 (Z.leb_le 1 h)), (proj2 (Z.leb_le 1 (w - 1))) by lia.
  rewrite (proj2 (Z.eqb_eq _ _) Hol). simpl.
  apply forallb_is_byte_load. intros k v Hk.
  pose proof (load_Some_lt _ _ _ Hk) as Hkr.
  destruct (pixel_index_cover 4 h (w - 1) k)
    as (j & d & c & Hj & Hd & Hc & ->); [lia | lia | lia |].
  destruct (Hv j Hj) as (pj & Hpj & Hr).
  assert (0 ≤ seam_shift pj d < w ∧ seam_shift pj d ≠ pj
          ∧ survivor_col pj (seam_shift pj d) = d) as (Hs1 & Hs2 & Hs3).
  { unfold seam_shift, survivor_col.
    destruct (d <? pj) eqn:E; zbool.
    - rewrite (proj2 (Z.ltb_lt d pj)) by lia. lia.
    - rewrite (proj2 (Z.ltb_ge (d + 1) pj)) by lia. lia. }
  pose proof (Hpix j (seam_shift pj d) c pj Hj Hs1 Hc Hpj Hs2
                ltac:(left; lia)) as Hp.
  rewrite Hs3 in Hp. unfold Wasm.get_pixel in Hp at 1.
  rewrite Hk in Hp. symmetry in Hp.
  by apply (load_byte _ _ _ Hb Hp).
Qed.

(** X27.  So is the raster that the four stages return. *)
Theorem four_stages_result_is_a_raster im f :
  wf_rgb im = true → 2 ≤ width im → height im < 2 ^ 31 →
  wf_stage_blocks f (height im) (width im) = true →
  ∃ path dest, four_stages im f = Some (path, dest)
    ∧ height dest = height im ∧ width dest = width im - 1
    ∧ wf_rgb dest = true.
Proof.
  intros Hwf Hw2 Hh31 Hf. unfold wf_stage_blocks in Hf. zbool.
  pose proof (wf_rgb_inv _ Hwf) as (Hh & Hw & Hlen & Hb).
  destruct (four_stages_run im f) as
    (grad & best & path & Hg & Hup & Hb1 & Hdp & Hp & Hpf); try done.
  assert (∀ j, 0 ≤ j < height im →
            ∃ pj, load path j = Some pj ∧ 0 ≤ pj < width im) as Hvalid.
  { intros j Hj.
    apply (path_from_entry (rp_step best (width im)) best (height im)
             (width im) (-1)); [done | apply rp_step_range | lia]. }
  destruct (remove_seam_correct im (fresh_dest f) path Hwf Hw2)
    as (dest & Hd & Hdh & Hdw & Hdl & Hpix); try done.
  exists path, dest. split.
  { unfold four_stages. rewrite Hg. simpl. rewrite Hb1. simpl.
    rewrite Hp. simpl. rewrite Hd. done. }
  split; [done |]. split; [done |].
  unfold wf_rgb, has_size. rewrite Hdh, Hdw.
  rewrite (proj2 (Z.leb_le 1 _)), (proj2 (Z.leb_le 1 (width im - 1)))
    by lia.
  rewrite (proj2 (Z.eqb_eq _ _) Hdl). simpl.
  apply forallb_is_byte_load. intros k v Hk.
  pose proof (load_Some_lt _ _ _ Hk) as Hkr.
  destruct (pixel_index_cover 3 (height im) (width im - 1) k)
    as (j & d & c & Hj & Hd' & Hc & ->); [lia | lia | lia |].
  destruct (Hvalid j Hj) as (pj & Hpj & Hr).
  pose proof (Hpix j d c pj Hj Hd' Hc Hpj ltac:(left; lia)) as Hpx.
  unfold Seamcarving.get_pixel in Hpx at 1. rewrite Hdw, Hk in Hpx.
  symmetry in Hpx. by apply (get_pixel_byte _ _ _ _ _ Hb Hpx).
Qed.

End closure.

(** ** The comparators *)

Lemma Qle_bool_inject_Z x y : Qle_bool (inject_Z x) (inject_Z y) = (x <=? y).
Proof. unfold Qle_bool. simpl. by rewrite !Z.mul_1_r. Qed.

Lemma Qle_bool_total x y : Qle_bool x y = false → Qle_bool y x = true.
Proof.
  intros H. apply Qle_bool_iff. apply Qlt_le_weak, Qnot_le_lt.
  intros Hle%Qle_bool_iff. congruence.
Qed.

Lemma Qle_bool_refl x : Qle_bool x x = true.
Proof. apply Qle_bool_iff, Qle_refl. Qed.

Lemma Qle_bool_trans x y z :
  Qle_bool x y = true → Qle_bool y z = true → Qle_bool x z = true.
Proof. rewrite !Qle_bool_iff. apply Qle_trans. Qed.

Lemma double_min_2_le a b :
  Double.is_nan a = false → Double.is_nan b = false →
  Double.le (Double.min_2 a b) a = true
  ∧ Double.le (Double.min_2 a b) b = true.
Proof.
  destruct a as [| | x |], b as [| | y |]; try done;
    unfold Double.min_2; simpl; intros _ _;
    try (by rewrite ?Qle_bool_refl).
  destruct (Qle_bool x y) eqn:E; simpl;
    rewrite ?Qle_bool_refl, ?E; auto using Qle_bool_total.
Qed.

Lemma double_min_2_is_nan a b :
  Double.is_nan a = false → Double.is_nan b = false →
  Double.is_nan (Double.min_2 a b) = false.
Proof. intros Ha Hb. unfold Double.min_2. by destruct (Double.gt a b). Qed.

Lemma double_le_trans a b c :
  Double.le a b = true → Double.le b c = true → Double.le a c = true.
Proof.
  destruct a as [| | x |], b as [| | y |], c as [| | z |]; try done.
  apply Qle_bool_trans.
Qed.

Lemma double_min_2_glb a b m :
  Double.le m a = true → Double.le m b = true →
  Double.le m (Double.min_2 a b) = true.
Proof. intros Ha Hb. unfold Double.min_2. by destruct (Double.gt a b). Qed.

Lemma double_min_3_min_2 a b c :
  Double.min_3 a b c = Double.min_2 (Double.min_2 a b) c.
Proof. done. Qed.

Lemma double_min_3_le a b c :
  Double.is_nan a = false → Double.is_nan b = false →
  Double.is_nan c = false →
  Double.le (Double.min_3 a b c) a = true
  ∧ Double.le (Double.min_3 a b c) b = true
  ∧ Double.le (Double.min_3 a b c) c = true.
Proof.
  intros Ha Hb Hc. rewrite double_min_3_min_2.
  pose proof (double_min_2_is_nan a b Ha Hb) as Hab.
  destruct (double_min_2_le a b Ha Hb) as [H1 H2].
  destruct (double_min_2_le _ c Hab Hc) as [H3 H4].
  eauto using double_le_trans.
Qed.

Lemma double_min_3_glb a b c m :
  Double.le m a = true → Double.le m b = true → Double.le m c = true →
  Double.le m (Double.min_3 a b c) = true.
Proof.
  intros Ha Hb Hc. rewrite double_min_3_min_2.
  by apply double_min_2_glb; [apply double_min_2_glb |].
Qed.

(** X1.  Each comparator returns one of its arguments.  When no argument
    is a NaN, the result is at most every argument, and any other order of
    the arguments gives a result that compares equal; on integers the
    comparators are [min_2] and [min_3] of the integer model.  A NaN breaks
    this: [min_2] returns a NaN in first place and drops one in second
    place, and [min_3] drops one in third place. *)
Theorem comparators_least_unless_nan (a b c : double) :
  (Double.min_2 a b = a ∨ Double.min_2 a b = b)
  ∧ (Double.min_3 a b c = a ∨ Double.min_3 a b c = b
     ∨ Double.min_3 a b c = c)
  ∧ (Double.is_nan a = false → Double.is_nan b = false →
     Double.le (Double.min_2 a b) a = true
     ∧ Double.le (Double.min_2 a b) b = true
     ∧ Double.eq (Double.min_2 a b) (Double.min_2 b a) = true)
  ∧ (Double.is_nan a = false → Double.is_nan b = false →
     Double.is_nan c = false →
     Double.le (Double.min_3 a b c) a = true
     ∧ Double.le (Double.min_3 a b c) b = true
     ∧ Double.le (Double.min_3 a b c) c = true
     ∧ Double.eq (Double.min_3 a b c) (Double.min_3 c b a) = true
     ∧ Double.eq (Double.min_3 a b c) (Double.min_3 b c a) = true)
  ∧ Double.min_2 NaN b = NaN ∧ Double.min_2 a NaN = a
  ∧ Double.min_3 a b NaN = Double.min_2 a b
  ∧ (∀ x y z,
       Double.min_2 (Double.of_Z x) (Double.of_Z y)
       = Double.of_Z (min_2 x y)
       ∧ Double.min_3 (Double.of_Z x) (Double.of_Z y) (Double.of_Z z)
         = Double.of_Z (min_3 x y z)).
Proof.
  split; [unfold Double.min_2; destruct (Double.gt a b); auto |].
  split.
  { unfold Double.min_3, Double.min_2.
    destruct (Double.gt a b); simpl;
      match goal with |- context [Double.gt ?u ?v] =>
        destruct (Double.gt u v) end; auto. }
  split.
  { intros Ha Hb. destruct (double_min_2_le a b Ha Hb) as [H1 H2].
    destruct (double_min_2_le b a Hb Ha) as [H3 H4].
    split; [done |]. split; [done |]. unfold Double.eq.
    by rewrite !double_min_2_glb. }
  split.
  { intros Ha Hb Hc.
    destruct (double_min_3_le a b c Ha Hb Hc) as (H1 & H2 & H3).
    destruct (double_min_3_le c b a Hc Hb Ha) as (H4 & H5 & H6).
    destruct (double_min_3_le b c a Hb Hc Ha) as (H7 & H8 & H9).
    split; [done |]. split; [done |]. split; [done |].
    unfold Double.eq. by rewrite !double_min_3_glb. }
  split; [done |].
  split; [unfold Double.min_2; by destruct a |].
  split.
  { unfold Double.min_3. by destruct (Double.min_2 a b). }
  intros x y z. unfold Double.min_3, Double.min_2, min_3, min_2, Double.of_Z.
  simpl. rewrite !Qle_bool_inject_Z.
  destruct (x >? y) eqn:E1, (x <=? y) eqn:E2; try lia; simpl;
    rewrite !Qle_bool_inject_Z.
  - destruct (y >? z) eqn:E3, (y <=? z) eqn:E4; try lia; done.
  - destruct (x >? z) eqn:E3, (x <=? z) eqn:E4; try lia; done.
Qed.

Lemma comparators_least_unless_nan_witness :
  Double.le (Double.min_3 (Double.of_Z 3) (Double.of_Z 1) PosInf)
    (Double.of_Z 1) = true
  ∧ Double.min_2 (Double.of_Z 3) NaN = Double.of_Z 3
  ∧ Double.min_2 NaN (Double.of_Z 3) = NaN.
Proof.
  destruct (comparators_least_unless_nan (Double.of_Z 3) (Double.of_Z 1)
              PosInf) as (_ & _ & _ & H3 & _).
  destruct (comparators_least_unless_nan (Double.of_Z 3) (Double.of_Z 3)
              NaN) as (_ & _ & _ & _ & Hn & Hm & _).
  split; [apply H3; reflexivity |]. split; [apply Hm | apply Hn].
Defined.

Section twin_instances.

Lemma wasm_energy_store_never_wraps_witness :
  ∃ g, Wasm.grad_sq_at rgba_2x3 2 3 0 1 = Some g
    ∧ 0 ≤ Wasm.energy_of g ≤ 624
    ∧ 0 ≤ Wasm.energy_norm_of (Wasm.energy_of g) ≤ 62
    ∧ u8 (Wasm.energy_norm_of (Wasm.energy_of g))
      = Wasm.energy_norm_of (Wasm.energy_of g).
Proof.
  apply (wasm_energy_store_never_wraps rgba_2x3 2 3 0 1);
    [reflexivity | lia | lia].
Defined.

Lemma four_stages_seam_tie_break_witness :
  ∃ grad best path,
    Seamcarving.calc_energy raster_2x3 (fresh_grad zero_stage_blocks_2x3)
    = Some grad
    ∧ Seamcarving.dynamic_seam grad (fresh_cost zero_stage_blocks_2x3)
      = Some best
    ∧ below_sentinel best = true
    ∧ Seamcarving.recover_path best (height raster_2x3) (width raster_2x3)
        (fresh_seam zero_stage_blocks_2x3) = Some path
    ∧ seam_tie_break best (height raster_2x3) (width raster_2x3) path.
Proof.
  apply (four_stages_seam_tie_break raster_2x3 zero_stage_blocks_2x3);
    [reflexivity | simpl; lia | simpl; lia
    | reflexivity | reflexivity | reflexivity].
Defined.

End twin_instances.

(** ** Instances of the further properties *)

Section more_instances.

Lemma dynamic_seam_recurrence_witness :
  ∃ best, Seamcarving.dynamic_seam energy_2x3 (repeat 0 6%nat) = Some best
    ∧ (∀ i, 0 ≤ i < width energy_2x3 →
         load best i = Seamcarving.get_pixel energy_2x3 0 i 0)
    ∧ ∀ j i, 1 ≤ j < height energy_2x3 → 0 ≤ i < width energy_2x3 →
        ∃ e m, Seamcarving.get_pixel energy_2x3 j i 0 = Some e
          ∧ load best (j * width energy_2x3 + i) = Some (e + m)
          ∧ min_over_adjacent best (width energy_2x3) (j - 1) i m.
Proof.
  apply (dynamic_seam_recurrence energy_2x3 (repeat 0 6%nat));
    [reflexivity | simpl; lia | reflexivity].
Defined.

Lemma dynamic_seam_least_path_energy_witness :
  ∃ best, Seamcarving.dynamic_seam energy_2x3 (repeat 0 6%nat) = Some best
    ∧ (∀ cols, Z.of_nat (length cols) = 1 + 1 →
         connected (width energy_2x3) cols = true → last cols = Some 1 →
         cost_at best (width energy_2x3) 1 1
         ≤ seam_energy (map_energy energy_2x3) 0 cols)
    ∧ ∃ cols, Z.of_nat (length cols) = 1 + 1
        ∧ connected (width energy_2x3) cols = true ∧ last cols = Some 1
        ∧ seam_energy (map_energy energy_2x3) 0 cols
          = cost_at best (width energy_2x3) 1 1.
Proof.
  apply (dynamic_seam_least_path_energy energy_2x3 (repeat 0 6%nat) 1 1);
    [reflexivity | simpl; lia | reflexivity | simpl; lia | simpl; lia].
Defined.

Lemma dynamic_seam_cost_bounds_witness :
  ∃ best, Seamcarving.dynamic_seam energy_2x3 (repeat 0 6%nat) = Some best
    ∧ has_size best (height energy_2x3 * width energy_2x3) = true
    ∧ below_sentinel best = true
    ∧ ∀ j i, 0 ≤ j < height energy_2x3 → 0 ≤ i < width energy_2x3 →
        0 ≤ cost_at best (width energy_2x3) j i ≤ 255 * (j + 1).
Proof.
  apply (dynamic_seam_cost_bounds energy_2x3 (repeat 0 6%nat));
    [reflexivity | simpl; lia | simpl; lia | reflexivity].
Defined.

Lemma seam_carve_cost_recurrence_witness :
  ∃ best,
    Wasm.seam_carve_cost rgba_2x3 2 3 (repeat 0 6%nat) = Some best
    ∧ (∀ i, 0 ≤ i < 3 → load best i = Wasm.get_pixel rgba_2x3 3 0 i 0)
    ∧ ∀ j i, 1 ≤ j < 2 → 0 ≤ i < 3 →
        ∃ e m, Wasm.get_pixel rgba_2x3 3 j i 0 = Some e
          ∧ load best (j * 3 + i) = Some (e + m)
          ∧ min_over_adjacent best 3 (j - 1) i m.
Proof.
  apply (seam_carve_cost_recurrence rgba_2x3 2 3 (repeat 0 6%nat));
    [lia | lia | reflexivity | reflexivity].
Defined.

Lemma seam_carve_finds_least_energy_seam_witness :
  ∃ energy_map path,
    Wasm.calc_energy rgba_2x3 (Wasm.fresh_energy zero_blocks_2x3) 2 3
    = Some energy_map
    ∧ Wasm.seam_carve_seam rgba_2x3 2 3 zero_blocks_2x3 = Some path
    ∧ Z.of_nat (length path) = 2
    ∧ connected 3 path = true
    ∧ ∀ cols, Z.of_nat (length cols) = 2 → connected 3 cols = true →
        seam_energy (map4_energy energy_map 3) 0 path
        ≤ seam_energy (map4_energy energy_map 3) 0 cols.
Proof.
  apply (seam_carve_finds_least_energy_seam rgba_2x3 2 3 zero_blocks_2x3);
    [reflexivity | lia | reflexivity].
Defined.

Lemma seam_carve_path_minimal_witness :
  ∃ path, Wasm.seam_carve_path [44; 44; 0; 44; 0; 0] 2 3 [0; 0] = Some path
    ∧ seam_minimal [44; 44; 0; 44; 0; 0] 2 3 path.
Proof.
  apply (seam_carve_path_minimal [44; 44; 0; 44; 0; 0] 2 3 [0; 0]);
    [lia | lia | reflexivity | reflexivity].
Defined.

Lemma recover_path_seam_is_connected_witness :
  ∃ path,
    Seamcarving.recover_path [44; 44; 0; 44; 0; 0] 2 3 [0; 0] = Some path
    ∧ valid_seam path 2 3 = true
    ∧ connected 3 path = true.
Proof.
  apply (recover_path_seam_is_connected [44; 44; 0; 44; 0; 0] 2 3 [0; 0]);
    [lia | lia | reflexivity | reflexivity | reflexivity].
Defined.

Lemma four_stages_carves_one_column_witness :
  ∃ path dest,
    four_stages raster_2x3 zero_stage_blocks_2x3 = Some (path, dest)
    ∧ valid_seam path (height raster_2x3) (width raster_2x3) = true
    ∧ connected (width raster_2x3) path = true
    ∧ height dest = height raster_2x3
    ∧ width dest = width raster_2x3 - 1
    ∧ ∀ j i c, 0 ≤ j < height raster_2x3 →
        0 ≤ i < width raster_2x3 - 1 → 0 ≤ c < 3 →
        ∃ pj v, load path j = Some pj
          ∧ Seamcarving.get_pixel raster_2x3 j
              (if i <? pj then i else i + 1) c = Some v
          ∧ Seamcarving.get_pixel dest j i c = Some v.
Proof.
  apply (four_stages_carves_one_column raster_2x3 zero_stage_blocks_2x3);
    [reflexivity | simpl; lia | simpl; lia | reflexivity | reflexivity
    | reflexivity | reflexivity].
Defined.

Lemma recover_path_agrees_with_seam_carve_path_witness :
  ∃ path,
    Seamcarving.recover_path [44; 0; 44; 44; 0; 44] 2 3 [0; 0] = Some path
    ∧ Wasm.seam_carve_path [44; 0; 44; 44; 0; 44] 2 3 [7; 7] = Some path
    ∧ seam_minimal [44; 0; 44; 44; 0; 44] 2 3 path.
Proof.
  apply (recover_path_agrees_with_seam_carve_path [44; 0; 44; 44; 0; 44]
           2 3 [0; 0] [7; 7]);
    [lia | lia | reflexivity | reflexivity | reflexivity | reflexivity |].
  intros j i Hj Hi. assert (j = 0) as -> by lia.
  assert (i = 2) as -> by lia. vm_compute. discriminate.
Defined.

Lemma grad_sq_at_wraps_around_witness :
  Seamcarving.grad_sq_at raster_2x3 0 0
  = Some (sq_sum (λ c, pixel_or_0 raster_2x3 0
                         ((0 + 1) mod width raster_2x3) c
                       - pixel_or_0 raster_2x3 0
                           ((0 - 1) mod width raster_2x3) c),
          sq_sum (λ c, pixel_or_0 raster_2x3
                         ((0 - 1) mod height raster_2x3) 0 c
                       - pixel_or_0 raster_2x3
                           ((0 + 1) mod height raster_2x3) 0 c)).
Proof.
  apply (grad_sq_at_wraps_around raster_2x3 0 0);
    [reflexivity | simpl; lia | simpl; lia].
Defined.

Lemma grad_sq_at_vanishes_on_thin_rasters_witness :
  ∃ gx gy, Seamcarving.grad_sq_at raster_2x2 0 1 = Some (gx, gy)
    ∧ (height raster_2x2 ≤ 2 → gy = 0)
    ∧ (width raster_2x2 ≤ 2 → gx = 0).
Proof.
  apply (grad_sq_at_vanishes_on_thin_rasters raster_2x2 0 1);
    [reflexivity | simpl; lia | simpl; lia].
Defined.

Lemma calc_energy_of_uniform_raster_is_zero_witness :
  ∃ grad, Seamcarving.calc_energy uniform_2x2 (repeat 1 12%nat) = Some grad
    ∧ ∀ j i c, 0 ≤ j < height uniform_2x2 → 0 ≤ i < width uniform_2x2 →
        0 ≤ c < 3 → Seamcarving.get_pixel grad j i c = Some 0.
Proof.
  apply (calc_energy_of_uniform_raster_is_zero uniform_2x2
           (repeat 1 12%nat)); [reflexivity | reflexivity |].
  simpl. intros y x c Hy Hx Hc.
  assert (y = 0 ∨ y = 1) as [-> | ->] by lia;
    assert (x = 0 ∨ x = 1) as [-> | ->] by lia;
    assert (c = 0 ∨ c = 1 ∨ c = 2) as [-> | [-> | ->]] by lia;
    reflexivity.
Defined.

End more_instances.

Section further_instances.

Lemma both_build_the_same_cost_table_witness :
  ∃ grad energy_map best,
    Seamcarving.calc_energy (rgb_image rgba_2x3 2 3)
      (fresh_grad zero_stage_blocks_2x3) = Some grad
    ∧ Wasm.calc_energy rgba_2x3 (Wasm.fresh_energy zero_blocks_2x3) 2 3
      = Some energy_map
    ∧ (∀ j i c, 0 ≤ j < 2 → 0 ≤ i < 3 → 0 ≤ c < 3 →
         Seamcarving.get_pixel grad j i c
         = Wasm.get_pixel energy_map 3 j i c)
    ∧ Seamcarving.dynamic_seam grad (fresh_cost zero_stage_blocks_2x3)
      = Some best
    ∧ Wasm.seam_carve_cost energy_map 2 3
        (Wasm.fresh_best zero_blocks_2x3) = Some best.
Proof.
  apply (both_build_the_same_cost_table rgba_2x3 2 3 zero_stage_blocks_2x3
           zero_blocks_2x3); [reflexivity | lia | reflexivity | reflexivity].
Defined.

Lemma seam_carve_ignores_fresh_contents_witness :
  ∃ path output,
    Wasm.seam_carve_seam rgba_2x3 2 3 zero_blocks_2x3 = Some path
    ∧ Wasm.seam_carve_seam rgba_2x3 2 3
        (Wasm.mk_fresh (repeat 9 24%nat) (repeat 9 6%nat) (repeat 9 2%nat)
           (repeat 9 16%nat)) = Some path
    ∧ Wasm.seam_carve rgba_2x3 2 3 zero_blocks_2x3 = Some output
    ∧ Wasm.seam_carve rgba_2x3 2 3
        (Wasm.mk_fresh (repeat 9 24%nat) (repeat 9 6%nat) (repeat 9 2%nat)
           (repeat 9 16%nat)) = Some output.
Proof.
  apply (seam_carve_ignores_fresh_contents rgba_2x3 2 3 zero_blocks_2x3
           (Wasm.mk_fresh (repeat 9 24%nat) (repeat 9 6%nat)
              (repeat 9 2%nat) (repeat 9 16%nat)));
    [reflexivity | lia | reflexivity | reflexivity].
Defined.

Lemma four_stages_ignores_fresh_contents_witness :
  ∃ path dest,
    four_stages raster_2x3 zero_stage_blocks_2x3 = Some (path, dest)
    ∧ four_stages raster_2x3
        (mk_stage_blocks (repeat 9 18%nat) (repeat 9 6%nat)
           (repeat 9 2%nat) (repeat 9 12%nat)) = Some (path, dest).
Proof.
  apply (four_stages_ignores_fresh_contents raster_2x3
           zero_stage_blocks_2x3
           (mk_stage_blocks (repeat 9 18%nat) (repeat 9 6%nat)
              (repeat 9 2%nat) (repeat 9 12%nat)));
    [reflexivity | simpl; lia | simpl; lia | reflexivity | reflexivity].
Defined.

Lemma remove_seam_agrees_with_seam_carve_copy_witness :
  ∃ dest output,
    Seamcarving.remove_seam (rgb_image rgba_2x3 2 3) (repeat 0 12%nat)
      [2; 1] = Some dest
    ∧ Wasm.seam_carve_copy rgba_2x3 2 3 [2; 1] (repeat 0 16%nat)
      = Some output
    ∧ raster dest = rgb_of_rgba output.
Proof.
  apply (remove_seam_agrees_with_seam_carve_copy rgba_2x3 2 3 [2; 1]
           (repeat 0 12%nat) (repeat 0 16%nat));
    [reflexivity | lia | reflexivity | reflexivity | reflexivity].
Defined.

Lemma seam_carve_agrees_with_four_stages_witness :
  ∃ path dest output,
    four_stages (rgb_image rgba_2x3_mid 2 3) zero_stage_blocks_2x3
    = Some (path, dest)
    ∧ Wasm.seam_carve_seam rgba_2x3_mid 2 3 zero_blocks_2x3 = Some path
    ∧ Wasm.seam_carve rgba_2x3_mid 2 3 zero_blocks_2x3 = Some output
    ∧ raster dest = rgb_of_rgba output.
Proof.
  destruct (seam_carve_agrees_with_four_stages rgba_2x3_mid 2 3
              zero_stage_blocks_2x3 zero_blocks_2x3)
    as (energy_map & best & He & Hb & Hsame);
    [reflexivity | lia | lia | reflexivity | reflexivity |].
  apply Hsame. intros j i Hj Hi.
  vm_compute in He. injection He as <-.
  vm_compute in Hb. injection Hb as <-.
  assert (j = 0) as -> by lia. assert (i = 2) as -> by lia.
  vm_compute. discriminate.
Defined.

Lemma recover_path_without_cells_returns_fresh_block_witness :
  Seamcarving.recover_path [] 3 0 [7; 8; 9] = Some [7; 8; 9].
Proof.
  apply (recover_path_without_cells_returns_fresh_block [] 3 0 [7; 8; 9]).
  right. lia.
Defined.

Lemma seam_carve_of_one_column_is_empty_witness :
  Wasm.seam_carve_seam rgba_3x1 3 1 zero_blocks_3x1
  = Some (repeat 0 (Z.to_nat 3))
  ∧ Wasm.seam_carve rgba_3x1 3 1 zero_blocks_3x1 = Some [].
Proof.
  apply (seam_carve_of_one_column_is_empty rgba_3x1 3 zero_blocks_3x1);
    reflexivity.
Defined.

Lemma remove_seam_of_one_column_is_empty_witness :
  Seamcarving.remove_seam raster_3x1 [] [0; 0; 0]
  = Some (mk_img [] (height raster_3x1) 0).
Proof.
  apply (remove_seam_of_one_column_is_empty raster_3x1 [] [0; 0; 0]);
    reflexivity.
Defined.

Lemma set_pixel_then_get_pixel_witness :
  ∃ buf', Wasm.set_pixel rgba_2x3 3 0 1 300 (-1) 0 255 = Some buf'
    ∧ has_size buf' (4 * 2 * 3) = true
    ∧ Wasm.get_pixel buf' 3 0 1 0 = Some (300 mod 256)
    ∧ Wasm.get_pixel buf' 3 0 1 1 = Some (-1 mod 256)
    ∧ Wasm.get_pixel buf' 3 0 1 2 = Some (0 mod 256)
    ∧ Wasm.get_pixel buf' 3 0 1 3 = Some (255 mod 256)
    ∧ ∀ y' x' c, 0 ≤ y' < 2 → 0 ≤ x' < 3 → 0 ≤ c < 4 →
        (y', x') ≠ (0, 1) →
        Wasm.get_pixel buf' 3 y' x' c = Wasm.get_pixel rgba_2x3 3 y' x' c.
Proof.
  apply (set_pixel_then_get_pixel rgba_2x3 2 3 0 1 300 (-1) 0 255);
    [reflexivity | lia | lia].
Defined.

Lemma seam_carve_result_is_a_raster_witness :
  ∃ output, Wasm.seam_carve rgba_2x3 2 3 zero_blocks_2x3 = Some output
    ∧ wf_rgba output 2 (3 - 1) = true.
Proof.
  apply (seam_carve_result_is_a_raster rgba_2x3 2 3 zero_blocks_2x3);
    [reflexivity | lia | reflexivity].
Defined.

Lemma four_stages_result_is_a_raster_witness :
  ∃ path dest, four_stages raster_2x3 zero_stage_blocks_2x3
               = Some (path, dest)
    ∧ height dest = height raster_2x3
    ∧ width dest = width raster_2x3 - 1
    ∧ wf_rgb dest = true.
Proof.
  apply (four_stages_result_is_a_raster raster_2x3 zero_stage_blocks_2x3);
    [reflexivity | simpl; lia | simpl; lia | reflexivity].
Defined.

Lemma wasm_calc_energy_stores_truncated_energy_witness :
  ∃ dest', Wasm.calc_energy rgba_2x3 (repeat 0 24%nat) 2 3 = Some dest'
    ∧ has_size dest' (4 * 2 * 3) = true
    ∧ ∀ j i, 0 ≤ j < 2 → 0 ≤ i < 3 →
        ∃ grad_x_2 grad_y_2,
          Wasm.grad_sq_at rgba_2x3 2 3 j i = Some (grad_x_2, grad_y_2)
          ∧ (∀ c, 0 ≤ c < 3 →
               Wasm.get_pixel dest' 3 j i c
               = Some ((Z.sqrt (grad_x_2 + grad_y_2) / 10) mod 256))
          ∧ Wasm.get_pixel dest' 3 j i 3 = Some 255.
Proof.
  apply (wasm_calc_energy_stores_truncated_energy rgba_2x3
           (repeat 0 24%nat) 2 3); reflexivity.
Defined.

End further_instances.
